(** * Explore utilities: URL state codec, query batches, colours, history

    A shallow embedding of the Explore utility module (the TypeScript module
    that exports [parseUrlState], [serializeStateToUrlParam], [ensureQueries],
    [hasNonEmptyQuery], [buildQueryTransaction], [makeTimeSeriesList] and
    [updateHistory]) and the properties its specification states about it.

    Conventions of the embedding:
    - JavaScript values are the inductive [value]; plain objects are
      association lists in property-insertion order ([object]); numbers are
      the integer fragment ([Z]); functions are not values (none of the
      modelled code stores one in a query or a state).
    - An abrupt completion (a thrown exception) is explicit: fallible code
      returns a [completion].
    - What the module imports (ECMAScript built-ins working on text, the
      colour palette, the default log de-duplication strategy) is the
      interface [Env]; [reference_env] is a concrete instance used to run
      the code on concrete URL texts.
    - [Date.now], [Math.random] and the key-value store are effects on a
      [World], threaded by the state monad [Eff].
    - [console.error] only writes to the console; it is not modelled. *)

From Stdlib Require Import ZArith Ascii String List Lia DecimalString DecimalZ.
From stdpp Require Import base tactics option list strings gmap.

Set Warnings "-register-all".
Local Open Scope string_scope.
Local Open Scope list_scope.
Local Open Scope nat_scope.

(** ** JavaScript values *)

Inductive value : Type :=
| VUndef
| VNull
| VBool (b : bool)
| VNum (n : Z)
| VStr (s : string)
| VArr (items : list value)
| VObj (fields : list (string * value)).

(** A plain object: its own enumerable properties, in insertion order. *)
Definition object : Type := list (string * value).

(** Abrupt completions of the modelled fragment. *)
Inductive exn : Type := TypeError | URIError | SyntaxError.

Inductive completion (A : Type) : Type :=
| Normal (a : A)
| Throw (e : exn).
Arguments Normal {A} a.
Arguments Throw {A} e.

#[global] Instance completion_ret : MRet completion := fun _ a => Normal a.
#[global] Instance completion_bind : MBind completion := fun _ _ f m =>
  match m with
  | Normal a => f a
  | Throw e => Throw e
  end.

(** [try { return c } catch (error) { console.error(error) }] followed by
    falling off the end of the function: the result is [undefined]. *)
Definition try_or_undefined (c : completion value) : value :=
  match c with
  | Normal v => v
  | Throw _ => VUndef
  end.

(** ToBoolean. *)
Definition truthy (v : value) : bool :=
  match v with
  | VUndef | VNull => false
  | VBool b => b
  | VNum n => negb (n =? 0)%Z
  | VStr s => negb (String.eqb s EmptyString)
  | VArr _ | VObj _ => true
  end.

(** Number::toString on the integer fragment: all the digits, with a
    leading minus sign for a negative number.  That is what JavaScript
    prints for the safe integers, of magnitude [2^53] at most, which covers
    indices and clock readings.  Beyond them it rounds to the shortest digits
    that identify the number, and from [10^21] on it uses exponent notation
    ([1e+21]), neither of which this rendering follows; [prints_plainly]
    below marks the values that hold safe integers only. *)
Definition number_to_string (n : Z) : string :=
  NilZero.string_of_int (Z.to_int n).

Definition nat_to_string (n : nat) : string := number_to_string (Z.of_nat n).

Definition join (sep : string) (parts : list string) : string :=
  match parts with
  | [] => EmptyString
  | p :: ps => fold_left (fun acc q => acc +:+ sep +:+ q) ps p
  end.

(** ToString, as applied by template literals and by [+=] on a string. *)
Fixpoint ToString (v : value) : string :=
  match v with
  | VUndef => "undefined"
  | VNull => "null"
  | VBool true => "true"
  | VBool false => "false"
  | VNum n => number_to_string n
  | VStr s => s
  | VArr items =>
      join "," (map (fun x => match x with
                              | VUndef | VNull => EmptyString
                              | _ => ToString x
                              end) items)
  | VObj _ => "[object Object]"
  end.

(** *** Own properties of plain objects *)

Fixpoint lookup_field (k : string) (o : object) : option value :=
  match o with
  | [] => None
  | (k', v) :: o' => if String.eqb k' k then Some v else lookup_field k o'
  end.

(** [o.k] on a plain object: [undefined] when [k] is not an own property
    (none of the property names read by the module lives on
    [Object.prototype]). *)
Definition get (o : object) (k : string) : value :=
  default VUndef (lookup_field k o).

Definition has_field (k : string) (o : object) : bool :=
  match lookup_field k o with
  | Some _ => true
  | None => false
  end.

(** [o[k] = v]: overwrite in place, or append a new property. *)
Fixpoint set_field (k : string) (v : value) (o : object) : object :=
  match o with
  | [] => [(k, v)]
  | (k', v') :: o' =>
      if String.eqb k' k then (k, v) :: o' else (k', v') :: set_field k v o'
  end.

(** The object-spread step [{ ...acc, ...src }]. *)
Definition spread (src acc : object) : object :=
  fold_left (fun o kv => set_field kv.1 kv.2 o) src acc.

(** [Object.keys(o)]. *)
Definition Object_keys (o : object) : list string := map fst o.

(** *** Property reads and method calls on arbitrary values *)

Definition nth_char (i : nat) (s : string) : value :=
  match String.get i s with
  | Some c => VStr (String c EmptyString)
  | None => VUndef
  end.

(** [v[i]] for an array index [i]. *)
Definition get_index (v : value) (i : nat) : completion value :=
  match v with
  | VUndef | VNull => Throw TypeError
  | VArr items => Normal (nth i items VUndef)
  | VStr s => Normal (nth_char i s)
  | VObj fields => Normal (get fields (nat_to_string i))
  | VBool _ | VNum _ => Normal VUndef
  end.

(** [v.k] for a property name [k] that is neither an array index nor
    [length]. *)
Definition get_prop (v : value) (k : string) : completion value :=
  match v with
  | VUndef | VNull => Throw TypeError
  | VObj fields => Normal (get fields k)
  | _ => Normal VUndef
  end.

Definition is_index_below (n : nat) (k : string) : bool :=
  existsb (fun i => String.eqb (nat_to_string i) k) (seq 0 n).

(** The method call [v.hasOwnProperty(k)].  On [undefined] and [null] the
    property read throws.  On a plain object an own property named
    [hasOwnProperty] shadows the inherited method, and since no [value] is
    callable the call throws; otherwise the inherited method answers. *)
Definition call_hasOwnProperty (v : value) (k : string) : completion bool :=
  match v with
  | VUndef | VNull => Throw TypeError
  | VObj fields =>
      if has_field "hasOwnProperty" fields then Throw TypeError
      else Normal (has_field k fields)
  | VArr items =>
      Normal (String.eqb k "length" || is_index_below (length items) k)
  | VStr s =>
      Normal (String.eqb k "length" || is_index_below (String.length s) k)
  | VBool _ | VNum _ => Normal false
  end.

(** [xs.some(p)] for a predicate that may throw: left to right, stopping at
    the first hit. *)
Fixpoint some_c {A} (p : A -> completion bool) (xs : list A) : completion bool :=
  match xs with
  | [] => Normal false
  | x :: xs' => b ← p x; if b : bool then Normal true else some_c p xs'
  end.

(** [xs.filter(p)] for a predicate that may throw. *)
Fixpoint filter_c {A} (p : A -> completion bool) (xs : list A) : completion (list A) :=
  match xs with
  | [] => Normal []
  | x :: xs' =>
      b ← p x; rest ← filter_c p xs';
      Normal (if b : bool then x :: rest else rest)
  end.

(** ** The module's imports *)

Class Env : Type := {
  (** [decodeURI]; throws [URIError] on a malformed escape. *)
  decodeURI : string -> completion string;
  (** [JSON.parse]; throws [SyntaxError] on text that is not JSON. *)
  JSON_parse : string -> completion value;
  (** [JSON.stringify], as applied to arrays and plain objects. *)
  JSON_stringify : value -> string;
  (** The palette [colors] exported by the UI library. *)
  colors : list string;
  (** [LogsDedupStrategy.none], declared by the logs model. *)
  LogsDedupStrategy_none : value;
}.

(** ** URL state codec *)

Module ParseUrlStateIndex.
Definition RangeFrom : nat := 0.
Definition RangeTo : nat := 1.
Definition Datasource : nat := 2.
Definition SegmentsStart : nat := 3.
End ParseUrlStateIndex.

Module ParseUiStateIndex.
Definition Graph : nat := 0.
Definition Logs : nat := 1.
Definition Table : nat := 2.
Definition Strategy : nat := 3.
End ParseUiStateIndex.

Section UrlState.
Context `{Env}.

Definition DEFAULT_RANGE : value :=
  VObj [("from", VStr "now-6h"); ("to", VStr "now")].

Definition DEFAULT_UI_STATE : value :=
  VObj [("showingTable", VBool true);
        ("showingGraph", VBool true);
        ("showingLogs", VBool true);
        ("dedupStrategy", LogsDedupStrategy_none)].

Definition metricProperties : list string := ["expr"; "target"; "datasource"].

Definition isMetricSegment (segment : value) : completion bool :=
  some_c (fun prop => call_hasOwnProperty segment prop) metricProperties.

Definition isUISegment (segment : value) : completion bool :=
  call_hasOwnProperty segment "ui".

Definition safeParseJson (text : option string) : value :=
  match text with
  | None => VUndef
  | Some t =>
      if String.eqb t EmptyString then VUndef
      else try_or_undefined (d ← decodeURI t; JSON_parse d)
  end.

Definition errorResult : value :=
  VObj [("datasource", VNull);
        ("queries", VArr []);
        ("range", DEFAULT_RANGE);
        ("ui", DEFAULT_UI_STATE)].

(** The [ui] property of the value returned for a compact array. *)
Definition ui_of_segments (parsedSegments : list value) : completion value :=
  uis ← filter_c isUISegment parsedSegments;
  let uiState := nth 0 uis VUndef in
  if truthy uiState then
    ui ← get_prop uiState "ui";
    g ← get_index ui ParseUiStateIndex.Graph;
    l ← get_index ui ParseUiStateIndex.Logs;
    t ← get_index ui ParseUiStateIndex.Table;
    s ← get_index ui ParseUiStateIndex.Strategy;
    Normal (VObj [("showingGraph", g);
                  ("showingLogs", l);
                  ("showingTable", t);
                  ("dedupStrategy", s)])
  else Normal DEFAULT_UI_STATE.

Definition parseUrlState (initial : option string) : completion value :=
  let parsed := safeParseJson initial in
  if negb (truthy parsed) then Normal errorResult
  else
    match parsed with
    | VArr items =>
        if length items <=? ParseUrlStateIndex.SegmentsStart then Normal errorResult
        else
          let range := VObj [("from", nth ParseUrlStateIndex.RangeFrom items VUndef);
                             ("to", nth ParseUrlStateIndex.RangeTo items VUndef)] in
          let datasource := nth ParseUrlStateIndex.Datasource items VUndef in
          let parsedSegments := drop ParseUrlStateIndex.SegmentsStart items in
          queries ← filter_c isMetricSegment parsedSegments;
          ui ← ui_of_segments parsedSegments;
          Normal (VObj [("datasource", datasource);
                        ("queries", VArr queries);
                        ("range", range);
                        ("ui", ui)])
    | _ => Normal parsed
    end.

(** Modelled from the spec: the types [RawTimeRange], [ExploreUIState] and
    [ExploreUrlState], whose declarations are not among the sources.  They
    follow the SessionState of the specification's data model: a range of two
    strings, a datasource name or [null], a sequence of queries, and the UI
    flags with the de-duplication strategy. *)
Record RawTimeRange : Type := { from : string; to : string }.

Record ExploreUIState : Type := {
  showingGraph : bool;
  showingLogs : bool;
  showingTable : bool;
  dedupStrategy : value;
}.

Record ExploreUrlState : Type := {
  datasource : option string;
  queries : list object;
  range : RawTimeRange;
  ui : ExploreUIState;
}.

Definition datasource_value (d : option string) : value :=
  match d with
  | Some name => VStr name
  | None => VNull
  end.

Definition range_value (r : RawTimeRange) : value :=
  VObj [("from", VStr (from r)); ("to", VStr (to r))].

Definition ui_value (u : ExploreUIState) : value :=
  VObj [("showingGraph", VBool (showingGraph u));
        ("showingLogs", VBool (showingLogs u));
        ("showingTable", VBool (showingTable u));
        ("dedupStrategy", dedupStrategy u)].

(** The state as a JavaScript object. *)
Definition state_value (urlState : ExploreUrlState) : value :=
  VObj [("datasource", datasource_value (datasource urlState));
        ("queries", VArr (map VObj (queries urlState)));
        ("range", range_value (range urlState));
        ("ui", ui_value (ui urlState))].

(** The array literal that compact serialization hands to
    [JSON.stringify]. *)
Definition compact_array (urlState : ExploreUrlState) : value :=
  VArr ([VStr (from (range urlState));
         VStr (to (range urlState));
         datasource_value (datasource urlState)]
        ++ map VObj (queries urlState)
        ++ [VObj [("ui",
                   VArr [VBool (negb (negb (showingGraph (ui urlState))));
                         VBool (negb (negb (showingLogs (ui urlState))));
                         VBool (negb (negb (showingTable (ui urlState))));
                         dedupStrategy (ui urlState)])]]).

Definition serializeStateToUrlParam (urlState : ExploreUrlState) (compact : bool)
  : string :=
  if compact then JSON_stringify (compact_array urlState)
  else JSON_stringify (state_value urlState).

End UrlState.

(** ** Effects: clock, random source, key-value store *)

(** The part of the browser the module reads and writes.  [clock] and
    [random] list the results that successive calls of [Date.now()] and
    [Math.random()] return, the latter by their decimal rendering (a
    fraction lies outside the integer fragment of [VNum], and the module
    only ever interpolates it into a string).  [store] is the persistent
    key-value store behind [app/core/store]. *)
Record World : Type := {
  clock : nat -> Z;
  clock_reads : nat;
  random : nat -> string;
  random_draws : nat;
  store : gmap string value;
}.

Definition Eff (A : Type) : Type := World -> A * World.

Definition eff_ret {A} (a : A) : Eff A := fun w => (a, w).

Definition eff_bind {A B} (m : Eff A) (f : A -> Eff B) : Eff B :=
  fun w => let (a, w') := m w in f a w'.

Declare Scope eff_scope.
Delimit Scope eff_scope with eff.
Bind Scope eff_scope with Eff.
Notation "'do' x <- m ; k" := (eff_bind m (fun x => k))
  (at level 10, x name, m at level 100, k at level 200,
   format "'[v' 'do'  x  <-  m ; '/' k ']'") : eff_scope.
Local Open Scope eff_scope.

(** [Date.now()] *)
Definition Date_now : Eff Z := fun w =>
  (clock w (clock_reads w),
   {| clock := clock w; clock_reads := S (clock_reads w);
      random := random w; random_draws := random_draws w;
      store := store w |}).

(** [Math.random()] *)
Definition Math_random : Eff string := fun w =>
  (random w (random_draws w),
   {| clock := clock w; clock_reads := clock_reads w;
      random := random w; random_draws := S (random_draws w);
      store := store w |}).

(** Modelled from the spec: [store.setObject] and [store.delete] of
    [app/core/store], which is not among the sources; the specification
    requires of it a key-value store supporting get/set/delete by string
    key. *)
Definition store_setObject (key : string) (v : value) : Eff unit := fun w =>
  (tt,
   {| clock := clock w; clock_reads := clock_reads w;
      random := random w; random_draws := random_draws w;
      store := <[key := v]> (store w) |}).

Definition store_delete (key : string) : Eff unit := fun w =>
  (tt,
   {| clock := clock w; clock_reads := clock_reads w;
      random := random w; random_draws := random_draws w;
      store := delete key (store w) |}).

(** ** Query keys and ref-ids *)

Definition generateKey (index : nat) : Eff string :=
  do now <- Date_now;
  do r <- Math_random;
  eff_ret ("Q-" +:+ number_to_string now +:+ "-" +:+ r +:+ "-" +:+ nat_to_string index).

Definition letters : list string :=
  ["A"; "B"; "C"; "D"; "E"; "F"; "G"; "H"; "I"; "J"; "K"; "L"; "M";
   "N"; "O"; "P"; "Q"; "R"; "S"; "T"; "U"; "V"; "W"; "X"; "Y"; "Z"].

(** [v === s] for a string [s]. *)
Definition strict_eq_string (v : value) (s : string) : bool :=
  match v with
  | VStr s' => String.eqb s' s
  | _ => false
  end.

(** Modelled from the spec: [getNextRefIdChar] of [./query], which is not
    among the sources.  The specification has it allocate the next unused
    letter ([A], [B], [C], ...): the first capital letter that is the
    [refId] of none of the given queries.  It names no result for the case
    that all letters are taken; that case is [undefined] here. *)
Definition getNextRefIdChar (queries : list object) : value :=
  match
    List.find
      (fun refId =>
         forallb (fun other => negb (strict_eq_string (get other "refId") refId))
                 queries)
      letters
  with
  | Some refId => VStr refId
  | None => VUndef
  end.

(** [queries] is [undefined] or an array. *)
Definition generateEmptyQuery (queries : option (list object)) (index : nat)
  : Eff object :=
  let refId := getNextRefIdChar (default [] queries) in
  do key <- generateKey index;
  eff_ret [("refId", refId); ("key", VStr key)].

(** The [for] loop of [ensureQueries]: [rest] are the queries from position
    [index] on, [allQueries] the batch built so far. *)
Fixpoint ensureQueries_loop (index : nat) (rest allQueries : list object)
  : Eff (list object) :=
  match rest with
  | [] => eff_ret allQueries
  | query :: rest' =>
      do key <- generateKey index;
      let refId := get query "refId" in
      let refId :=
        if negb (truthy refId) then getNextRefIdChar allQueries else refId in
      ensureQueries_loop (S index) rest'
        (allQueries
         ++ [set_field "key" (VStr key)
               (set_field "refId" refId (spread query []))])
  end.

Definition ensureQueries (queries : option (list object)) : Eff (list object) :=
  match queries with
  | Some ((_ :: _) as qs) => ensureQueries_loop 0 qs []
  | _ =>
      do q <- generateEmptyQuery queries 0;
      eff_ret [spread q []]
  end.

(** [queries] is an array here, hence truthy, and the result is that of
    [queries.some(...)]. *)
Definition hasNonEmptyQuery (queries : list object) : bool :=
  existsb
    (fun query =>
       2 <? length (List.filter truthy
                      (map (fun k => get query k) (Object_keys query))))
    queries.

(** [({ key, refId, ...rest }) => rest] *)
Definition clearQueryKeys (query : object) : object :=
  List.filter
    (fun kv => negb (String.eqb kv.1 "key") && negb (String.eqb kv.1 "refId"))
    query.

(** ** Query transactions *)

(** Modelled from the spec: the types [ResultType], [TimeRange],
    [QueryIntervals] and [QueryTransaction] with its [options], whose
    declarations are not among the sources.  The fields are those the
    specification's data model lists and the code below reads or writes; the
    two resolved instants of a [TimeRange] are opaque here. *)
Inductive ResultType : Type := Graph | Table | Logs.

Record TimeRange : Type := {
  from_instant : value;
  to_instant : value;
  raw : RawTimeRange;
}.

Record QueryIntervals : Type := { interval : string; intervalMs : Z }.

(** The [options] object of a transaction. *)
Module Options.
Record t : Type := {
  interval : string;
  intervalMs : Z;
  panelId : string;
  targets : list object;
  range : TimeRange;
  rangeRaw : RawTimeRange;
  scopedVars : value;
  maxDataPoints : value;
}.
End Options.

(** [QueryTransaction].  [result] is what [makeTimeSeriesList] reads as
    [other.result]: an array of series once the execution layer has attached
    it, absent on a transaction as [buildQueryTransaction] returns it. *)
Module Transaction.
Record t : Type := {
  queries : list object;
  options : Options.t;
  resultType : ResultType;
  scanning : bool;
  id : string;
  done : bool;
  latency : Z;
  result : option (list value);
}.
End Transaction.

(** [{ ...query, ...queryOptions }] *)
Definition configure (queryOptions query : object) : object :=
  spread queryOptions (spread query []).

(** The [reduce] that concatenates the keys. *)
Definition combinedKey (queries : list object) : string :=
  fold_left (fun combinedKey query => combinedKey +:+ ToString (get query "key"))
            queries EmptyString.

Definition buildQueryTransaction (queries : list object) (resultType : ResultType)
    (queryOptions : object) (range : TimeRange) (queryIntervals : QueryIntervals)
    (scanning : bool) : Eff Transaction.t :=
  let interval := interval queryIntervals in
  let intervalMs := intervalMs queryIntervals in
  let configuredQueries := map (configure queryOptions) queries in
  let key := combinedKey queries in
  let panelId := (ToString (get queryOptions "format") +:+ "-" +:+ key) in
  let options :=
    {| Options.interval := interval;
       Options.intervalMs := intervalMs;
       Options.panelId := panelId;
       Options.targets := configuredQueries;
       Options.range := range;
       Options.rangeRaw := raw range;
       Options.scopedVars :=
         VObj [("__interval",
                VObj [("text", VStr interval); ("value", VStr interval)]);
               ("__interval_ms",
                VObj [("text", VNum intervalMs); ("value", VNum intervalMs)])];
       Options.maxDataPoints := get queryOptions "maxDataPoints" |} in
  do id <- generateKey 0;
  eff_ret {| Transaction.queries := queries;
             Transaction.options := options;
             Transaction.resultType := resultType;
             Transaction.scanning := scanning;
             Transaction.id := id;
             Transaction.done := false;
             Transaction.latency := 0%Z;
             Transaction.result := None |}.

(** ** Colours of time series *)

(** Transactions are objects compared by identity ([other === transaction]):
    a list of transactions is a list of references into a heap, and the
    same reference may occur in it more than once. *)
Definition ref : Type := nat.
Definition heap : Type := ref -> Transaction.t.

(** Modelled from the spec: a [TimeSeries] (of [app/core/time_series2],
    not among the sources) is the record of the options handed to its
    constructor: datapoints, alias, colour and unit. *)
Record TimeSeries : Type := {
  datapoints : value;
  alias : value;
  color : value;
  unit_ : value;
}.

Definition is_Graph (r : ResultType) : bool :=
  match r with
  | Graph => true
  | _ => false
  end.

(** The [for ... of] loop with its [break]; [other.result.length] throws
    when [other] carries no result. *)
Fixpoint colorIndexOffset_loop (h : heap) (transaction : ref)
    (others : list ref) (colorIndexOffset : nat) : completion nat :=
  match others with
  | [] => Normal colorIndexOffset
  | other :: rest =>
      if Nat.eqb other transaction then Normal colorIndexOffset
      else if is_Graph (Transaction.resultType (h other))
              && Transaction.done (h other)
      then
        match Transaction.result (h other) with
        | Some series =>
            colorIndexOffset_loop h transaction rest
              (colorIndexOffset + length series)
        | None => Throw TypeError
        end
      else colorIndexOffset_loop h transaction rest colorIndexOffset
  end.

Section Colors.
Context `{Env}.

(** [colors[colorIndex]] with [colorIndex = (offset + index) % colors.length]:
    [undefined] when the palette is empty. *)
Definition color_at (colorIndexOffset index : nat) : value :=
  match colors !! ((colorIndexOffset + index) mod length colors) with
  | Some c => VStr c
  | None => VUndef
  end.

Definition makeTimeSeriesList (h : heap) (dataList : list object)
    (transaction : ref) (allTransactions : list ref)
  : completion (list TimeSeries) :=
  colorIndexOffset ← colorIndexOffset_loop h transaction allTransactions 0;
  Normal
    (imap
       (fun index seriesData =>
          let datapoints :=
            if truthy (get seriesData "datapoints")
            then get seriesData "datapoints" else VArr [] in
          let alias := get seriesData "target" in
          let color := color_at colorIndexOffset index in
          {| datapoints := datapoints;
             alias := alias;
             color := color;
             unit_ := get seriesData "unit" |})
       dataList).

End Colors.

(** ** Query history *)

Definition MAX_HISTORY_ITEMS : nat := 100.

Definition historyKey (datasourceId : string) : string :=
  "grafana.explore.history." +:+ datasourceId.

(** [{ query, ts }] *)
Definition HistoryItem (query : object) (ts : Z) : value :=
  VObj [("query", VObj query); ("ts", VNum ts)].

Definition updateHistory (history : list value) (datasourceId : string)
    (queries : list object) : Eff (list value) :=
  do ts <- Date_now;
  let history :=
    fold_left (fun history query => HistoryItem query ts :: history)
              queries history in
  let history :=
    if MAX_HISTORY_ITEMS <? length history
    then take MAX_HISTORY_ITEMS history else history in
  do _u <- store_setObject (historyKey datasourceId) (VArr history);
  eff_ret history.

Definition clearHistory (datasourceId : string) : Eff unit :=
  store_delete (historyKey datasourceId).

(** ** Reference built-ins

    A concrete [Env], to run the module on concrete texts.  It implements
    [JSON.stringify], [JSON.parse] and [decodeURI] on the fragment of the
    embedding: integer number literals and ASCII escapes.  A text outside
    that fragment (a number with a fraction or an exponent, a [\u] escape
    or a percent escape of a code above 127) is rejected where the real
    built-in would interpret it.  Bytes above 127 that occur unescaped are
    ordinary characters. *)
Module Reference.

Definition dquote : ascii := "034"%char.
Definition backslash : ascii := "092"%char.

(** Texts are written with an apostrophe where the JSON text has a double
    quote: [js "['a']"] is the text of the array holding the string [a]. *)
Fixpoint js (s : string) : string :=
  match s with
  | EmptyString => EmptyString
  | String c r => String (if Ascii.eqb c "'" then dquote else c) (js r)
  end.

Definition hex_digit (n : nat) : ascii :=
  nth n (list_ascii_of_string "0123456789abcdef") "0"%char.

Definition hex_value (c : ascii) : option nat :=
  let n := nat_of_ascii c in
  if (48 <=? n) && (n <=? 57) then Some (n - 48)
  else if (97 <=? n) && (n <=? 102) then Some (n - 87)
  else if (65 <=? n) && (n <=? 70) then Some (n - 55)
  else None.

(** *** [JSON.stringify] *)

Definition escape_char (c : ascii) : string :=
  let n := nat_of_ascii c in
  if Ascii.eqb c dquote then String backslash (String dquote EmptyString)
  else if Ascii.eqb c backslash then String backslash (String backslash EmptyString)
  else if n =? 8 then String backslash "b"
  else if n =? 9 then String backslash "t"
  else if n =? 10 then String backslash "n"
  else if n =? 12 then String backslash "f"
  else if n =? 13 then String backslash "r"
  else if n <? 32 then
    String backslash
      (String "u" (String "0" (String "0"
         (String (hex_digit (n / 16)) (String (hex_digit (n mod 16)) EmptyString)))))
  else String c EmptyString.

Fixpoint escape (s : string) : string :=
  match s with
  | EmptyString => EmptyString
  | String c r => escape_char c +:+ escape r
  end.

Definition quote (s : string) : string :=
  String dquote (escape s +:+ String dquote EmptyString).

(** An [undefined] array element prints as [null]; a property whose value is
    [undefined] is left out. *)
Fixpoint stringify (v : value) : string :=
  match v with
  | VUndef | VNull => "null"
  | VBool true => "true"
  | VBool false => "false"
  | VNum n => number_to_string n
  | VStr s => quote s
  | VArr items => "[" +:+ join "," (map stringify items) +:+ "]"
  | VObj fields =>
      "{" +:+
      join ","
        ((fix members (fs : list (string * value)) : list string :=
            match fs with
            | [] => []
            | (k, VUndef) :: fs' => members fs'
            | (k, x) :: fs' => (quote k +:+ ":" +:+ stringify x) :: members fs'
            end) fields)
      +:+ "}"
  end.

(** *** [JSON.parse] *)

Definition is_ws (c : ascii) : bool :=
  let n := nat_of_ascii c in
  (n =? 32) || (n =? 9) || (n =? 10) || (n =? 13).

Fixpoint skip_ws (s : string) : string :=
  match s with
  | String c r => if is_ws c then skip_ws r else s
  | EmptyString => s
  end.

Fixpoint strip_prefix (p s : string) : option string :=
  match p with
  | EmptyString => Some s
  | String a p' =>
      match s with
      | String b s' => if Ascii.eqb a b then strip_prefix p' s' else None
      | EmptyString => None
      end
  end.

Definition unescape (e : ascii) : option ascii :=
  if Ascii.eqb e dquote then Some dquote
  else if Ascii.eqb e backslash then Some backslash
  else if Ascii.eqb e "/" then Some "/"%char
  else if Ascii.eqb e "b" then Some "008"%char
  else if Ascii.eqb e "t" then Some "009"%char
  else if Ascii.eqb e "n" then Some "010"%char
  else if Ascii.eqb e "f" then Some "012"%char
  else if Ascii.eqb e "r" then Some "013"%char
  else None.

Definition hex4 (h1 h2 h3 h4 : ascii) : option nat :=
  a ← hex_value h1; b ← hex_value h2; c ← hex_value h3; d ← hex_value h4;
  Some (a * 4096 + b * 256 + c * 16 + d).

(** The characters of a string literal after its opening quote, up to and
    including the closing quote. *)
Fixpoint parse_string_body (s : string) : option (string * string) :=
  match s with
  | EmptyString => None
  | String c r =>
      if Ascii.eqb c dquote then Some (EmptyString, r)
      else if Ascii.eqb c backslash then
        match r with
        | String e r' =>
            if Ascii.eqb e "u" then
              match r' with
              | String h1 (String h2 (String h3 (String h4 r''))) =>
                  n ← hex4 h1 h2 h3 h4;
                  if n <? 128 then
                    '(str, rest) ← parse_string_body r'';
                    Some (String (ascii_of_nat n) str, rest)
                  else None
              | _ => None
              end
            else
              c' ← unescape e;
              '(str, rest) ← parse_string_body r';
              Some (String c' str, rest)
        | EmptyString => None
        end
      else if nat_of_ascii c <? 32 then None
      else
        '(str, rest) ← parse_string_body r;
        Some (String c str, rest)
  end.

Definition is_digit (c : ascii) : bool :=
  (48 <=? nat_of_ascii c) && (nat_of_ascii c <=? 57).

Fixpoint span_digits (s : string) : string * string :=
  match s with
  | String c r =>
      if is_digit c then let (d, rest) := span_digits r in (String c d, rest)
      else (EmptyString, s)
  | EmptyString => (EmptyString, EmptyString)
  end.

Definition parse_unsigned (s : string) : option (Z * string) :=
  let (digits, rest) := span_digits s in
  match digits with
  | EmptyString => None
  | String "0" (String _ _) => None
  | _ => u ← NilZero.uint_of_string digits; Some (Z.of_uint u, rest)
  end.

Definition parse_number (s : string) : option (Z * string) :=
  match s with
  | String c r =>
      if Ascii.eqb c "-" then '(n, rest) ← parse_unsigned r; Some ((- n)%Z, rest)
      else parse_unsigned s
  | EmptyString => None
  end.

Fixpoint parse_value (fuel : nat) (s : string) : option (value * string) :=
  match fuel with
  | 0 => None
  | S fuel' =>
      match skip_ws s with
      | EmptyString => None
      | String c r =>
          if Ascii.eqb c "n" then rest ← strip_prefix "ull" r; Some (VNull, rest)
          else if Ascii.eqb c "t" then rest ← strip_prefix "rue" r; Some (VBool true, rest)
          else if Ascii.eqb c "f" then rest ← strip_prefix "alse" r; Some (VBool false, rest)
          else if Ascii.eqb c dquote then
            '(str, rest) ← parse_string_body r; Some (VStr str, rest)
          else if Ascii.eqb c "[" then
            match skip_ws r with
            | EmptyString => None
            | String c' rest =>
                if Ascii.eqb c' "]" then Some (VArr [], rest)
                else '(items, rest) ← parse_elements fuel' r; Some (VArr items, rest)
            end
          else if Ascii.eqb c "{" then
            match skip_ws r with
            | EmptyString => None
            | String c' rest =>
                if Ascii.eqb c' "}" then Some (VObj [], rest)
                else '(fields, rest) ← parse_members fuel' r []; Some (VObj fields, rest)
            end
          else '(n, rest) ← parse_number (String c r); Some (VNum n, rest)
      end
  end
with parse_elements (fuel : nat) (s : string) : option (list value * string) :=
  match fuel with
  | 0 => None
  | S fuel' =>
      '(v, r) ← parse_value fuel' s;
      match skip_ws r with
      | EmptyString => None
      | String c r' =>
          if Ascii.eqb c "," then
            '(vs, rest) ← parse_elements fuel' r'; Some (v :: vs, rest)
          else if Ascii.eqb c "]" then Some ([v], r')
          else None
      end
  end
with parse_members (fuel : nat) (s : string) (acc : object)
  : option (object * string) :=
  match fuel with
  | 0 => None
  | S fuel' =>
      match skip_ws s with
      | EmptyString => None
      | String c r =>
          if Ascii.eqb c dquote then
            '(k, r1) ← parse_string_body r;
            match skip_ws r1 with
            | EmptyString => None
            | String c1 r2 =>
                if Ascii.eqb c1 ":" then
                  '(v, r3) ← parse_value fuel' r2;
                  let acc' := set_field k v acc in
                  match skip_ws r3 with
                  | EmptyString => None
                  | String c3 r4 =>
                      if Ascii.eqb c3 "," then parse_members fuel' r4 acc'
                      else if Ascii.eqb c3 "}" then Some (acc', r4)
                      else None
                  end
                else None
            end
          else None
      end
  end.

Definition parse (text : string) : completion value :=
  match parse_value (2 * String.length text + 2) text with
  | Some (v, rest) =>
      match skip_ws rest with
      | EmptyString => Normal v
      | _ => Throw SyntaxError
      end
  | None => Throw SyntaxError
  end.

(** *** [decodeURI] *)

Definition uriReserved : list ascii := list_ascii_of_string ";/?:@&=+$,#".

Fixpoint decode (s : string) : completion string :=
  match s with
  | EmptyString => Normal EmptyString
  | String c r =>
      if Ascii.eqb c "%" then
        match r with
        | String h1 (String h2 r') =>
            match hex_value h1, hex_value h2 with
            | Some a, Some b =>
                let n := 16 * a + b in
                if n <? 128 then
                  d ← decode r';
                  Normal
                    (if existsb (Ascii.eqb (ascii_of_nat n)) uriReserved
                     then String c (String h1 (String h2 d))
                     else String (ascii_of_nat n) d)
                else Throw URIError
            | _, _ => Throw URIError
            end
        | _ => Throw URIError
        end
      else d ← decode r; Normal (String c d)
  end.

(** A sample palette. *)
Definition palette : list string :=
  ["#7EB26D"; "#EAB839"; "#6ED0E0"; "#EF843C"; "#E24D42"; "#1F78C1";
   "#BA43A9"; "#705DA0"].

End Reference.

Definition reference_env : Env :=
  {| decodeURI := Reference.decode;
     JSON_parse := Reference.parse;
     JSON_stringify := Reference.stringify;
     colors := Reference.palette;
     LogsDedupStrategy_none := VStr "none" |}.

(** ** Specification-side notions *)

Section UrlStateSpec.
Context `{Env}.

(** The input is absent, empty, or does not URI-decode to JSON text. *)
Definition not_json (initial : option string) : Prop :=
  match initial with
  | None => True
  | Some t =>
      t = EmptyString \/ exists e, (d ← decodeURI t; JSON_parse d) = Throw e
  end.

(** The input URI-decodes to JSON text that denotes [v]. *)
Definition parses_to (initial : option string) (v : value) : Prop :=
  exists t, initial = Some t /\ t <> EmptyString
            /\ (d ← decodeURI t; JSON_parse d) = Normal v.

End UrlStateSpec.

(** A query segment as the parser recognises it: one of the discriminant
    fields is present. *)
Definition has_metric_field (q : object) : bool :=
  has_field "expr" q || has_field "target" q || has_field "datasource" q.

(** A query that the compact form can carry: it is recognised as a query
    segment and cannot be mistaken for the UI segment. *)
Definition carried_query (q : object) : bool :=
  has_metric_field q && negb (has_field "ui" q)
  && negb (has_field "hasOwnProperty" q).

(** A trailing element that is neither null nor undefined, and that has none
    of the fields [expr], [target], [datasource], [ui] (nor an own
    [hasOwnProperty]). *)
Definition inert_segment (e : value) : bool :=
  match e with
  | VBool _ | VNum _ | VStr _ | VArr _ => true
  | VObj fields =>
      negb (has_metric_field fields) && negb (has_field "ui" fields)
      && negb (has_field "hasOwnProperty" fields)
  | _ => false
  end.

(** A trailing element on which neither segment test nor the reading of the
    UI flags throws: not [null], no own [hasOwnProperty], and no [ui]
    property that is [null]. *)
Definition tame_segment (e : value) : bool :=
  match e with
  | VUndef | VNull => false
  | VObj fields =>
      negb (has_field "hasOwnProperty" fields)
      && match lookup_field "ui" fields with
         | Some VNull | Some VUndef => false
         | _ => true
         end
  | _ => true
  end.

(** ** Ref-ids of a batch *)

Definition refId (q : object) : value := get q "refId".

Definition refIds (queries : list object) : list value := map refId queries.

(** The ref-ids that [ensureQueries] keeps: the truthy ones. *)
Definition kept_refIds (queries : list object) : list value :=
  List.filter truthy (refIds queries).

(** [v] is one of the strings that [getNextRefIdChar] allocates. *)
Definition is_letter (v : value) : bool := existsb (strict_eq_string v) letters.

(** A query that takes up one of the 26 letters: it has no ref-id, so that
    one is allocated for it, or its ref-id is a capital letter. *)
Definition letter_slot (q : object) : bool :=
  negb (truthy (refId q)) || is_letter (refId q).

Definition letter_slots (queries : list object) : nat :=
  length (List.filter letter_slot queries).

(** Some query arrives with a ref-id that is the letter allocated to a
    query before it; [out] is the batch returned for [queries]. *)
Definition repeats_allocated (queries out : list object) : bool :=
  existsb
    (fun j =>
       match queries !! j with
       | Some qj =>
           truthy (refId qj)
           && existsb
                (fun i =>
                   match queries !! i, out !! i with
                   | Some qi, Some oi =>
                       negb (truthy (refId qi))
                       && match refId oi with
                          | VStr l => strict_eq_string (refId qj) l
                          | _ => false
                          end
                   | _, _ => false
                   end)
                (seq 0 j)
       | None => false
       end)
    (seq 0 (length queries)).

(** [out] is an ensured batch for [queries]: as long, and at every position
    the ref-id is the one the query came with when that is non-empty, and
    otherwise what [getNextRefIdChar] gives for the part of [out] before
    it. *)
Definition ensured (queries out : list object) : Prop :=
  length out = length queries
  /\ forall i q, queries !! i = Some q ->
       exists o, out !! i = Some o
         /\ refId o = if truthy (refId q) then refId q
                      else getNextRefIdChar (take i out).

(** ** Non-empty queries *)

(** The number of own properties of a query whose value is truthy. *)
Definition truthy_fields (q : object) : nat :=
  length (List.filter (fun kv => truthy kv.2) q).

(** ** History *)

(** Successive [updateHistory] calls, each on the list the previous one
    returned. *)
Fixpoint updateHistory_many (calls : list (string * list object))
    (history : list value) : Eff (list value) :=
  match calls with
  | [] => eff_ret history
  | (datasourceId, queries) :: calls' =>
      do history' <- updateHistory history datasourceId queries;
      updateHistory_many calls' history'
  end.

(** ** Colour offset *)

(** The transactions that the loop visits before it stops: those before the
    first occurrence of [transaction], all of them when it does not
    occur. *)
Fixpoint strictly_before (transaction : ref) (allTransactions : list ref)
  : list ref :=
  match allTransactions with
  | [] => []
  | other :: rest =>
      if Nat.eqb other transaction then []
      else other :: strictly_before transaction rest
  end.

(** A transaction of result type Graph that is marked done. *)
Definition done_graph (h : heap) (other : ref) : bool :=
  is_Graph (Transaction.resultType (h other)) && Transaction.done (h other).

(** The number of series a transaction contributed, when it has a result. *)
Definition series_count (h : heap) (other : ref) : option nat :=
  length <$> Transaction.result (h other).

(** The offset that the loop adds up: the total series count of the done
    Graph transactions that it visits, when each of them has a result. *)
Definition offset_spec (h : heap) (transaction : ref)
    (allTransactions : list ref) : option nat :=
  sum_list <$>
    mapM (series_count h)
         (List.filter (done_graph h) (strictly_before transaction allTransactions)).

(** The position at which [transaction] first occurs in the list, if it
    occurs. *)
Fixpoint first_occurrence (transaction : ref) (allTransactions : list ref)
  : option nat :=
  match allTransactions with
  | [] => None
  | other :: rest =>
      if Nat.eqb other transaction then Some 0
      else S <$> first_occurrence transaction rest
  end.

(** The list entries strictly before [transaction], as the specification
    words it: those before its first occurrence, and none when it does not
    occur. *)
Definition listed_before (transaction : ref) (allTransactions : list ref)
  : list ref :=
  match first_occurrence transaction allTransactions with
  | Some n => take n allTransactions
  | None => []
  end.

(** The offset in the words of the specification: the total series count of
    the done Graph transactions listed strictly before [transaction] (a
    transaction without a result counting for no series). *)
Definition specified_offset (h : heap) (transaction : ref)
    (allTransactions : list ref) : nat :=
  sum_list
    (map (fun other => length (default [] (Transaction.result (h other))))
         (List.filter (done_graph h) (listed_before transaction allTransactions))).

(** The transactions whose series count: the done Graph transactions listed
    before the first occurrence of [transaction], or all the listed ones
    when [transaction] does not occur in the list. *)
Definition counted_transactions (h : heap) (transaction : ref)
    (allTransactions : list ref) : list ref :=
  List.filter (done_graph h)
    (match first_occurrence transaction allTransactions with
     | Some n => take n allTransactions
     | None => allTransactions
     end).

(** Their total series count, when each of them carries a result. *)
Definition counted_offset (h : heap) (transaction : ref)
    (allTransactions : list ref) : option nat :=
  sum_list <$> mapM (series_count h)
                    (counted_transactions h transaction allTransactions).

(** ** Combined key *)

(** Concatenation of a list of strings. *)
Definition concat_strings (parts : list string) : string :=
  foldr String.append EmptyString parts.

(** The [key] of each query, as [+=] renders it, in batch order. *)
Definition key_strings (queries : list object) : list string :=
  map (fun q => ToString (get q "key")) queries.

(** [ToString] renders [v] as JavaScript does: every number that [v] holds
    is a safe integer, of magnitude [2^53] at most.  Those are numbers of
    JavaScript one by one, and it prints each with all its digits, as
    [number_to_string] does.  Beyond them it prints the shortest digits that
    identify the number, padded with zeros ([2^60] as [1152921504606847000]),
    and from [10^21] on in exponent notation ([1e+21]). *)
Fixpoint prints_plainly (v : value) : bool :=
  match v with
  | VNum n => (Z.abs n <=? 2 ^ 53)%Z
  | VArr items => forallb prints_plainly items
  | _ => true
  end.

Fixpoint has_char (c : ascii) (s : string) : bool :=
  match s with
  | EmptyString => false
  | String c' r => Ascii.eqb c' c || has_char c r
  end.

(** A key of the shape that [generateKey] gives it: a string that starts
    with [Q] and has no other [Q]. *)
Definition generated_key (q : object) : bool :=
  match get q "key" with
  | VStr (String c r) => Ascii.eqb c "Q" && negb (has_char "Q" r)
  | _ => false
  end.

(** ** JSON values that survive the text form *)

(** A value that [JSON.stringify] renders without loss: no [undefined]
    inside, and property names that are pairwise distinct. *)
Fixpoint json_clean (v : value) : bool :=
  match v with
  | VUndef => false
  | VNull | VBool _ | VNum _ | VStr _ => true
  | VArr items => forallb json_clean items
  | VObj fields =>
      bool_decide (NoDup (map fst fields))
      && forallb (fun kv => json_clean kv.2) fields
  end.

(** The text has no percent sign, so that [decodeURI] leaves it alone. *)
Fixpoint percent_free (s : string) : bool :=
  match s with
  | EmptyString => true
  | String c r => negb (Ascii.eqb c "%") && percent_free r
  end.

(** What may follow a value in a JSON text: the end of the text, or one of
    the characters that close or separate. *)
Definition closes (rest : string) : Prop :=
  match rest with
  | EmptyString => True
  | String c _ => c = ","%char \/ c = "]"%char \/ c = "}"%char
  end.

(** The fuel that [Reference.parse_value] needs for the text of a value. *)
Fixpoint weight (v : value) : nat :=
  match v with
  | VArr items =>
      S ((fix sum (l : list value) : nat :=
            match l with
            | [] => 0
            | x :: l' => S (weight x) + sum l'
            end) items)
  | VObj fields =>
      S ((fix sum (l : list (string * value)) : nat :=
            match l with
            | [] => 0
            | (_, x) :: l' => S (weight x) + sum l'
            end) fields)
  | _ => 1
  end.

(** [Reference.parse_value] reads [x] back from the text of [x], given
    enough fuel and a text that goes on with a closing character. *)
Definition parses (x : value) : Prop :=
  forall fuel rest, weight x <= fuel -> closes rest ->
    Reference.parse_value fuel (Reference.stringify x +:+ rest) = Some (x, rest).

(** What the first character of the text of a value is not. *)
Definition value_head (c : ascii) : Prop :=
  Reference.is_ws c = false /\ Ascii.eqb c "]" = false /\ Ascii.eqb c "}" = false.

(** The texts of the members of an object without [undefined] values. *)
Definition member_strings (fields : list (string * value)) : list string :=
  map (fun kv => Reference.quote kv.1 +:+ ":" +:+ Reference.stringify kv.2) fields.

(** ** Sample inputs *)

Definition sample_world : World :=
  {| clock := fun n => (1560000000000 + Z.of_nat n)%Z;
     clock_reads := 0;
     random := fun n => "0." +:+ nat_to_string (n + 1);
     random_draws := 0;
     store := ∅ |}.

(** A state with one Prometheus query, and the same state with a query that
    has no field besides its identifiers (what [generateEmptyQuery] makes). *)
Definition sample_state : ExploreUrlState :=
  {| datasource := Some "Prometheus";
     queries := [[("refId", VStr "A"); ("key", VStr "Q-1560000000000-0.5-0");
                  ("expr", VStr "up")]];
     range := {| from := "now-1h"; to := "now" |};
     ui := {| showingGraph := true; showingLogs := false; showingTable := true;
              dedupStrategy := VStr "none" |} |}.

Definition empty_query_state : ExploreUrlState :=
  {| datasource := Some "Prometheus";
     queries := [[("refId", VStr "A"); ("key", VStr "Q-1560000000000-0.5-0")]];
     range := {| from := "now-1h"; to := "now" |};
     ui := {| showingGraph := true; showingLogs := true; showingTable := true;
              dedupStrategy := VStr "none" |} |}.

(** A state whose query text has a percent sign (the modulo operator). *)
Definition percent_state : ExploreUrlState :=
  {| datasource := Some "Prometheus";
     queries := [[("refId", VStr "A"); ("key", VStr "Q-1560000000000-0.5-0");
                  ("expr", VStr "up % 2")]];
     range := {| from := "now-1h"; to := "now" |};
     ui := {| showingGraph := true; showingLogs := true; showingTable := true;
              dedupStrategy := VStr "none" |} |}.

(** A keyed query with one datasource field. *)
Definition q_up : object :=
  [("refId", VStr "A"); ("key", VStr "Q-1560000000000-0.5-0"); ("expr", VStr "up")].

(** A heap in which every transaction is a done Graph transaction; the one at
    reference 0 has two series, the one at reference 1 three, the others no
    result yet. *)
Definition sample_heap : heap := fun r =>
  {| Transaction.queries := [];
     Transaction.options :=
       {| Options.interval := "1s"; Options.intervalMs := 1000%Z;
          Options.panelId := "time_series-"; Options.targets := [];
          Options.range := {| from_instant := VNull; to_instant := VNull;
                              raw := {| from := "now-6h"; to := "now" |} |};
          Options.rangeRaw := {| from := "now-6h"; to := "now" |};
          Options.scopedVars := VObj []; Options.maxDataPoints := VUndef |};
     Transaction.resultType := Graph;
     Transaction.scanning := false;
     Transaction.id := "Q-" +:+ nat_to_string r;
     Transaction.done := true;
     Transaction.latency := 0%Z;
     Transaction.result :=
       match r with
       | 0 => Some [VObj []; VObj []]
       | 1 => Some [VObj []; VObj []; VObj []]
       | _ => None
       end |}.

(** Shared options, a range and intervals for a Graph request, and two keyed
    queries. *)
Definition sample_options : object :=
  [("interval", VStr "1s"); ("format", VStr "time_series");
   ("maxDataPoints", VNum 500)].

Definition sample_range : TimeRange :=
  {| from_instant := VNum 1559978400000; to_instant := VNum 1560000000000;
     raw := {| from := "now-6h"; to := "now" |} |}.

Definition sample_intervals : QueryIntervals :=
  {| interval := "15s"; intervalMs := 15000%Z |}.

Definition q_first : object :=
  [("refId", VStr "A"); ("key", VStr "Q-1-0.1-0"); ("expr", VStr "up");
   ("format", VStr "table")].

Definition q_second : object :=
  [("refId", VStr "B"); ("key", VStr "Q-1-0.2-1"); ("expr", VStr "node_load1")].

(** ** Further functions of the module *)

(** *** Keys of the query rows *)

(** Modelled from the spec: of a datasource (the [DataSourceApi] of the UI
    library, not among the sources) the fields the module reads, as the
    specification lists them for the datasource resolver: a name, the
    plugin's [meta] object with its [id] and [explore] entries, and
    optionally a custom [getExploreState(targets)]. *)
Module DataSource.
Record t : Type := {
  name : string;
  meta : object;
  getExploreState : option (option (list object) -> object);
}.
End DataSource.

(** [datasourceInstance && datasourceInstance.name ? datasourceInstance.name
    : query.key] *)
Definition primaryKey (datasourceInstance : option DataSource.t) (query : object)
  : value :=
  match datasourceInstance with
  | Some d =>
      if truthy (VStr (DataSource.name d)) then VStr (DataSource.name d)
      else get query "key"
  | None => get query "key"
  end.

(** The [reduce] of [getQueryKeys]: [rest] are the queries from position
    [index] on, [newQueryKeys] the accumulator. *)
Fixpoint getQueryKeys_reduce (datasourceInstance : option DataSource.t)
    (index : nat) (rest : list object) (newQueryKeys : list string)
  : list string :=
  match rest with
  | [] => newQueryKeys
  | query :: rest' =>
      getQueryKeys_reduce datasourceInstance (S index) rest'
        (newQueryKeys
         ++ [ToString (primaryKey datasourceInstance query)
             +:+ "-" +:+ nat_to_string index])
  end.

Definition getQueryKeys (queries : list object)
    (datasourceInstance : option DataSource.t) : list string :=
  getQueryKeys_reduce datasourceInstance 0 queries [].

(** *** [safeStringifyValue] *)

Section Stringify.
Context `{Env}.

(** [JSON.stringify(value, null, space)] for a [space] that indents: a
    number of at least 1, capped at 10 by the built-in. *)
Variable JSON_stringify_indented : value -> nat -> string.

(** [space] is absent or a number.  [JSON.stringify] throws on a cyclic
    structure only, which no [value] is, so the [catch] does not show. *)
Definition safeStringifyValue (v : value) (space : option Z) : string :=
  if negb (truthy v) then EmptyString
  else
    match space with
    | Some n =>
        if (1 <=? n)%Z then JSON_stringify_indented v (Z.to_nat (Z.min n 10))
        else JSON_stringify v
    | None => JSON_stringify v
    end.

End Stringify.

(** *** [getExploreUrl] *)

Section ExploreUrl.
Context `{Env}.

(** [renderUrl] of [app/core/utils/url]. *)
Variable renderUrl : string -> object -> string.

(** [datasourceSrv.get]: the awaited promise resolves to a datasource or to
    [undefined], or it rejects. *)
Variable datasourceSrv_get : value -> completion (option DataSource.t).

(** The [for ... of] loop over [panel.targets] with its [await] and its
    [break]: the first target whose datasource resolves to one that supports
    Explore. *)
Fixpoint mixedExploreDatasource (targets : list object)
  : completion (option DataSource.t) :=
  match targets with
  | [] => Normal None
  | t :: rest =>
      datasource ← datasourceSrv_get (get t "datasource");
      match datasource with
      | Some d =>
          if truthy (get (DataSource.meta d) "explore") then Normal (Some d)
          else mixedExploreDatasource rest
      | None => mixedExploreDatasource rest
      end
  end.

(** [{ ...t, datasource: panelDatasource.name }] *)
Definition retarget (panelDatasource : DataSource.t) (t : object) : object :=
  set_field "datasource" (VStr (DataSource.name panelDatasource)) (spread t []).

(** The promise that the [async] function returns resolves ([Normal]) or
    rejects ([Throw]).  [panel_targets] is [panel.targets]; it, the
    [panelTargets] and the [panelDatasource] are [undefined] or present;
    [timeRangeForUrl] is what [timeSrv.timeRangeForUrl()] returns.  Reading
    [panelDatasource.meta] comes first, so that the later test of
    [panelDatasource] always holds. *)
Definition getExploreUrl (panel_targets panelTargets : option (list object))
    (panelDatasource : option DataSource.t) (timeRangeForUrl : value)
  : completion value :=
  match panelDatasource with
  | None => Throw TypeError
  | Some panelDatasource =>
      '(exploreDatasource, exploreTargets) ←
        match panelTargets with
        | Some targets =>
            if strict_eq_string (get (DataSource.meta panelDatasource) "id") "mixed"
            then
              match panel_targets with
              | None => Throw TypeError
              | Some all =>
                  mixed ← mixedExploreDatasource all;
                  match mixed with
                  | Some d =>
                      Normal
                        (d,
                         Some (List.filter
                                 (fun t => strict_eq_string (get t "datasource")
                                                            (DataSource.name d))
                                 targets))
                  | None => Normal (panelDatasource, panelTargets)
                  end
              end
            else Normal (panelDatasource, panelTargets)
        | None => Normal (panelDatasource, panelTargets)
        end;
      let range := timeRangeForUrl in
      let state : object := [("range", range)] in
      state ←
        match DataSource.getExploreState exploreDatasource with
        | Some getExploreState =>
            Normal (spread (getExploreState exploreTargets) (spread state []))
        | None =>
            match exploreTargets with
            | Some targets =>
                Normal
                  (set_field "queries"
                     (VArr (map (fun t => VObj (retarget panelDatasource t)) targets))
                     (set_field "datasource"
                        (VStr (DataSource.name panelDatasource))
                        (spread state [])))
            | None => Throw TypeError
            end
        end;
      let exploreState := JSON_stringify (VObj state) in
      Normal (VStr (renderUrl "/explore" [("left", VStr exploreState)]))
  end.

End ExploreUrl.

(** *** Time ranges from the URL *)

(** Modelled from the spec: a [Moment] (of the library [moment], not among
    the sources) is the record of the arguments handed to [moment.utc]:
    an input with a format, or an epoch in milliseconds ([None] for [NaN]). *)
Inductive Moment : Type :=
| moment_utc_format (input : value) (format : string)
| moment_utc_epoch (epoch : option Z).

(** What [parseRawTime] returns: [null], its argument as it came, or a
    moment. *)
Inductive RawTime : Type :=
| RawNull
| RawAsIs (v : value)
| RawMoment (m : Moment).

(** The global functions and the date-math parser that the time functions
    call. *)
Class TimeEnv : Type := {
  (** [isNaN(s)] for a string [s]. *)
  isNaN : string -> bool;
  (** [parseInt(s, 10)] for a string [s]; [None] is [NaN]. *)
  parseInt : string -> option Z;
  (** [dateMath.parse(raw, roundUp, timezone)] of
      [app/core/utils/datemath]. *)
  dateMath_parse : RawTime -> bool -> value -> value;
}.

Section RawTimes.
Context `{TimeEnv}.

(** [value.indexOf('now') !== -1] and [value.length] exist on strings and
    on arrays: [indexOf] searches a string for the text and an array for an
    element identical to it.  On [undefined] the property read throws, on a
    boolean, a number or a plain object there is no function to call.
    [isNaN] and [parseInt] convert an array to its string first. *)
Definition parseRawTime (v : value) : completion RawTime :=
  match v with
  | VNull => Normal RawNull
  | VStr _ | VArr _ =>
      let has_now :=
        match v with
        | VStr s => match String.index 0 "now" s with
                    | Some _ => true
                    | None => false
                    end
        | VArr items => existsb (fun x => strict_eq_string x "now") items
        | _ => false
        end in
      let len :=
        match v with
        | VStr s => String.length s
        | VArr items => length items
        | _ => 0
        end in
      if has_now then Normal (RawAsIs v)
      else if len =? 8 then Normal (RawMoment (moment_utc_format v "YYYYMMDD"))
      else if len =? 15
           then Normal (RawMoment (moment_utc_format v "YYYYMMDDTHHmmss"))
      else if len =? 19
           then Normal (RawMoment (moment_utc_format v "YYYY-MM-DD HH:mm:ss"))
      else if negb (isNaN (ToString v))
           then let epoch := parseInt (ToString v) in
                Normal (RawMoment (moment_utc_epoch epoch))
      else Normal RawNull
  | _ => Throw TypeError
  end.

(** Modelled from the spec: the [TimeRange] that the function returns
    (declared by the UI library, not among the sources): the two instants
    as the date-math parser resolves them and, as its [raw] part, what
    [parseRawTime] returned. *)
Record UrlTimeRange : Type := {
  range_from : value;
  range_to : value;
  range_raw : RawTime * RawTime;
}.

(** [range] and [timeZone] are what the caller has at hand: any values. *)
Definition getTimeRangeFromUrl (range timeZone : value)
  : completion UrlTimeRange :=
  f ← get_prop range "from"; raw_from ← parseRawTime f;
  t ← get_prop range "to"; raw_to ← parseRawTime t;
  tz ← get_prop timeZone "raw";
  Normal {| range_from := dateMath_parse raw_from false tz;
            range_to := dateMath_parse raw_to true tz;
            range_raw := (raw_from, raw_to) |}.

End RawTimes.

(** *** Reference global functions

    [isNaN] and [parseInt] on ASCII strings, after the grammar of numeric
    string literals: white space around, an optional sign, [Infinity] or
    decimal digits with an optional fraction and exponent, or an unsigned
    literal in radix 16, 8 or 2. *)
Module ReferenceTime.

Definition is_space (c : ascii) : bool :=
  let n := nat_of_ascii c in
  (9 <=? n) && (n <=? 13) || (n =? 32).

Fixpoint trim_start (s : string) : string :=
  match s with
  | String c r => if is_space c then trim_start r else s
  | EmptyString => s
  end.

Fixpoint all_space (s : string) : bool :=
  match s with
  | String c r => is_space c && all_space r
  | EmptyString => true
  end.

Definition is_sign (c : ascii) : bool := Ascii.eqb c "+" || Ascii.eqb c "-".

Definition strip_sign (s : string) : string :=
  match s with
  | String c r => if is_sign c then r else s
  | EmptyString => s
  end.

Fixpoint span (p : ascii -> bool) (s : string) : string * string :=
  match s with
  | String c r =>
      if p c then let (d, rest) := span p r in (String c d, rest)
      else (EmptyString, s)
  | EmptyString => (EmptyString, EmptyString)
  end.

Definition nonempty (s : string) : bool := negb (String.eqb s EmptyString).

(** What follows an optional exponent part; [None] when an exponent
    indicator comes without digits. *)
Definition after_exponent (s : string) : option string :=
  match s with
  | String c r =>
      if Ascii.eqb c "e" || Ascii.eqb c "E" then
        let (d, rest) := Reference.span_digits (strip_sign r) in
        if nonempty d then Some rest else None
      else Some s
  | EmptyString => Some s
  end.

(** A decimal literal, its sign taken off, up to trailing white space. *)
Definition decimal_literal (s : string) : bool :=
  match Reference.strip_prefix "Infinity" s with
  | Some rest => all_space rest
  | None =>
      let (int, r1) := Reference.span_digits s in
      let (frac, r2) :=
        match r1 with
        | String c r =>
            if Ascii.eqb c "." then Reference.span_digits r
            else (EmptyString, r1)
        | EmptyString => (EmptyString, r1)
        end in
      if nonempty int || nonempty frac then
        match after_exponent r2 with
        | Some rest => all_space rest
        | None => false
        end
      else false
  end.

Definition is_octal (c : ascii) : bool :=
  (48 <=? nat_of_ascii c) && (nat_of_ascii c <=? 55).

Definition is_binary (c : ascii) : bool :=
  Ascii.eqb c "0" || Ascii.eqb c "1".

Definition is_hex (c : ascii) : bool :=
  match Reference.hex_value c with
  | Some _ => true
  | None => false
  end.

(** An unsigned literal in radix 16, 8 or 2, up to trailing white space. *)
Definition radix_literal (s : string) : bool :=
  match s with
  | String z (String x r) =>
      if Ascii.eqb z "0" then
        let digit :=
          if Ascii.eqb x "x" || Ascii.eqb x "X" then Some is_hex
          else if Ascii.eqb x "o" || Ascii.eqb x "O" then Some is_octal
          else if Ascii.eqb x "b" || Ascii.eqb x "B" then Some is_binary
          else None in
        match digit with
        | Some p => let (d, rest) := span p r in nonempty d && all_space rest
        | None => false
        end
      else false
  | _ => false
  end.

(** The empty string and a string of white space convert to [0]. *)
Definition is_nan (s : string) : bool :=
  match trim_start s with
  | EmptyString => false
  | t => negb (radix_literal t || decimal_literal (strip_sign t))
  end.

(** The integer that the longest prefix of decimal digits denotes, after
    white space and an optional sign. *)
Definition parse_int (s : string) : option Z :=
  let t := trim_start s in
  let negative := match t with
                  | String c _ => Ascii.eqb c "-"
                  | EmptyString => false
                  end in
  let (d, _) := Reference.span_digits (strip_sign t) in
  if nonempty d then
    u ← NilZero.uint_of_string d;
    Some (if negative then (- Z.of_uint u)%Z else Z.of_uint u)
  else None.

End ReferenceTime.

(** The date-math parser stands outside the embedding: this stand-in
    resolves nothing and answers [undefined], which is what the parser
    answers on a text that it cannot read. *)
Definition reference_time : TimeEnv :=
  {| isNaN := ReferenceTime.is_nan;
     parseInt := ReferenceTime.parse_int;
     dateMath_parse := fun _ _ _ => VUndef |}.

(** A value on which [parseRawTime] has nothing to call. *)
Definition not_a_time (v : value) : bool :=
  match v with
  | VUndef | VBool _ | VNum _ | VObj _ => true
  | _ => false
  end.

(** ** The index suffix of a key *)

Fixpoint has_dash (s : string) : bool :=
  match s with
  | EmptyString => false
  | String c r => Ascii.eqb c "-" || has_dash r
  end.

(** The part of [s] after its last dash; [s] itself when it has none. *)
Fixpoint after_last_dash (s : string) : string :=
  match s with
  | EmptyString => EmptyString
  | String c r =>
      if has_dash r then after_last_dash r
      else if Ascii.eqb c "-" then r else s
  end.

(** The index suffix of the [key] of a query. *)
Definition key_suffix (q : object) : string :=
  after_last_dash (ToString (get q "key")).

(** A query has a field with a non-empty value besides [key] and [refId]. *)
Definition has_content (q : object) : bool :=
  0 <? truthy_fields (clearQueryKeys q).

(** ** Compact arrays as the parser reads them *)

(** What the segment tests answer on a segment that is not [null]: only an
    object can have one of the discriminant fields. *)
Definition metric_segment (e : value) : bool :=
  match e with
  | VObj fields => has_metric_field fields
  | _ => false
  end.

Definition ui_segment (e : value) : bool :=
  match e with
  | VObj fields => has_field "ui" fields
  | _ => false
  end.

(** [v[i]], [undefined] where the read throws. *)
Definition index_or_undefined (v : value) (i : nat) : value :=
  match get_index v i with
  | Normal x => x
  | Throw _ => VUndef
  end.

(** The UI state read positionally from the [ui] property of a segment. *)
Definition ui_of_segment (uiState : value) : value :=
  let flags := match uiState with
               | VObj fields => get fields "ui"
               | _ => VUndef
               end in
  VObj [("showingGraph", index_or_undefined flags ParseUiStateIndex.Graph);
        ("showingLogs", index_or_undefined flags ParseUiStateIndex.Logs);
        ("showingTable", index_or_undefined flags ParseUiStateIndex.Table);
        ("dedupStrategy", index_or_undefined flags ParseUiStateIndex.Strategy)].

(** The UI state of a compact array: that of its first UI segment, the
    default when it has none. *)
Definition ui_of_first_segment `{Env} (parsedSegments : list value) : value :=
  match List.filter ui_segment parsedSegments with
  | uiState :: _ => ui_of_segment uiState
  | [] => DEFAULT_UI_STATE
  end.

(** A query that cannot be mistaken for the UI segment and on which the
    segment tests do not throw. *)
Definition plain_query (q : object) : bool :=
  negb (has_field "ui" q) && negb (has_field "hasOwnProperty" q).

(** ** Resolving the datasources of a mixed panel *)

(** The resolution of a target's datasource does not make the loop stop:
    it resolved to [undefined], or to a datasource that does not support
    Explore. *)
Definition no_explore (resolved : completion (option DataSource.t)) : bool :=
  match resolved with
  | Normal None => true
  | Normal (Some d) => negb (truthy (get (DataSource.meta d) "explore"))
  | Throw _ => false
  end.

(** ** Further sample inputs *)

(** A state with a Prometheus query and a query that has no field besides
    its identifiers. *)
Definition two_query_state : ExploreUrlState :=
  {| datasource := Some "Prometheus";
     queries := [q_up; [("refId", VStr "B"); ("key", VStr "Q-1560000000000-0.7-1")]];
     range := {| from := "now-1h"; to := "now" |};
     ui := {| showingGraph := true; showingLogs := false; showingTable := true;
              dedupStrategy := VStr "none" |} |}.

(** [sample_heap] with the transaction at reference 1 still running. *)
Definition running_heap : heap := fun r =>
  let t := sample_heap r in
  {| Transaction.queries := Transaction.queries t;
     Transaction.options := Transaction.options t;
     Transaction.resultType := Transaction.resultType t;
     Transaction.scanning := Transaction.scanning t;
     Transaction.id := Transaction.id t;
     Transaction.done := negb (Nat.eqb r 1);
     Transaction.latency := Transaction.latency t;
     Transaction.result := Transaction.result t |}.

(** Three datasources, a resolver that knows them and rejects the name
    [broken], a mixed panel datasource, and a renderer that appends the
    query without escaping it. *)
Definition loki : DataSource.t :=
  {| DataSource.name := "Loki";
     DataSource.meta := [("id", VStr "loki"); ("explore", VBool true)];
     DataSource.getExploreState := None |}.

Definition graphite : DataSource.t :=
  {| DataSource.name := "Graphite";
     DataSource.meta := [("id", VStr "graphite"); ("explore", VBool false)];
     DataSource.getExploreState := None |}.

Definition mixed : DataSource.t :=
  {| DataSource.name := "-- Mixed --";
     DataSource.meta := [("id", VStr "mixed")];
     DataSource.getExploreState := None |}.

Definition sample_resolver (name : value) : completion (option DataSource.t) :=
  if strict_eq_string name "Loki" then Normal (Some loki)
  else if strict_eq_string name "Graphite" then Normal (Some graphite)
  else if strict_eq_string name "broken" then Throw TypeError
  else Normal None.

Definition sample_renderUrl (path : string) (query : object) : string :=
  path +:+ "?left=" +:+ ToString (get query "left").

Definition mixed_targets : list object :=
  [[("datasource", VStr "Graphite"); ("target", VStr "a.b")];
   [("datasource", VStr "Loki"); ("expr", VStr "up")];
   [("datasource", VStr "broken")];
   [("datasource", VStr "Loki"); ("expr", VStr "rate(x)")]].

Definition sample_range_value : value :=
  VObj [("from", VStr "now-6h"); ("to", VStr "now")].

(** * Properties *)

(** ** Own properties of plain objects *)

Lemma get_cons_eq k v (o : object) : get ((k, v) :: o) k = v.
Proof. unfold get. simpl. by rewrite String.eqb_refl. Qed.

Lemma get_cons_ne k k' v (o : object) : k <> k' -> get ((k, v) :: o) k' = get o k'.
Proof. intros Hne. unfold get. simpl. by destruct (String.eqb_spec k k'). Qed.

Lemma get_absent k (o : object) : k ∉ Object_keys o -> get o k = VUndef.
Proof.
  induction o as [|[k' v] o IH]; [done|]. simpl. intros Hn.
  apply not_elem_of_cons in Hn as [Hne Hn].
  rewrite get_cons_ne by done. by apply IH.
Qed.

Lemma get_set_field_eq k v o : get (set_field k v o) k = v.
Proof.
  unfold get. induction o as [|[k' v'] o IH]; simpl.
  - by rewrite String.eqb_refl.
  - destruct (String.eqb_spec k' k) as [->|Hne]; simpl.
    + by rewrite String.eqb_refl.
    + destruct (String.eqb_spec k' k); [done|]. apply IH.
Qed.

Lemma get_set_field_ne k k' v o : k <> k' -> get (set_field k v o) k' = get o k'.
Proof.
  intros Hne. unfold get. induction o as [|[k0 v0] o IH]; simpl.
  - destruct (String.eqb_spec k k'); done.
  - destruct (String.eqb_spec k0 k) as [->|Hk]; simpl.
    + destruct (String.eqb_spec k k'); done.
    + destruct (String.eqb_spec k0 k'); [done|]. apply IH.
Qed.

Lemma has_field_cons k k0 v (o : object) :
  has_field k ((k0, v) :: o) = if String.eqb k0 k then true else has_field k o.
Proof. unfold has_field. simpl. by destruct (String.eqb k0 k). Qed.

Lemma has_field_absent k (o : object) : k ∉ Object_keys o -> has_field k o = false.
Proof.
  induction o as [|[k' v] o IH]; [done|]. simpl. intros Hn.
  apply not_elem_of_cons in Hn as [Hne Hn]. rewrite has_field_cons.
  destruct (String.eqb_spec k' k); [congruence|by apply IH].
Qed.

(** Reading a property of [{ ...acc, ...src }]: [src] wins. *)
Lemma get_spread (src : object) : forall acc k,
  NoDup (Object_keys src) ->
  get (spread src acc) k = if has_field k src then get src k else get acc k.
Proof.
  unfold spread.
  induction src as [|[k0 v0] src IH]; intros acc k Hnd; [done|].
  simpl in Hnd. apply NoDup_cons in Hnd as [Hk0 Hnd]. simpl.
  rewrite IH by done. rewrite has_field_cons.
  destruct (String.eqb_spec k0 k) as [->|Hne].
  - rewrite has_field_absent by done. by rewrite get_set_field_eq, get_cons_eq.
  - by rewrite get_set_field_ne, get_cons_ne by done.
Qed.

(** ** Strings *)

Lemma string_app_assoc (a b c : string) : (a +:+ b) +:+ c = a +:+ (b +:+ c).
Proof.
  induction a as [|x a IH]; [done|].
  change (String x ((a +:+ b) +:+ c) = String x (a +:+ (b +:+ c))).
  by rewrite IH.
Qed.

Lemma string_app_empty_r (a : string) : a +:+ EmptyString = a.
Proof.
  induction a as [|x a IH]; [done|].
  change (String x (a +:+ EmptyString) = String x a). by rewrite IH.
Qed.

(** The decimal rendering of an array index starts with a digit. *)
Lemma nat_to_string_head i :
  exists c r, nat_to_string i = String c r /\ Reference.is_digit c = true.
Proof.
  unfold nat_to_string, number_to_string.
  destruct (Z.of_nat i) as [|p|p] eqn:E; [| |lia].
  - by exists "0"%char, EmptyString.
  - simpl. unfold NilZero.string_of_uint.
    destruct (Pos.to_uint p) eqn:Ep; simpl; eauto.
Qed.

Lemma is_index_below_alpha n k c r :
  k = String c r -> Reference.is_digit c = false -> is_index_below n k = false.
Proof.
  intros -> Hc. unfold is_index_below.
  induction (seq 0 n) as [|i l IH]; [done|]. simpl. rewrite IH, orb_false_r.
  destruct (nat_to_string_head i) as (c' & r' & -> & Hd). simpl.
  destruct (Ascii.eqb_spec c' c) as [->|]; [congruence|done].
Qed.

Lemma is_index_below_names n :
  is_index_below n "expr" = false /\ is_index_below n "target" = false
  /\ is_index_below n "datasource" = false /\ is_index_below n "ui" = false.
Proof.
  repeat split.
  - by apply (is_index_below_alpha n _ "e" "xpr").
  - by apply (is_index_below_alpha n _ "t" "arget").
  - by apply (is_index_below_alpha n _ "d" "atasource").
  - by apply (is_index_below_alpha n _ "u" "i").
Qed.

(** ** Filtering with a predicate that may throw *)

Lemma filter_c_app {A} (p : A -> completion bool) xs ys :
  filter_c p (xs ++ ys)
  = (a ← filter_c p xs; b ← filter_c p ys; Normal (a ++ b)).
Proof.
  induction xs as [|x xs IH]; simpl.
  - by destruct (filter_c p ys).
  - destruct (p x) as [b|e]; simpl; [|done]. rewrite IH.
    destruct (filter_c p xs) as [a|e]; simpl; [|done].
    destruct (filter_c p ys) as [c|e]; simpl; [|done]. by destruct b.
Qed.

Lemma filter_c_all {A} (p : A -> completion bool) xs :
  Forall (fun x => p x = Normal true) xs -> filter_c p xs = Normal xs.
Proof. induction 1 as [|x xs Hx _ IH]; simpl; [done|]. by rewrite Hx, IH. Qed.

Lemma filter_c_none {A} (p : A -> completion bool) xs :
  Forall (fun x => p x = Normal false) xs -> filter_c p xs = Normal [].
Proof. induction 1 as [|x xs Hx _ IH]; simpl; [done|]. by rewrite Hx, IH. Qed.

Lemma filter_c_skip {A} (p : A -> completion bool) pre e post :
  p e = Normal false -> filter_c p (pre ++ e :: post) = filter_c p (pre ++ post).
Proof.
  intros He. induction pre as [|a pre IH]; simpl.
  - rewrite He. simpl. by destruct (filter_c p post).
  - by rewrite IH.
Qed.

(** ** The reference built-ins read back what they write *)

Module ReferenceFacts.
Import Reference.

Lemma app_String c (a b : string) : String c a +:+ b = String c (a +:+ b).
Proof. reflexivity. Qed.

Lemma app_Empty (b : string) : EmptyString +:+ b = b.
Proof. reflexivity. Qed.

(** *** Number literals *)

Lemma closes_not_digit rest :
  closes rest -> forall c r, rest = String c r -> is_digit c = false.
Proof. intros Hc c r ->. simpl in Hc. by destruct Hc as [->|[->| ->]]. Qed.

Lemma span_digits_uint d rest :
  closes rest ->
  span_digits (NilEmpty.string_of_uint d +:+ rest)
  = (NilEmpty.string_of_uint d, rest).
Proof.
  intros Hrest. induction d; simpl NilEmpty.string_of_uint;
    rewrite ?app_String; simpl; rewrite ?IHd; try reflexivity.
  rewrite app_Empty. destruct rest as [|c r]; [done|]. simpl.
  by rewrite (closes_not_digit _ Hrest c r eq_refl).
Qed.

(** The decimal rendering of a positive number has no leading zero. *)
Lemma to_uint_no_leading_zero p d : Pos.to_uint p <> Decimal.D0 d.
Proof.
  intros Hp.
  pose proof (DecimalPos.Unsigned.to_of (Pos.to_uint p)) as Hn.
  rewrite DecimalPos.Unsigned.of_to in Hn. simpl in Hn.
  rewrite Hp in Hn at 1. unfold Decimal.unorm in Hn.
  destruct (Decimal.nzhead (Pos.to_uint p)) eqn:E;
    try discriminate.
  - injection Hn as ->. by apply (DecimalPos.Unsigned.to_uint_nonzero p).
  - by apply DecimalFacts.nzhead_nonzero in E.
Qed.

Lemma parse_unsigned_pos p rest :
  closes rest ->
  parse_unsigned (NilZero.string_of_uint (Pos.to_uint p) +:+ rest)
  = Some (Zpos p, rest).
Proof.
  intros Hrest. unfold parse_unsigned.
  pose proof (DecimalPos.Unsigned.to_uint_nonnil p) as Hnil.
  pose proof (to_uint_no_leading_zero p) as Hz.
  assert (NilZero.string_of_uint (Pos.to_uint p)
          = NilEmpty.string_of_uint (Pos.to_uint p)) as Heq
    by (by destruct (Pos.to_uint p)).
  rewrite Heq, span_digits_uint by done. rewrite <- Heq.
  rewrite NilZero.usu by done. simpl.
  unfold Z.of_uint. rewrite DecimalPos.Unsigned.of_to. simpl.
  rewrite Heq. destruct (Pos.to_uint p) as [|d|d|d|d|d|d|d|d|d|d] eqn:E;
    try done; try (by destruct d).
  by destruct (Hz d).
Qed.

Lemma parse_number_to_string n rest :
  closes rest ->
  parse_number (number_to_string n +:+ rest) = Some (n, rest).
Proof.
  intros Hrest. unfold number_to_string.
  destruct n as [|p|p]; simpl Z.to_int.
  - simpl. rewrite app_String, app_Empty. unfold parse_number, parse_unsigned. simpl.
    destruct rest as [|c r]; [done|]. simpl.
    by rewrite (closes_not_digit _ Hrest c r eq_refl).
  - simpl NilZero.string_of_int.
    rewrite <- (parse_unsigned_pos p rest Hrest).
    pose proof (DecimalPos.Unsigned.to_uint_nonnil p).
    unfold NilZero.string_of_uint, parse_number.
    destruct (Pos.to_uint p); done.
  - simpl NilZero.string_of_int. rewrite app_String. unfold parse_number.
    simpl. by rewrite parse_unsigned_pos.
Qed.

(** *** String literals *)

(** One escaped character is read back as that character, by cases over the
    256 characters. *)
Lemma parse_string_body_char c tail :
  parse_string_body (escape_char c +:+ tail)
  = '(str, rest) ← parse_string_body tail; Some (String c str, rest).
Proof.
  destruct c as [[] [] [] [] [] [] [] []]; reflexivity.
Qed.

Lemma parse_string_body_escape s rest :
  parse_string_body (escape s +:+ String dquote rest) = Some (s, rest).
Proof.
  induction s as [|c s IH]; [done|].
  simpl escape. rewrite string_app_assoc, parse_string_body_char, IH. done.
Qed.

(** *** Values *)

(** Induction over values, with the hypothesis for every element of an array
    and every property value of an object. *)
Lemma value_ind' (P : value -> Prop) :
  P VUndef -> P VNull -> (forall b, P (VBool b)) -> (forall n, P (VNum n)) ->
  (forall s, P (VStr s)) ->
  (forall items, Forall P items -> P (VArr items)) ->
  (forall fields, Forall (fun kv => P kv.2) fields -> P (VObj fields)) ->
  forall v, P v.
Proof.
  intros Hu Hn Hb Hz Hs Ha Ho.
  fix IH 1. intros [| |b|n|s|items|fields].
  - exact Hu.
  - exact Hn.
  - apply Hb.
  - apply Hz.
  - apply Hs.
  - apply Ha. induction items as [|x items IHi]; constructor.
    + apply IH.
    + exact IHi.
  - apply Ho. induction fields as [|[k x] fields IHf]; constructor.
    + apply IH.
    + exact IHf.
Qed.

Lemma join_single sep p : join sep [p] = p.
Proof. done. Qed.

Lemma join_cons sep p q ps :
  join sep (p :: q :: ps) = p +:+ sep +:+ join sep (q :: ps).
Proof.
  unfold join. simpl. revert p q.
  induction ps as [|r ps IH]; intros p q; simpl; [done|].
  rewrite IH, (IH q r). by rewrite !string_app_assoc.
Qed.

Lemma skip_ws_head c t : is_ws c = false -> skip_ws (String c t) = String c t.
Proof. intros Hc. simpl. by rewrite Hc. Qed.

(** The first character of the text of a number. *)
Lemma number_to_string_head n :
  exists c t, number_to_string n = String c t
    /\ (is_digit c = true \/ c = "-"%char).
Proof.
  unfold number_to_string. destruct n as [|p|p]; simpl.
  - exists "0"%char, EmptyString. by split; [|left].
  - pose proof (DecimalPos.Unsigned.to_uint_nonnil p).
    unfold NilZero.string_of_uint.
    destruct (Pos.to_uint p); try done; simpl; eexists _, _; (split; [done|by left]).
  - eexists _, _. split; [done|by right].
Qed.

Lemma digit_or_minus_head c :
  is_digit c = true \/ c = "-"%char ->
  value_head c
  /\ Ascii.eqb c "n" = false /\ Ascii.eqb c "t" = false
  /\ Ascii.eqb c "f" = false /\ Ascii.eqb c dquote = false
  /\ Ascii.eqb c "[" = false /\ Ascii.eqb c "{" = false.
Proof.
  unfold value_head.
  intros [Hd| ->]; [|done].
  destruct c as [[] [] [] [] [] [] [] []]; try discriminate Hd; done.
Qed.

Lemma stringify_head v :
  exists c t, stringify v = String c t /\ value_head c.
Proof.
  destruct v as [| |[]|n|s|items|fields]; simpl;
    try (eexists _, _; split; [reflexivity|done]).
  destruct (number_to_string_head n) as (c & t & -> & Hc).
  exists c, t. split; [done|]. by apply digit_or_minus_head.
Qed.

(** Arrays and objects: the element loop and the member loop of the parser
    on the joined texts. *)
Lemma weight_VArr items :
  weight (VArr items) = S (sum_list_with (fun x => S (weight x)) items).
Proof. reflexivity. Qed.

Lemma weight_VObj fields :
  weight (VObj fields) = S (sum_list_with (fun kv => S (weight kv.2)) fields).
Proof.
  simpl. f_equal. induction fields as [|[k x] fields IH]; simpl; congruence.
Qed.

Lemma parse_elements_join items :
  items <> [] -> Forall parses items ->
  forall fuel rest,
    sum_list_with (fun x => S (weight x)) items <= fuel ->
    parse_elements fuel (join "," (map stringify items) +:+ String "]" rest)
    = Some (items, rest).
Proof.
  induction items as [|x items IH]; [done|]. intros _ HF fuel rest Hfuel.
  apply Forall_cons in HF as [Hx HF].
  destruct fuel as [|fuel]; [simpl in Hfuel; lia|]. simpl in Hfuel.
  destruct items as [|y items].
  - simpl map. rewrite join_single. simpl.
    rewrite Hx; [|lia|simpl; auto]. done.
  - simpl map. rewrite join_cons, !string_app_assoc, app_String, app_Empty. simpl.
    rewrite Hx; [|lia|simpl; auto]. simpl.
    rewrite (IH ltac:(done) HF); [done|]. simpl in *. lia.
Qed.

Lemma stringify_VObj fields :
  forallb (fun kv => json_clean kv.2) fields = true ->
  stringify (VObj fields) = "{" +:+ join "," (member_strings fields) +:+ "}".
Proof.
  intros Hc. simpl.
  match goal with |- context [join _ (?m fields)] =>
    assert (m fields = member_strings fields) as ->; [|done] end.
  induction fields as [|[k x] fields IH]; [done|].
  simpl in Hc. apply andb_prop in Hc as [Hx Hc].
  simpl. rewrite (IH Hc). by destruct x.
Qed.

Lemma member_text k x tail :
  quote k +:+ ":" +:+ stringify x +:+ tail
  = String dquote (escape k +:+ String dquote (String ":" (stringify x +:+ tail))).
Proof.
  unfold quote. by rewrite !app_String, !string_app_assoc, !app_String, app_Empty.
Qed.

Lemma parse_members_join fields :
  fields <> [] -> Forall (fun kv => parses kv.2) fields ->
  forall fuel rest acc,
    sum_list_with (fun kv => S (weight kv.2)) fields <= fuel ->
    parse_members fuel (join "," (member_strings fields) +:+ String "}" rest) acc
    = Some (spread fields acc, rest).
Proof.
  induction fields as [|[k x] fields IH]; [done|]. intros _ HF fuel rest acc Hfuel.
  apply Forall_cons in HF as [Hx HF]. simpl in Hx.
  destruct fuel as [|fuel]; [simpl in Hfuel; lia|]. simpl in Hfuel.
  destruct fields as [|[k' y] fields].
  - unfold member_strings. simpl map.
    rewrite join_single, !string_app_assoc, member_text. simpl.
    rewrite parse_string_body_escape. simpl.
    rewrite Hx; [|lia|simpl; auto]. done.
  - unfold member_strings. simpl map. fold (member_strings fields).
    rewrite join_cons, !string_app_assoc, member_text. simpl.
    rewrite parse_string_body_escape. simpl.
    rewrite app_String, app_Empty.
    rewrite Hx; [|lia|simpl; auto]. simpl.
    change ((quote k' +:+ ":" +:+ stringify y) :: member_strings fields)
      with (member_strings ((k', y) :: fields)) in *.
    rewrite (IH ltac:(done) HF); [done|]. simpl in *. lia.
Qed.

Lemma set_field_fresh k v (o : object) :
  k ∉ Object_keys o -> set_field k v o = o ++ [(k, v)].
Proof.
  induction o as [|[k' v'] o IH]; [done|]. simpl. intros Hn.
  apply not_elem_of_cons in Hn as [Hne Hn].
  destruct (String.eqb_spec k' k); [congruence|]. by rewrite IH.
Qed.

Lemma spread_fresh (fields : object) : forall acc,
  NoDup (Object_keys (acc ++ fields)) -> spread fields acc = acc ++ fields.
Proof.
  unfold spread.
  induction fields as [|[k v] fields IH]; intros acc Hnd; simpl.
  - by rewrite app_nil_r.
  - rewrite set_field_fresh.
    + rewrite IH; [by rewrite <- app_assoc|]. by rewrite <- app_assoc.
    + unfold Object_keys in Hnd. rewrite map_app in Hnd. simpl in Hnd.
      apply NoDup_app in Hnd as (_ & Hd & _). intros Hin.
      apply (Hd k Hin). left.
Qed.

Lemma array_text J rest :
  ("[" +:+ J +:+ "]") +:+ rest = String "[" (J +:+ String "]" rest).
Proof.
  change (String "[" ((J +:+ "]") +:+ rest) = String "[" (J +:+ String "]" rest)).
  by rewrite string_app_assoc.
Qed.

Lemma object_text J rest :
  ("{" +:+ J +:+ "}") +:+ rest = String "{" (J +:+ String "}" rest).
Proof.
  change (String "{" ((J +:+ "}") +:+ rest) = String "{" (J +:+ String "}" rest)).
  by rewrite string_app_assoc.
Qed.

(** The parser reads every clean value back from its text. *)
Theorem parse_value_stringify v :
  json_clean v = true -> parses v.
Proof.
  induction v as [| |b|n|s|items IH|fields IH] using value_ind';
    intros Hc fuel rest Hfuel Hrest;
    (destruct fuel as [|fuel]; [simpl in Hfuel; lia|]).
  - discriminate.
  - reflexivity.
  - by destruct b.
  - simpl stringify.
    destruct (number_to_string_head n) as (c & t & Hnt & Hhead).
    destruct (digit_or_minus_head c Hhead)
      as ((Hws & _) & Hn & Ht & Hf & Hq & Ha & Ho).
    pose proof (parse_number_to_string n rest Hrest) as Hnum.
    rewrite Hnt, app_String in *. cbn -[parse_number].
    rewrite Hws, Hn, Ht, Hf, Hq, Ha, Ho, Hnum. done.
  - simpl stringify. unfold quote.
    rewrite app_String, string_app_assoc, app_String, app_Empty. simpl.
    by rewrite parse_string_body_escape.
  - destruct items as [|x items]; [reflexivity|].
    assert (forallb json_clean (x :: items) = true) as Hall by exact Hc.
    assert (Forall parses (x :: items)) as HF.
    { apply Forall_forall. intros y Hy.
      apply (proj1 (Forall_forall _ _) IH y Hy).
      apply (proj1 (forallb_forall _ _) Hall). by apply list_elem_of_In. }
    rewrite weight_VArr in Hfuel.
    pose proof (parse_elements_join (x :: items) ltac:(done) HF fuel rest
                  ltac:(lia)) as He.
    change (stringify (VArr (x :: items)))
      with ("[" +:+ join "," (map stringify (x :: items)) +:+ "]").
    rewrite array_text.
    destruct (stringify_head x) as (c & t & Hx & Hws & Hb & _).
    assert (exists t', join "," (map stringify (x :: items)) +:+ String "]" rest
                       = String c t') as (t' & Ht').
    { destruct items; simpl map.
      - rewrite join_single, Hx. by eexists.
      - rewrite join_cons, Hx. by eexists. }
    rewrite Ht' in He |- *. simpl. rewrite Hws, Hb, He. done.
  - destruct fields as [|[k x] fields]; [reflexivity|].
    assert (bool_decide (NoDup (map fst ((k, x) :: fields)))
            && forallb (fun kv => json_clean kv.2) ((k, x) :: fields) = true)
      as Hall by exact Hc.
    clear Hc. apply andb_prop in Hall as [Hnd Hc].
    apply bool_decide_eq_true in Hnd.
    assert (Forall (fun kv => parses kv.2) ((k, x) :: fields)) as HF.
    { apply Forall_forall. intros kv Hkv.
      apply (proj1 (Forall_forall _ _) IH kv Hkv).
      apply (proj1 (forallb_forall _ _) Hc). by apply list_elem_of_In. }
    rewrite weight_VObj in Hfuel.
    pose proof (parse_members_join ((k, x) :: fields) ltac:(done) HF fuel rest []
                  ltac:(lia)) as He.
    rewrite spread_fresh in He by done. simpl app in He.
    rewrite stringify_VObj, object_text by done.
    assert (exists t', join "," (member_strings ((k, x) :: fields)) +:+ String "}" rest
                       = String dquote t') as (t' & Ht').
    { unfold member_strings. destruct fields; simpl map.
      - rewrite join_single. unfold quote. by eexists.
      - rewrite join_cons. unfold quote. by eexists. }
    rewrite Ht' in He |- *. simpl. rewrite He. done.
Qed.

(** *** Fuel: the weight of a value is at most twice the length of its
    text *)

Lemma length_app_string (a b : string) :
  String.length (a +:+ b) = String.length a + String.length b.
Proof.
  induction a as [|c a IH]; [done|]. rewrite app_String. simpl. by rewrite IH.
Qed.

Lemma weight_join (parts : list (nat * string)) :
  Forall (fun p => p.1 <= 2 * String.length p.2) parts ->
  sum_list_with (fun p => S p.1) parts
  <= 2 * String.length (join "," (map snd parts)) + 2.
Proof.
  induction parts as [|[w s] parts IH]; [simpl; lia|].
  intros [Hp HF]%Forall_cons. specialize (IH HF). simpl in Hp.
  destruct parts as [|[w' s'] parts].
  - simpl. lia.
  - simpl map in *. rewrite join_cons, !length_app_string.
    generalize dependent (join "," (s' :: map snd parts)). intros J IH.
    simpl sum_list_with in *. simpl String.length. lia.
Qed.

Lemma weight_le v :
  json_clean v = true -> weight v <= 2 * String.length (stringify v).
Proof.
  induction v as [| |b|n|s|items IH|fields IH] using value_ind'; intros Hc.
  - discriminate.
  - simpl. lia.
  - destruct b; simpl; lia.
  - simpl. destruct (number_to_string_head n) as (c & t & -> & _). simpl. lia.
  - simpl. lia.
  - assert (forallb json_clean items = true) as Hall by exact Hc.
    rewrite weight_VArr.
    change (stringify (VArr items))
      with ("[" +:+ join "," (map stringify items) +:+ "]").
    rewrite !length_app_string. simpl String.length.
    pose proof (weight_join (map (fun x => (weight x, stringify x)) items)) as Hj.
    rewrite map_map in Hj. simpl in Hj.
    assert (sum_list_with (fun p : nat * string => S p.1)
              (map (fun x => (weight x, stringify x)) items)
            = sum_list_with (fun x => S (weight x)) items) as Hs.
    { clear. induction items as [|x items IHi]; simpl; [done|]. by rewrite IHi. }
    rewrite Hs in Hj.
    assert (Forall (fun p : nat * string => p.1 <= 2 * String.length p.2)
              (map (fun x => (weight x, stringify x)) items)) as HF.
    { apply Forall_fmap, Forall_forall. intros x Hx. simpl.
      apply (proj1 (Forall_forall _ _) IH x Hx).
      apply (proj1 (forallb_forall _ _) Hall). by apply list_elem_of_In. }
    specialize (Hj HF).
    change (fun x : value => stringify x) with stringify in Hj. lia.
  - assert (bool_decide (NoDup (map fst fields))
            && forallb (fun kv => json_clean kv.2) fields = true)
      as Hall by exact Hc.
    apply andb_prop in Hall as [_ Hall].
    rewrite weight_VObj, stringify_VObj by done.
    rewrite !length_app_string. simpl String.length.
    pose proof (weight_join
      (map (fun kv => (weight kv.2, quote kv.1 +:+ ":" +:+ stringify kv.2)) fields))
      as Hj.
    rewrite map_map in Hj. simpl in Hj.
    assert (sum_list_with (fun p : nat * string => S p.1)
              (map (fun kv : string * value =>
                      (weight kv.2, quote kv.1 +:+ ":" +:+ stringify kv.2)) fields)
            = sum_list_with (fun kv => S (weight kv.2)) fields) as Hs.
    { clear. induction fields as [|x fields IHi]; simpl; [done|]. by rewrite IHi. }
    rewrite Hs in Hj.
    assert (Forall (fun p : nat * string => p.1 <= 2 * String.length p.2)
              (map (fun kv : string * value =>
                      (weight kv.2, quote kv.1 +:+ ":" +:+ stringify kv.2)) fields))
      as HF.
    { apply Forall_fmap, Forall_forall. intros kv Hkv. simpl.
      rewrite !length_app_string.
      pose proof (proj1 (Forall_forall _ _) IH kv Hkv
                    (proj1 (forallb_forall _ _) Hall kv
                       (proj1 (list_elem_of_In _ _) Hkv))). lia. }
    specialize (Hj HF). unfold member_strings. lia.
Qed.

(** The reference [JSON.parse] reads back what the reference
    [JSON.stringify] wrote. *)
Theorem parse_stringify v :
  json_clean v = true -> parse (stringify v) = Normal v.
Proof.
  intros Hc. unfold parse.
  pose proof (parse_value_stringify v Hc
                (2 * String.length (stringify v) + 2) EmptyString) as Hp.
  rewrite string_app_empty_r in Hp. rewrite Hp; [done| |done].
  pose proof (weight_le v Hc). lia.
Qed.

(** The reference [decodeURI] leaves a text without percent signs alone. *)
Lemma decode_percent_free text :
  percent_free text = true -> decode text = Normal text.
Proof.
  induction text as [|c text IH]; [done|]. simpl.
  intros [Hc Ht]%andb_prop. apply negb_true_iff in Hc. rewrite Hc, IH by done.
  done.
Qed.

(** With the reference built-ins, a clean value whose text has no percent
    sign survives [safeParseJson] after [JSON.stringify]. *)
Theorem safeParseJson_stringify v :
  json_clean v = true -> percent_free (stringify v) = true ->
  @safeParseJson reference_env (Some (@JSON_stringify reference_env v)) = v.
Proof.
  intros Hc Hp. unfold safeParseJson. cbn [JSON_stringify decodeURI JSON_parse reference_env].
  assert (String.eqb (stringify v) EmptyString = false) as ->.
  { destruct (stringify_head v) as (c & t & -> & _). done. }
  rewrite decode_percent_free by done. simpl. by rewrite parse_stringify.
Qed.

(** The compact text of a state of clean values, when it has no percent
    sign, decodes and parses back to the array that was serialized. *)
Lemma compact_text_survives s :
  json_clean (@compact_array s) = true ->
  percent_free (@serializeStateToUrlParam reference_env s true) = true ->
  @safeParseJson reference_env
    (Some (@serializeStateToUrlParam reference_env s true))
  = compact_array s.
Proof. intros Hc Hp. by apply safeParseJson_stringify. Qed.

End ReferenceFacts.

(** ** Parsing the URL state *)

Section UrlStateFacts.
Context `{Env}.

Lemma safeParseJson_not_json initial :
  not_json initial -> safeParseJson initial = VUndef.
Proof.
  destruct initial as [t|]; simpl; [|done].
  intros [->|[e He]]; [done|].
  destruct (String.eqb t EmptyString); [done|]. by rewrite He.
Qed.

Lemma safeParseJson_parses_to initial v :
  parses_to initial v -> safeParseJson initial = v.
Proof.
  intros (t & -> & Hne & Hv). simpl.
  destruct (String.eqb_spec t EmptyString) as [->|_]; [done|]. by rewrite Hv.
Qed.

(** C4.  When the input is absent, empty or does not URI-decode to JSON
    text, or when it denotes an array of at most three elements (no more
    than the fixed header), [parseUrlState] returns the full default state:
    datasource [null], no queries, the range [now-6h] to [now] and the
    default UI state. *)
Theorem parseUrlState_default initial :
  not_json initial
  \/ (exists items, parses_to initial (VArr items) /\ length items <= 3) ->
  parseUrlState initial = Normal errorResult
  /\ errorResult
     = VObj [("datasource", VNull);
             ("queries", VArr []);
             ("range", VObj [("from", VStr "now-6h"); ("to", VStr "now")]);
             ("ui", DEFAULT_UI_STATE)].
Proof.
  intros Hin. split; [|reflexivity].
  unfold parseUrlState.
  destruct Hin as [Hbad|(items & Hp & Hlen)].
  - by rewrite (safeParseJson_not_json _ Hbad).
  - rewrite (safeParseJson_parses_to _ _ Hp). simpl.
    destruct (Nat.leb_spec (length items) ParseUrlStateIndex.SegmentsStart) as [_|Hgt]; [done|].
    unfold ParseUrlStateIndex.SegmentsStart in Hgt. lia.
Qed.

(** *** Elements on which the segment tests throw *)

Lemma call_hasOwnProperty_throws v k e :
  call_hasOwnProperty v k = Throw e -> e = TypeError.
Proof. destruct v; simpl; try congruence. case_match; congruence. Qed.

Lemma some_c_throws {A} (p : A -> completion bool) xs e :
  (forall x e', p x = Throw e' -> e' = TypeError) ->
  some_c p xs = Throw e -> e = TypeError.
Proof.
  intros Hp. induction xs as [|x xs IH]; simpl; [done|].
  destruct (p x) as [[]|e'] eqn:E; simpl; [done|done|].
  intros [= <-]. by eapply Hp.
Qed.

Lemma isMetricSegment_throws v e : isMetricSegment v = Throw e -> e = TypeError.
Proof.
  apply some_c_throws. intros x e'. apply call_hasOwnProperty_throws.
Qed.

Lemma filter_c_null_metric pre post :
  filter_c isMetricSegment (pre ++ VNull :: post) = Throw TypeError.
Proof.
  induction pre as [|a pre IH]; simpl; [done|].
  destruct (isMetricSegment a) as [b|e] eqn:E; simpl.
  - by rewrite IH.
  - by rewrite (isMetricSegment_throws _ _ E).
Qed.

(** A [null] among the trailing elements of a compact array makes
    [parseUrlState] throw, whatever the other elements are. *)
Lemma parseUrlState_null_segment initial items :
  parses_to initial (VArr items) -> 3 < length items ->
  VNull ∈ drop 3 items ->
  parseUrlState initial = Throw TypeError.
Proof.
  intros Hp Hlen Hin. unfold parseUrlState.
  rewrite (safeParseJson_parses_to _ _ Hp). cbn [truthy negb].
  destruct (Nat.leb_spec (length items) ParseUrlStateIndex.SegmentsStart) as [Hle|_];
    [unfold ParseUrlStateIndex.SegmentsStart in Hle; lia|].
  apply list_elem_of_split in Hin as (pre & post & Hsplit).
  unfold ParseUrlStateIndex.SegmentsStart. rewrite Hsplit.
  by rewrite filter_c_null_metric.
Qed.

(** *** Elements that are neither a query segment nor the UI segment *)

Lemma isMetricSegment_inert e :
  inert_segment e = true -> isMetricSegment e = Normal false.
Proof.
  destruct e; simpl; try done.
  - intros _. unfold isMetricSegment. simpl.
    destruct (is_index_below_names (String.length s)) as (-> & -> & -> & _).
    done.
  - intros _. unfold isMetricSegment. simpl.
    destruct (is_index_below_names (length items)) as (-> & -> & -> & _).
    done.
  - unfold has_metric_field, isMetricSegment. simpl.
    destruct (has_field "hasOwnProperty" fields); simpl; [by rewrite !andb_false_r|].
    destruct (has_field "expr" fields); [done|].
    destruct (has_field "target" fields); [done|].
    destruct (has_field "datasource" fields); done.
Qed.

Lemma isUISegment_inert e :
  inert_segment e = true -> isUISegment e = Normal false.
Proof.
  destruct e; simpl; try done.
  - intros _. unfold isUISegment. simpl.
    by destruct (is_index_below_names (String.length s)) as (_ & _ & _ & ->).
  - intros _. unfold isUISegment. simpl.
    by destruct (is_index_below_names (length items)) as (_ & _ & _ & ->).
  - unfold isUISegment. simpl.
    destruct (has_field "hasOwnProperty" fields); simpl; [by rewrite !andb_false_r|].
    destruct (has_field "ui" fields); [by rewrite andb_false_r|done].
Qed.

(** A trailing element that is not [null] and has none of the fields
    [expr], [target], [datasource], [ui] (nor an own [hasOwnProperty]) is
    left out: the result is the one computed from the other trailing
    elements, be it a state or their exception. *)
Lemma parseUrlState_inert_segment initial h0 h1 h2 pre e post :
  parses_to initial (VArr (h0 :: h1 :: h2 :: pre ++ e :: post)) ->
  inert_segment e = true ->
  parseUrlState initial =
    (queries ← filter_c isMetricSegment (pre ++ post);
     ui ← ui_of_segments (pre ++ post);
     Normal (VObj [("datasource", h2);
                   ("queries", VArr queries);
                   ("range", VObj [("from", h0); ("to", h1)]);
                   ("ui", ui)])).
Proof.
  intros Hp He. unfold parseUrlState.
  rewrite (safeParseJson_parses_to _ _ Hp). simpl.
  rewrite length_app, Nat.add_comm, drop_0. simpl.
  unfold ui_of_segments.
  rewrite (filter_c_skip isMetricSegment _ _ _ (isMetricSegment_inert _ He)).
  by rewrite (filter_c_skip isUISegment _ _ _ (isUISegment_inert _ He)).
Qed.

(** *** Inputs on which [parseUrlState] returns *)

Lemma call_hasOwnProperty_tame e k :
  tame_segment e = true -> exists b, call_hasOwnProperty e k = Normal b.
Proof.
  destruct e; simpl; try done; eauto.
  intros [Hh _]%andb_prop. apply negb_true_iff in Hh. rewrite Hh. eauto.
Qed.

Lemma some_c_total {A} (p : A -> completion bool) xs :
  (forall x, exists b, p x = Normal b) -> exists b, some_c p xs = Normal b.
Proof.
  intros Hp. induction xs as [|x xs IH]; simpl; [eauto|].
  destruct (Hp x) as [[] ->]; simpl; eauto.
Qed.

Lemma filter_c_total {A} (p : A -> completion bool) xs :
  Forall (fun x => exists b, p x = Normal b) xs ->
  exists l, filter_c p xs = Normal l
    /\ forall x, x ∈ l -> x ∈ xs /\ p x = Normal true.
Proof.
  induction 1 as [|x xs [b Hx] _ (l & Hl & Hin)]; simpl.
  - exists []. split; [done|]. intros x Hx. inversion Hx.
  - rewrite Hx, Hl. simpl. destruct b.
    + exists (x :: l). split; [done|]. intros y [->|Hy]%elem_of_cons.
      * split; [left|done].
      * destruct (Hin y Hy). split; [by right|done].
    + exists l. split; [done|]. intros y Hy.
      destruct (Hin y Hy). split; [by right|done].
Qed.

(** [parseUrlState] returns a value on every input whose trailing elements,
    if it denotes a compact array, are all tame. *)
Lemma parseUrlState_total_on_tame initial :
  (forall items, safeParseJson initial = VArr items ->
     forallb tame_segment (drop 3 items) = true) ->
  exists v, parseUrlState initial = Normal v.
Proof.
  intros Htame. unfold parseUrlState.
  destruct (truthy (safeParseJson initial)); simpl; [|eauto].
  destruct (safeParseJson initial) as [| | | | |items|] eqn:Hp; eauto.
  destruct (length items <=? ParseUrlStateIndex.SegmentsStart); [eauto|].
  specialize (Htame items eq_refl).
  pose proof (proj1 (forallb_forall _ _) Htame) as Hall.
  unfold ParseUrlStateIndex.SegmentsStart.
  destruct (filter_c_total isMetricSegment (drop 3 items)) as (qs & -> & _).
  { apply Forall_forall. intros e He. apply some_c_total. intros k.
    by apply call_hasOwnProperty_tame, Hall, list_elem_of_In. }
  simpl. unfold ui_of_segments.
  destruct (filter_c_total isUISegment (drop 3 items)) as (uis & -> & Hin).
  { apply Forall_forall. intros e He.
    by apply call_hasOwnProperty_tame, Hall, list_elem_of_In. }
  simpl. destruct uis as [|u uis]; simpl; [eauto|].
  destruct (Hin u ltac:(left)) as [Hu Hui].
  pose proof (Hall u (proj1 (list_elem_of_In _ _) Hu)) as Htu.
  destruct u as [| | | |s|l|fields]; simpl in *; try done.
  - injection Hui as Hui.
    destruct (is_index_below_names (String.length s)) as (_ & _ & _ & Hn).
    congruence.
  - injection Hui as Hui.
    destruct (is_index_below_names (length l)) as (_ & _ & _ & Hn).
    congruence.
  - apply andb_prop in Htu as [Hh Htu]. apply negb_true_iff in Hh.
    rewrite Hh in Hui. injection Hui as Hui. unfold has_field in Hui.
    unfold get.
    destruct (lookup_field "ui" fields) as [[]|]; simpl; try done; eauto.
Qed.

(** *** Round trip through the compact form *)

Lemma isMetricSegment_carried q :
  carried_query q = true -> isMetricSegment (VObj q) = Normal true.
Proof.
  unfold carried_query, has_metric_field, isMetricSegment. simpl.
  intros [[Hm _]%andb_prop Hh%negb_true_iff]%andb_prop. rewrite Hh. simpl.
  destruct (has_field "expr" q); [done|].
  destruct (has_field "target" q); [done|].
  by destruct (has_field "datasource" q).
Qed.

Lemma isUISegment_carried q :
  carried_query q = true -> isUISegment (VObj q) = Normal false.
Proof.
  unfold carried_query, isUISegment. simpl.
  intros [[_ Hu%negb_true_iff]%andb_prop Hh%negb_true_iff]%andb_prop.
  by rewrite Hh, Hu.
Qed.

(** C1, as amended.  Let every query of [s] have one of the fields [expr],
    [target], [datasource] and neither a [ui] nor a [hasOwnProperty] field,
    and let the compact text of [s] URI-decode and parse back to the array
    that was serialized.  Then [parseUrlState] of the compact text returns
    the state whose datasource, queries and range are those of [s] and whose
    UI state is [s.ui]. *)
Theorem parseUrlState_serialize_carried s :
  forallb carried_query (queries s) = true ->
  safeParseJson (Some (serializeStateToUrlParam s true)) = compact_array s ->
  parseUrlState (Some (serializeStateToUrlParam s true))
  = Normal (VObj [("datasource", datasource_value (datasource s));
                  ("queries", VArr (map VObj (queries s)));
                  ("range", VObj [("from", VStr (from (range s)));
                                  ("to", VStr (to (range s)))]);
                  ("ui", VObj [("showingGraph", VBool (showingGraph (ui s)));
                               ("showingLogs", VBool (showingLogs (ui s)));
                               ("showingTable", VBool (showingTable (ui s)));
                               ("dedupStrategy", dedupStrategy (ui s))])]).
Proof.
  intros Hq Hwire. unfold parseUrlState. rewrite Hwire.
  unfold compact_array. simpl.
  rewrite length_app, Nat.add_comm. simpl.
  pose proof (proj1 (forallb_forall _ _) Hq) as Hall.
  rewrite !drop_0, filter_c_app,
    (filter_c_all isMetricSegment (map VObj (queries s))).
  2:{ apply Forall_fmap, Forall_forall. intros q Hin. simpl.
      by apply isMetricSegment_carried, Hall, list_elem_of_In. }
  simpl. unfold ui_of_segments.
  rewrite filter_c_app, (filter_c_none isUISegment (map VObj (queries s))).
  2:{ apply Forall_fmap, Forall_forall. intros q Hin. simpl.
      by apply isUISegment_carried, Hall, list_elem_of_In. }
  simpl. rewrite app_nil_r, !negb_involutive. reflexivity.
Qed.

End UrlStateFacts.

(** [parseUrlState('not json')] with the reference built-ins. *)
Lemma parseUrlState_default_witness :
  @parseUrlState reference_env (Some "not json")
  = Normal (@errorResult reference_env)
  /\ @errorResult reference_env
     = VObj [("datasource", VNull);
             ("queries", VArr []);
             ("range", VObj [("from", VStr "now-6h"); ("to", VStr "now")]);
             ("ui", @DEFAULT_UI_STATE reference_env)].
Proof.
  apply (parseUrlState_default (H := reference_env) (Some "not json")).
  left. right. exists SyntaxError. vm_compute. reflexivity.
Defined.

(** The scenario of the specification: a compact array with one query and a
    UI segment. *)
Example parseUrlState_compact_scenario :
  @parseUrlState reference_env
    (Some (Reference.js
       "['now-1h','now','Prometheus',{'expr':'up'},{'ui':[true,false,true,0]}]"))
  = Normal (VObj [("datasource", VStr "Prometheus");
                  ("queries", VArr [VObj [("expr", VStr "up")]]);
                  ("range", VObj [("from", VStr "now-1h"); ("to", VStr "now")]);
                  ("ui", VObj [("showingGraph", VBool true);
                               ("showingLogs", VBool false);
                               ("showingTable", VBool true);
                               ("dedupStrategy", VNum 0)])]).
Proof. vm_compute. reflexivity. Qed.

(** C3, which the code violates.  [parseUrlState] is specified never to
    throw on a user-supplied text; on the text of a compact array whose
    trailing element is [null] it throws a [TypeError], raised by
    [segment.hasOwnProperty] in [isMetricSegment]. *)
Theorem parseUrlState_throws_on_null_element :
  @parseUrlState reference_env
    (Some (Reference.js "['now-1h','now','Prometheus',null]"))
  = Throw TypeError.
Proof. vm_compute. reflexivity. Qed.

(** C9, which the code violates for [null].  A trailing element without any
    of the fields [expr], [target], [datasource], [ui] is specified to be
    left out silently; the trailing [null] below has none of them, and
    [parseUrlState] throws a [TypeError] instead of returning the state with
    the query [{expr: up}].  ([parseUrlState_inert_segment] covers the
    trailing elements that are left out.) *)
Theorem parseUrlState_throws_on_null_between_segments :
  @parseUrlState reference_env
    (Some (Reference.js
       "['now-1h','now','Prometheus',{'expr':'up'},null,{'ui':[true,true,true,'none']}]"))
  = Throw TypeError.
Proof. vm_compute. reflexivity. Qed.

(** An object whose own property shadows the method has the same effect. *)
Example parseUrlState_throws_on_shadowed_method :
  @parseUrlState reference_env
    (Some (Reference.js "['now-1h','now','Prometheus',{'hasOwnProperty':1}]"))
  = Throw TypeError.
Proof. vm_compute. reflexivity. Qed.

(** The text of C9 with an empty object in place of [null]: the element is
    left out. *)
Example parseUrlState_skips_empty_object :
  @parseUrlState reference_env
    (Some (Reference.js
       "['now-1h','now','Prometheus',{'expr':'up'},{},{'ui':[true,true,true,'none']}]"))
  = Normal (VObj [("datasource", VStr "Prometheus");
                  ("queries", VArr [VObj [("expr", VStr "up")]]);
                  ("range", VObj [("from", VStr "now-1h"); ("to", VStr "now")]);
                  ("ui", VObj [("showingGraph", VBool true);
                               ("showingLogs", VBool true);
                               ("showingTable", VBool true);
                               ("dedupStrategy", VStr "none")])]).
Proof. vm_compute. reflexivity. Qed.

(** The round trip of [sample_state] with the reference built-ins. *)
Lemma parseUrlState_serialize_witness :
  @parseUrlState reference_env
    (Some (@serializeStateToUrlParam reference_env sample_state true))
  = Normal (state_value sample_state).
Proof.
  apply (parseUrlState_serialize_carried (H := reference_env) sample_state).
  - vm_compute. reflexivity.
  - apply ReferenceFacts.compact_text_survives; vm_compute; reflexivity.
Defined.

(** A percent sign in the compact text makes the round trip fall back to the
    default state: the text is handed to [decodeURI] although it was not
    URI-encoded. *)
Example parseUrlState_serialize_percent :
  @parseUrlState reference_env
    (Some (@serializeStateToUrlParam reference_env percent_state true))
  = Normal (@errorResult reference_env).
Proof. vm_compute. reflexivity. Qed.

(** C1 fails as stated: the query of [empty_query_state] has none of the
    fields [expr], [target], [datasource], so the parser does not take it
    for a query segment and the returned state has no queries. *)
Lemma parseUrlState_serialize_drops_query :
  @parseUrlState reference_env
    (Some (@serializeStateToUrlParam reference_env empty_query_state true))
  = Normal (VObj [("datasource", VStr "Prometheus");
                  ("queries", VArr []);
                  ("range", VObj [("from", VStr "now-1h"); ("to", VStr "now")]);
                  ("ui", VObj [("showingGraph", VBool true);
                               ("showingLogs", VBool true);
                               ("showingTable", VBool true);
                               ("dedupStrategy", VStr "none")])])
  /\ map VObj (queries empty_query_state) <> [].
Proof. split; [vm_compute; reflexivity|discriminate]. Qed.

(** ** Ref-ids of an ensured batch *)

Lemma getNextRefIdChar_spec queries :
  match getNextRefIdChar queries with
  | VStr l => l ∈ letters /\ VStr l ∉ refIds queries
  | v => v = VUndef /\ forall l, l ∈ letters -> VStr l ∈ refIds queries
  end.
Proof.
  unfold getNextRefIdChar.
  destruct (List.find _ letters) as [l|] eqn:E.
  - apply find_some in E as [Hin Hall]. split; [by apply list_elem_of_In|].
    intros Hmem. apply list_elem_of_fmap in Hmem as (q & Hq & Hqin).
    rewrite forallb_forall in Hall. apply list_elem_of_In in Hqin.
    specialize (Hall q Hqin). unfold refId in Hq. rewrite <- Hq in Hall.
    simpl in Hall. by rewrite String.eqb_refl in Hall.
  - split; [done|]. intros l Hl. apply list_elem_of_In in Hl.
    pose proof (find_none _ _ E l Hl) as Hn. simpl in Hn.
    apply list_elem_of_fmap. clear E.
    induction queries as [|q qs IH]; simpl in Hn; [done|].
    destruct (strict_eq_string (get q "refId") l) eqn:Eq; simpl in Hn.
    + exists q. split; [|left]. unfold refId.
      destruct (get q "refId"); simpl in Eq; try done.
      by apply String.eqb_eq in Eq as ->.
    + destruct (IH Hn) as (q' & ? & ?). exists q'. split; [done|by right].
Qed.

Lemma getNextRefIdChar_fresh queries :
  length queries < 26 ->
  exists l, getNextRefIdChar queries = VStr l /\ l ∈ letters /\ VStr l ∉ refIds queries.
Proof.
  intros Hlen. pose proof (getNextRefIdChar_spec queries) as Hs.
  destruct (getNextRefIdChar queries) as [| | | |l| |];
    try (by destruct Hs as [[=] _]).
  - exfalso. destruct Hs as [_ Hall].
    assert (VStr <$> letters ⊆+ refIds queries) as Hsub.
    { apply NoDup_submseteq.
      - apply NoDup_fmap_2; [by intros ?? [=]|].
        apply (bool_decide_unpack _). by vm_compute.
      - intros v Hv. apply list_elem_of_fmap in Hv as (l & -> & Hl). by apply Hall. }
    apply submseteq_length in Hsub. unfold refIds in Hsub.
    rewrite !length_fmap in Hsub. simpl in Hsub. lia.
  - exists l. by destruct Hs.
Qed.

Lemma refId_ensured key r q :
  refId (set_field "key" key (set_field "refId" r (spread q []))) = r.
Proof.
  unfold refId. rewrite get_set_field_ne by done. apply get_set_field_eq.
Qed.

Lemma kept_refIds_cons q qs :
  kept_refIds (q :: qs)
  = if truthy (refId q) then refId q :: kept_refIds qs else kept_refIds qs.
Proof. done. Qed.

Lemma generateKey_suffix index w :
  exists prefix,
    (generateKey index w).1 = prefix +:+ "-" +:+ nat_to_string index
    /\ prefix <> EmptyString.
Proof.
  exists ("Q-" +:+ number_to_string (clock w (clock_reads w)) +:+ "-"
          +:+ random w (random_draws w)).
  split; [|done].
  unfold generateKey, eff_bind, Date_now, Math_random, eff_ret. simpl.
  by rewrite !string_app_assoc.
Qed.

(** What the loop appends: for the query at position [i] of [rest] the
    object literal [{ ...query, refId, key }], whose key ends with the index
    of the query. *)
Lemma ensureQueries_loop_items rest : forall index allQueries w,
  exists tail,
    (ensureQueries_loop index rest allQueries w).1 = allQueries ++ tail
    /\ length tail = length rest
    /\ forall i q, rest !! i = Some q ->
         exists prefix,
           prefix <> EmptyString
           /\ tail !! i
              = Some (set_field "key"
                        (VStr (prefix +:+ "-" +:+ nat_to_string (index + i)))
                        (set_field "refId"
                           (if truthy (refId q) then refId q
                            else getNextRefIdChar (allQueries ++ take i tail))
                           (spread q []))).
Proof.
  induction rest as [|q rest IH]; intros index acc w.
  - exists []. split; [by rewrite app_nil_r|]. split; [done|].
    intros i q Hq. inversion Hq.
  - simpl. unfold eff_bind.
    destruct (generateKey_suffix index w) as (prefix & Hkey & Hne).
    destruct (generateKey index w) as [key w']. simpl in Hkey. subst key.
    match goal with |- context [ensureQueries_loop _ _ (acc ++ [?o]) _] =>
      set (new := o) end.
    destruct (IH (S index) (acc ++ [new]) w') as (tail & Hout & Hlen & Hall).
    exists (new :: tail). split; [by rewrite Hout, <- app_assoc|].
    split; [simpl; by rewrite Hlen|].
    intros [|i] q' Hq'; simpl in Hq'.
    + injection Hq' as <-. exists prefix. split; [done|]. simpl.
      subst new. rewrite Nat.add_0_r, app_nil_r. fold (refId q).
      by destruct (truthy (refId q)).
    + destruct (Hall i q' Hq') as (prefix' & Hne' & Ho). exists prefix'.
      split; [done|]. simpl. rewrite Ho.
      by rewrite <- app_assoc, Nat.add_succ_r.
Qed.

Lemma filter_length_le {A B} (P : A -> bool) (Q : B -> bool) l k :
  Forall2 (fun a b => P a = true -> Q b = true) l k ->
  length (List.filter P l) <= length (List.filter Q k).
Proof.
  induction 1 as [|a b l k Hab _ IH]; [done|]. simpl.
  destruct (P a) eqn:E; [rewrite (Hab eq_refl); simpl; lia|].
  destruct (Q b); simpl; lia.
Qed.

Lemma strict_eq_string_eq v s : strict_eq_string v s = true <-> v = VStr s.
Proof.
  destruct v; simpl; try (split; [done|by intros [=]]).
  rewrite String.eqb_eq. split; [by intros ->|by intros [= ->]].
Qed.

Lemma is_letter_spec v : is_letter v = true <-> exists l, v = VStr l /\ l ∈ letters.
Proof.
  unfold is_letter. rewrite existsb_exists. split.
  - intros (l & Hl & Hv). apply strict_eq_string_eq in Hv.
    exists l. split; [done|]. by apply list_elem_of_In.
  - intros (l & -> & Hl). exists l. split; [by apply list_elem_of_In|].
    by apply strict_eq_string_eq.
Qed.

(** Pairwise distinct letters are at most 26. *)
Lemma letters_bound (vs : list value) :
  NoDup vs -> Forall (fun v => is_letter v = true) vs -> length vs <= 26.
Proof.
  intros Hnd Hall.
  assert (vs ⊆+ VStr <$> letters) as Hsub.
  { apply NoDup_submseteq; [done|]. intros v Hv.
    apply (proj1 (Forall_forall _ _) Hall) in Hv.
    apply is_letter_spec in Hv as (l & -> & Hl).
    apply list_elem_of_fmap. by exists l. }
  apply submseteq_length in Hsub. by rewrite length_fmap in Hsub.
Qed.

(** When all 26 letters are among the values, at least 26 of the values are
    letters. *)
Lemma letters_all_used (vs : list value) :
  (forall l, l ∈ letters -> VStr l ∈ vs) ->
  26 <= length (List.filter is_letter vs).
Proof.
  intros Hall.
  assert (VStr <$> letters ⊆+ List.filter is_letter vs) as Hsub.
  { apply NoDup_submseteq.
    - apply NoDup_fmap_2; [by intros ?? [=]|].
      apply (bool_decide_unpack _). by vm_compute.
    - intros v Hv. apply list_elem_of_fmap in Hv as (l & -> & Hl).
      apply list_elem_of_In, filter_In. split.
      + by apply list_elem_of_In, Hall.
      + apply is_letter_spec. by exists l. }
  apply submseteq_length in Hsub. by rewrite length_fmap in Hsub.
Qed.

Lemma filter_fmap_length {A B} (f : A -> B) (P : B -> bool) l :
  length (List.filter P (map f l)) = length (List.filter (fun a => P (f a)) l).
Proof.
  induction l as [|a l IH]; [done|]. simpl. destruct (P (f a)); simpl; lia.
Qed.

Lemma kept_refIds_app qs qs' :
  kept_refIds (qs ++ qs') = kept_refIds qs ++ kept_refIds qs'.
Proof. unfold kept_refIds, refIds. by rewrite map_app, List.filter_app. Qed.

Lemma kept_refIds_elem q qs :
  q ∈ qs -> truthy (refId q) = true -> refId q ∈ kept_refIds qs.
Proof.
  intros Hq Ht. apply list_elem_of_In, filter_In. split; [|done].
  apply in_map, list_elem_of_In, Hq.
Qed.

Lemma kept_refIds_distinct queries i j qi qj :
  NoDup (kept_refIds queries) -> i < j ->
  queries !! i = Some qi -> queries !! j = Some qj ->
  truthy (refId qi) = true -> truthy (refId qj) = true ->
  refId qi <> refId qj.
Proof.
  intros Hnd Hij Hi Hj Hti Htj Heq.
  rewrite <- (take_drop_middle queries i qi Hi), kept_refIds_app in Hnd.
  apply NoDup_app in Hnd as (_ & _ & Hnd).
  rewrite kept_refIds_cons, Hti in Hnd. apply NoDup_cons in Hnd as [Hnin _].
  apply Hnin. rewrite Heq. apply kept_refIds_elem; [|done].
  apply (list_elem_of_lookup_2 _ (j - S i)).
  rewrite lookup_drop. by replace (S i + (j - S i)) with j by lia.
Qed.

Section Ensured.
Variables queries out : list object.
Hypothesis Hens : ensured queries out.

Lemma ensured_lookup i q :
  queries !! i = Some q ->
  exists o, out !! i = Some o
    /\ refId o = if truthy (refId q) then refId q
                 else getNextRefIdChar (take i out).
Proof. apply Hens. Qed.

Lemma ensured_lookup_out i o :
  out !! i = Some o ->
  exists q, queries !! i = Some q
    /\ refId o = if truthy (refId q) then refId q
                 else getNextRefIdChar (take i out).
Proof.
  intros Ho. destruct Hens as [Hlen Hall].
  destruct (lookup_lt_is_Some_2 queries i) as [q Hq].
  { apply lookup_lt_Some in Ho. lia. }
  destruct (Hall i q Hq) as (o' & Ho' & Hr). rewrite Ho in Ho'.
  injection Ho' as <-. by exists q.
Qed.

Lemma ensured_Forall2 (R : object -> object -> Prop) :
  (forall i q o, queries !! i = Some q -> out !! i = Some o ->
     refId o = (if truthy (refId q) then refId q
                else getNextRefIdChar (take i out)) -> R q o) ->
  Forall2 R queries out.
Proof.
  intros HR. apply Forall2_same_length_lookup_2; [by destruct Hens|].
  intros i q o Hq Ho. destruct (ensured_lookup i q Hq) as (o' & Ho' & Hr).
  rewrite Ho in Ho'. injection Ho' as <-. by apply (HR i).
Qed.

(** While letters are left, every allocation finds one that no query
    before it has. *)
Lemma ensured_allocates i q o :
  letter_slots queries <= 26 ->
  queries !! i = Some q -> out !! i = Some o -> truthy (refId q) = false ->
  exists l, refId o = VStr l /\ l ∈ letters /\ VStr l ∉ refIds (take i out).
Proof.
  intros Hbound Hq Ho Hgap.
  destruct (ensured_lookup i q Hq) as (o' & Ho' & Hr).
  rewrite Ho in Ho'. injection Ho' as <-. rewrite Hgap in Hr.
  pose proof (getNextRefIdChar_spec (take i out)) as Hs. rewrite <- Hr in Hs.
  destruct (refId o) as [| | | |l| |];
    try (by destruct Hs as [[=] _]); [|by exists l].
  exfalso. destruct Hs as [_ Hused]. apply letters_all_used in Hused.
  unfold refIds in Hused. rewrite filter_fmap_length in Hused.
  assert (length (List.filter (fun a => is_letter (refId a)) (take i out))
          <= length (List.filter letter_slot (take i queries))) as Hle.
  { apply filter_length_le, Forall2_take, Forall2_flip.
    apply (ensured_Forall2 (fun q0 o0 =>
             is_letter (refId o0) = true -> letter_slot q0 = true)).
    intros k q0 o0 _ _ Hr0 Hl. unfold letter_slot.
    destruct (truthy (refId q0)); [|done]. by rewrite <- Hr0, Hl. }
  unfold letter_slots in Hbound.
  rewrite <- (take_drop_middle queries i q Hq), List.filter_app in Hbound.
  rewrite length_app in Hbound. simpl in Hbound.
  assert (letter_slot q = true) as Hslot by (unfold letter_slot; by rewrite Hgap).
  rewrite Hslot in Hbound. simpl in Hbound. lia.
Qed.

Lemma repeats_allocated_spec :
  repeats_allocated queries out = true
  <-> exists i j qi qj oi,
        i < j /\ queries !! i = Some qi /\ queries !! j = Some qj
        /\ out !! i = Some oi
        /\ truthy (refId qi) = false /\ truthy (refId qj) = true
        /\ exists l, refId oi = VStr l /\ refId qj = VStr l.
Proof.
  unfold repeats_allocated. rewrite existsb_exists. split.
  - intros (j & Hj & Hb). destruct (queries !! j) as [qj|] eqn:Hqj; [|done].
    apply andb_prop in Hb as [Htj Hb]. apply existsb_exists in Hb as (i & Hi & Hb).
    destruct (queries !! i) as [qi|] eqn:Hqi; [|done].
    destruct (out !! i) as [oi|] eqn:Hoi; [|done].
    apply andb_prop in Hb as [Hti%negb_true_iff Hb].
    destruct (refId oi) as [| | | |l| |] eqn:Hr; try done.
    apply strict_eq_string_eq in Hb. apply in_seq in Hi.
    exists i, j, qi, qj, oi. repeat split; try done; [lia|]. by exists l.
  - intros (i & j & qi & qj & oi & Hij & Hqi & Hqj & Hoi & Hti & Htj & l & Hr & Hrj).
    exists j. split; [apply in_seq; apply lookup_lt_Some in Hqj; lia|].
    rewrite Hqj, Htj. simpl. apply existsb_exists. exists i.
    split; [apply in_seq; lia|]. rewrite Hqi, Hoi, Hti, Hr. simpl.
    by apply strict_eq_string_eq.
Qed.

Lemma ensured_NoDup :
  NoDup (kept_refIds queries) -> repeats_allocated queries out = false ->
  letter_slots queries <= 26 ->
  NoDup (refIds out) /\ Forall (fun o => truthy (refId o) = true) out.
Proof.
  intros Hkept Hrep Hbound. split.
  - assert (forall i j x, i < j -> refIds out !! i = Some x ->
              refIds out !! j = Some x -> False) as Hlt.
    { intros i j x Hij Hi Hj. unfold refIds in Hi, Hj.
      rewrite list_lookup_fmap in Hi, Hj.
      destruct (out !! i) as [oi|] eqn:Hoi; [|done].
      destruct (out !! j) as [oj|] eqn:Hoj; [|done].
      simpl in Hi, Hj. injection Hi as Hi. injection Hj as Hj.
      destruct (ensured_lookup_out i oi Hoi) as (qi & Hqi & Hri).
      destruct (ensured_lookup_out j oj Hoj) as (qj & Hqj & Hrj).
      destruct (truthy (refId qj)) eqn:Htj.
      - destruct (truthy (refId qi)) eqn:Hti.
        + apply (kept_refIds_distinct queries i j qi qj); try done. congruence.
        + destruct (ensured_allocates i qi oi Hbound Hqi Hoi Hti) as (l & Hl & _).
          assert (repeats_allocated queries out = true) as Hyes; [|congruence].
          apply repeats_allocated_spec.
          exists i, j, qi, qj, oi. repeat split; try done.
          exists l. split; [done|]. congruence.
      - destruct (ensured_allocates j qj oj Hbound Hqj Hoj Htj)
          as (l & Hl & _ & Hfresh).
        apply Hfresh. rewrite <- Hl, Hj, <- Hi. unfold refIds.
        apply list_elem_of_fmap. exists oi. split; [done|].
        apply (list_elem_of_lookup_2 _ i). by rewrite lookup_take_lt. }
    apply NoDup_alt. intros i j x Hi Hj.
    destruct (Nat.lt_trichotomy i j) as [Hij|[Hij|Hij]]; [|done|].
    + destruct (Hlt i j x Hij Hi Hj).
    + destruct (Hlt j i x Hij Hj Hi).
  - apply Forall_lookup. intros i o Ho.
    destruct (ensured_lookup_out i o Ho) as (q & Hq & Hr).
    destruct (truthy (refId q)) eqn:Ht; [congruence|].
    destruct (ensured_allocates i q o Hbound Hq Ho Ht) as (l & -> & Hl & _).
    unfold letters in Hl.
    repeat (apply elem_of_cons in Hl as [->|Hl]; [done|]). inversion Hl.
Qed.

Lemma ensured_kept_sublist : kept_refIds queries `sublist_of` refIds out.
Proof.
  assert (Forall2 (fun q o => truthy (refId q) = true -> refId o = refId q)
                  queries out) as HF.
  { apply ensured_Forall2. intros i q o _ _ Hr Ht. by rewrite Ht in Hr. }
  clear Hens. induction HF as [|q o qs os Hqo _ IH]; [constructor|].
  rewrite kept_refIds_cons. unfold refIds in *. simpl.
  destruct (truthy (refId q)).
  - rewrite Hqo by done. by apply sublist_skip.
  - by apply sublist_cons.
Qed.

Lemma ensured_NoDup_inv :
  NoDup (refIds out) -> Forall (fun o => truthy (refId o) = true) out ->
  NoDup (kept_refIds queries) /\ repeats_allocated queries out = false
  /\ letter_slots queries <= 26.
Proof.
  intros Hnd Ht. split; [|split].
  - by apply (sublist_NoDup _ (refIds out)), ensured_kept_sublist.
  - destruct (repeats_allocated queries out) eqn:Hrep; [|done]. exfalso.
    apply repeats_allocated_spec in Hrep
      as (i & j & qi & qj & oi & Hij & Hqi & Hqj & Hoi & Hti & Htj & l & Hr & Hrj).
    destruct (ensured_lookup j qj Hqj) as (oj & Hoj & Hroj).
    rewrite Htj in Hroj.
    assert (i = j); [|lia].
    apply (proj1 (NoDup_alt (refIds out)) Hnd i j (VStr l)); unfold refIds;
      rewrite list_lookup_fmap.
    + by rewrite Hoi; simpl; rewrite Hr.
    + by rewrite Hoj; simpl; rewrite Hroj, Hrj.
  - unfold letter_slots.
    transitivity (length (List.filter (fun o => is_letter (refId o)) out)).
    + apply filter_length_le.
      apply (ensured_Forall2 (fun q o =>
               letter_slot q = true -> is_letter (refId o) = true)).
      intros i q o _ Ho Hr Hslot. unfold letter_slot in Hslot.
      pose proof (proj1 (Forall_lookup _ _) Ht i o Ho) as Hto. simpl in Hto.
      destruct (truthy (refId q)); [by rewrite Hr|].
      pose proof (getNextRefIdChar_spec (take i out)) as Hs. rewrite <- Hr in Hs.
      destruct (refId o) as [| | | |l| |]; try (by destruct Hs as [[=] _]).
      apply is_letter_spec. exists l. by destruct Hs.
    + rewrite <- filter_fmap_length.
      apply letters_bound.
      * apply (sublist_NoDup _ (refIds out)); [done|].
        clear. unfold refIds. induction (map refId out) as [|v vs IH];
          [constructor|]. simpl.
        destruct (is_letter v); [by apply sublist_skip|by apply sublist_cons].
      * apply Forall_forall. intros v Hv.
        by apply list_elem_of_In, filter_In in Hv as [_ Hv].
Qed.

End Ensured.

Lemma filter_sublist {A} (P : A -> bool) (l : list A) :
  List.filter P l `sublist_of` l.
Proof.
  induction l as [|a l IH]; [constructor|]. simpl.
  destruct (P a); [by apply sublist_skip|by apply sublist_cons].
Qed.

Lemma filter_length_pos {A} (P : A -> bool) (l : list A) i a :
  l !! i = Some a -> P a = true -> 1 <= length (List.filter P l).
Proof.
  intros Hi Ha. rewrite <- (take_drop_middle l i a Hi), List.filter_app.
  rewrite length_app. simpl. rewrite Ha. simpl. lia.
Qed.

(** Pairwise distinct values drawn from a pool are no more than the pool
    holds. *)
Lemma pool_bound (pool vs : list value) :
  NoDup vs -> Forall (fun v => v ∈ pool) vs -> length vs <= length pool.
Proof.
  intros Hnd Hall. apply submseteq_length, NoDup_submseteq; [done|].
  intros v Hv. by apply (proj1 (Forall_forall _ _) Hall).
Qed.

Section Distinct.
Variables queries out : list object.
Hypothesis Hens : ensured queries out.

(** The letters among the ref-ids of a prefix of the output come from letter
    slots of the input. *)
Lemma ensured_letters_before i :
  length (List.filter is_letter (refIds (take i out)))
  <= length (List.filter letter_slot (take i queries)).
Proof.
  unfold refIds. rewrite filter_fmap_length.
  apply filter_length_le, Forall2_take, Forall2_flip.
  apply (ensured_Forall2 queries out Hens (fun q0 o0 =>
           is_letter (refId o0) = true -> letter_slot q0 = true)).
  intros k q0 o0 _ _ Hr0 Hl. unfold letter_slot.
  destruct (truthy (refId q0)); [|done]. by rewrite <- Hr0, Hl.
Qed.

(** An allocation that finds no letter comes after 26 letter slots. *)
Lemma ensured_undefined i q o :
  queries !! i = Some q -> out !! i = Some o -> refId o = VUndef ->
  truthy (refId q) = false
  /\ 26 <= length (List.filter letter_slot (take i queries)).
Proof.
  intros Hq Ho Hu.
  destruct (ensured_lookup queries out Hens i q Hq) as (o' & Ho' & Hr).
  rewrite Ho in Ho'. injection Ho' as <-.
  destruct (truthy (refId q)) eqn:Ht.
  { rewrite <- Hr, Hu in Ht. done. }
  split; [done|].
  pose proof (getNextRefIdChar_spec (take i out)) as Hs. rewrite <- Hr, Hu in Hs.
  destruct Hs as [_ Hused]. apply letters_all_used in Hused.
  pose proof (ensured_letters_before i). lia.
Qed.

Lemma ensured_distinct :
  NoDup (kept_refIds queries) -> repeats_allocated queries out = false ->
  letter_slots queries <= 27 ->
  NoDup (refIds out).
Proof.
  intros Hkept Hrep Hbound.
  assert (forall i j x, i < j -> refIds out !! i = Some x ->
            refIds out !! j = Some x -> False) as Hlt.
  { intros i j x Hij Hi Hj. unfold refIds in Hi, Hj.
    rewrite list_lookup_fmap in Hi, Hj.
    destruct (out !! i) as [oi|] eqn:Hoi; [|done].
    destruct (out !! j) as [oj|] eqn:Hoj; [|done].
    simpl in Hi, Hj. injection Hi as Hi. injection Hj as Hj.
    destruct (ensured_lookup_out queries out Hens i oi Hoi) as (qi & Hqi & Hri).
    destruct (ensured_lookup_out queries out Hens j oj Hoj) as (qj & Hqj & Hrj).
    destruct (truthy (refId qj)) eqn:Htj.
    - destruct (truthy (refId qi)) eqn:Hti.
      + apply (kept_refIds_distinct queries i j qi qj); try done. congruence.
      + assert (refId oi = refId qj) as Heq by congruence.
        pose proof (getNextRefIdChar_spec (take i out)) as Hs.
        rewrite <- Hri in Hs.
        destruct (refId oi) as [| | | |l| |] eqn:Hoil;
          try (destruct Hs as [[=] _]; fail).
        * rewrite <- Heq in Htj. done.
        * assert (repeats_allocated queries out = true) as Hyes; [|congruence].
          apply repeats_allocated_spec.
          exists i, j, qi, qj, oi. repeat split; try done.
          exists l. split; [done|]. congruence.
    - pose proof (getNextRefIdChar_spec (take j out)) as Hs.
      rewrite <- Hrj in Hs.
      destruct (refId oj) as [| | | |l| |] eqn:Hojl;
        try (destruct Hs as [[=] _]; fail).
      + assert (refId oi = VUndef) as Hiu by congruence.
        destruct (ensured_undefined i qi oi Hqi Hoi Hiu) as [Hti H26].
        unfold letter_slots in Hbound.
        rewrite <- (take_drop_middle queries i qi Hqi), List.filter_app in Hbound.
        rewrite length_app in Hbound. simpl in Hbound.
        assert (letter_slot qi = true) as Hsi
          by (unfold letter_slot; by rewrite Hti).
        rewrite Hsi in Hbound. simpl in Hbound.
        assert (1 <= length (List.filter letter_slot (drop (S i) queries))).
        { apply (filter_length_pos _ _ (j - S i) qj).
          - rewrite lookup_drop. by replace (S i + (j - S i)) with j by lia.
          - unfold letter_slot. by rewrite Htj. }
        lia.
      + destruct Hs as [_ Hfresh]. apply Hfresh. rewrite Hj, <- Hi.
        unfold refIds. apply list_elem_of_fmap. exists oi. split; [done|].
        apply (list_elem_of_lookup_2 _ i). by rewrite lookup_take_lt. }
  apply NoDup_alt. intros i j x Hi Hj.
  destruct (Nat.lt_trichotomy i j) as [Hij|[Hij|Hij]]; [|done|].
  - destruct (Hlt i j x Hij Hi Hj).
  - destruct (Hlt j i x Hij Hj Hi).
Qed.

Lemma ensured_distinct_inv :
  NoDup (refIds out) ->
  NoDup (kept_refIds queries) /\ repeats_allocated queries out = false
  /\ letter_slots queries <= 27.
Proof.
  intros Hnd. split; [|split].
  - by apply (sublist_NoDup _ (refIds out)), ensured_kept_sublist.
  - destruct (repeats_allocated queries out) eqn:Hrep; [|done]. exfalso.
    apply repeats_allocated_spec in Hrep
      as (i & j & qi & qj & oi & Hij & Hqi & Hqj & Hoi & Hti & Htj & l & Hr & Hrj).
    destruct (ensured_lookup queries out Hens j qj Hqj) as (oj & Hoj & Hroj).
    rewrite Htj in Hroj.
    assert (i = j); [|lia].
    apply (proj1 (NoDup_alt (refIds out)) Hnd i j (VStr l)); unfold refIds;
      rewrite list_lookup_fmap.
    + by rewrite Hoi; simpl; rewrite Hr.
    + by rewrite Hoj; simpl; rewrite Hroj, Hrj.
  - set (P := fun v => is_letter v
                       || match v with VUndef => true | _ => false end).
    unfold letter_slots.
    transitivity (length (List.filter (fun o => P (refId o)) out)).
    + apply filter_length_le.
      apply (ensured_Forall2 queries out Hens (fun q o =>
               letter_slot q = true -> P (refId o) = true)).
      intros i q o _ Ho Hr Hslot. unfold letter_slot in Hslot. unfold P.
      destruct (truthy (refId q)); [simpl in Hslot; by rewrite Hr, Hslot|].
      pose proof (getNextRefIdChar_spec (take i out)) as Hs. rewrite <- Hr in Hs.
      destruct (refId o) as [| | | |l| |]; try (by destruct Hs as [[=] _]).
      apply orb_true_intro. left. apply is_letter_spec. exists l. by destruct Hs.
    + rewrite <- (filter_fmap_length refId P).
      change 27 with (length (VUndef :: (VStr <$> letters))).
      apply pool_bound.
      * apply (sublist_NoDup _ (refIds out)); [done|apply filter_sublist].
      * apply Forall_forall. intros v Hv.
        apply list_elem_of_In, filter_In in Hv as [_ Hv]. unfold P in Hv.
        apply orb_prop in Hv as [Hv|Hv].
        -- apply is_letter_spec in Hv as (l & -> & Hl). right.
           apply list_elem_of_fmap. by exists l.
        -- destruct v; try done. left.
Qed.

End Distinct.

Lemma ensureQueries_ensured q0 (queries : list object) w :
  ensured (q0 :: queries) (ensureQueries (Some (q0 :: queries)) w).1.
Proof.
  unfold ensureQueries.
  destruct (ensureQueries_loop_items (q0 :: queries) 0 [] w)
    as (tail & Hout & Hlen & Hall).
  rewrite Hout. simpl app. split; [done|]. intros i q Hq.
  destruct (Hall i q Hq) as (prefix & _ & Ho). eexists. split; [exact Ho|].
  rewrite refId_ensured. fold (refId q). by destruct (truthy (refId q)).
Qed.

(** C2, as amended.  In the batch that [ensureQueries] returns every query
    keeps its non-empty ref-id, and a query without one gets what
    [getNextRefIdChar] allocates for the part of the output batch before
    it.  Take (a) the non-empty ref-ids of the input are pairwise distinct,
    (b) no query arrives with a ref-id that is the letter allocated to a
    query before it, and count the letter slots: the queries without a
    ref-id and those whose ref-id is a capital letter.  The ref-ids of the
    batch are pairwise distinct and all non-empty, every allocation having
    found a letter, exactly when (a), (b) and the letter slots are at most
    26.  They are pairwise distinct exactly when (a), (b) and the letter
    slots are at most 27, the one past 26 being a query that gets
    [undefined] for want of a letter. *)
Theorem ensureQueries_distinct_refIds (queries : list object) w :
  let out := (ensureQueries (Some queries) w).1 in
  (forall i q, queries !! i = Some q ->
     exists o, out !! i = Some o
       /\ refId o = if truthy (refId q) then refId q
                    else getNextRefIdChar (take i out))
  /\ (NoDup (refIds out) /\ Forall (fun o => truthy (refId o) = true) out
      <-> NoDup (kept_refIds queries)
          /\ repeats_allocated queries out = false
          /\ letter_slots queries <= 26)
  /\ (NoDup (refIds out)
      <-> NoDup (kept_refIds queries)
          /\ repeats_allocated queries out = false
          /\ letter_slots queries <= 27).
Proof.
  intros out. subst out. destruct queries as [|q0 queries].
  - split; [intros i q Hq; inversion Hq|].
    simpl. unfold eff_bind. destruct (generateKey 0 w). simpl.
    assert (forall n, NoDup (kept_refIds []) /\ false = false
                      /\ letter_slots [] <= n) as Hempty.
    { intros n. split; [apply NoDup_nil_2|]. split; [done|].
      unfold letter_slots. simpl. lia. }
    split; (split; [intros _; apply Hempty|intros _]).
    + split; [apply NoDup_singleton|]. by apply Forall_singleton.
    + apply NoDup_singleton.
  - pose proof (ensureQueries_ensured q0 queries w) as Hens.
    split; [apply Hens|]. split; split.
    + intros [Hnd Ht]. by apply (ensured_NoDup_inv _ _ Hens).
    + intros (Hkept & Hrep & Hbound). by apply (ensured_NoDup _ _ Hens).
    + apply (ensured_distinct_inv _ _ Hens).
    + intros (Hkept & Hrep & Hbound). by apply (ensured_distinct _ _ Hens).
Qed.

(** A query without a ref-id, then one that arrives with the letter [B], then
    another one without a ref-id: the batch gets [A], [B], [C]. *)
Lemma ensureQueries_distinct_refIds_witness :
  let queries := [[]; [("refId", VStr "B")]; [("expr", VStr "up")]] in
  let out := (ensureQueries (Some queries) sample_world).1 in
  NoDup (refIds out) /\ Forall (fun o => truthy (refId o) = true) out.
Proof.
  apply (proj2 (proj1 (proj2 (ensureQueries_distinct_refIds
                                [[]; [("refId", VStr "B")]; [("expr", VStr "up")]]
                                sample_world)))).
  split; [|split].
  - vm_compute. apply NoDup_singleton.
  - reflexivity.
  - vm_compute. lia.
Defined.

(** C2 fails as stated: two queries that arrive with the same ref-id both
    keep it; a ref-id allocated to an earlier query can be the one a later
    query arrives with; and of 28 queries without a ref-id the last two get
    no letter but [undefined], both of them. *)
Lemma ensureQueries_duplicate_refIds :
  refIds (ensureQueries (Some [[("refId", VStr "A")]; [("refId", VStr "A")]])
            sample_world).1
  = [VStr "A"; VStr "A"]
  /\ refIds (ensureQueries (Some [[]; [("refId", VStr "A")]]) sample_world).1
     = [VStr "A"; VStr "A"]
  /\ ~ NoDup [VStr "A"; VStr "A"]
  /\ drop 26 (refIds (ensureQueries (Some (replicate 28 [])) sample_world).1)
     = [VUndef; VUndef]
  /\ ~ NoDup [VUndef; VUndef].
Proof.
  split; [vm_compute; reflexivity|]. split; [vm_compute; reflexivity|].
  split; [|split; [vm_compute; reflexivity|]];
    intros Hnd; apply NoDup_cons in Hnd as [Hnin _]; apply Hnin; left.
Qed.

Example ensureQueries_gap_before_letter :
  refIds (ensureQueries (Some [[]; [("refId", VStr "B")]]) sample_world).1
  = [VStr "A"; VStr "B"].
Proof. vm_compute. reflexivity. Qed.

(** Of 27 queries without a ref-id the last one gets [undefined], once: the
    ref-ids of the batch are still pairwise distinct. *)
Example ensureQueries_one_undefined :
  let out := (ensureQueries (Some (replicate 27 [])) sample_world).1 in
  drop 25 (refIds out) = [VStr "Z"; VUndef] /\ NoDup (refIds out).
Proof.
  split; [vm_compute; reflexivity|].
  apply (ensured_distinct (replicate 27 [])); [apply ensureQueries_ensured| | |].
  - vm_compute. apply NoDup_nil_2.
  - vm_compute. reflexivity.
  - vm_compute. lia.
Qed.

(** [ensureQueries([])] and [ensureQueries(undefined)] return exactly one
    query, with ref-id [A] and a key. *)
Example ensureQueries_empty :
  (ensureQueries (Some []) sample_world).1
  = [[("refId", VStr "A"); ("key", VStr "Q-1560000000000-0.1-0")]]
  /\ (ensureQueries None sample_world).1
     = [[("refId", VStr "A"); ("key", VStr "Q-1560000000000-0.1-0")]].
Proof. split; vm_compute; reflexivity. Qed.

(** ** Non-empty queries *)

Lemma values_by_key (q : object) :
  NoDup (Object_keys q) -> map (fun k => get q k) (Object_keys q) = map snd q.
Proof.
  induction q as [|[k v] q IH]; [done|]. simpl. intros [Hk Hq]%NoDup_cons.
  rewrite get_cons_eq. f_equal. rewrite <- IH by done.
  apply map_ext_in. intros k' Hk'. apply get_cons_ne.
  intros ->. by apply Hk, list_elem_of_In.
Qed.

Lemma truthy_count (q : object) :
  NoDup (Object_keys q) ->
  length (List.filter truthy (map (fun k => get q k) (Object_keys q)))
  = truthy_fields q.
Proof.
  intros Hq. rewrite values_by_key by done. unfold truthy_fields.
  clear Hq. induction q as [|[k v] q IH]; [done|]. simpl.
  destruct (truthy v); simpl; by rewrite IH.
Qed.

Lemma truthy_fields_split (q : object) :
  NoDup (Object_keys q) ->
  truthy_fields q
  = truthy_fields (clearQueryKeys q)
    + (if truthy (get q "key") then 1 else 0)
    + (if truthy (get q "refId") then 1 else 0).
Proof.
  induction q as [|[k v] q IH]; [done|]. simpl. intros [Hk Hq]%NoDup_cons.
  specialize (IH Hq). unfold truthy_fields in *. simpl.
  destruct (String.eqb_spec k "key") as [->|Hkey]; simpl.
  - rewrite get_cons_eq, get_cons_ne by done.
    rewrite (get_absent "key" q) in IH by done. simpl in IH.
    destruct (truthy v); simpl; lia.
  - destruct (String.eqb_spec k "refId") as [->|Hid]; simpl.
    + rewrite get_cons_eq, get_cons_ne by done.
      rewrite (get_absent "refId" q) in IH by done. simpl in IH.
      destruct (truthy v); simpl; lia.
    + rewrite !get_cons_ne by done. destruct (truthy v); simpl; lia.
Qed.

(** C5, as amended.  On queries with distinct property names,
    [hasNonEmptyQuery] returns true exactly when some query has more than
    two properties with a truthy value, [key] and [refId] counted among
    them; for a query whose [key] and [refId] are truthy that is: at least
    one further property with a truthy value. *)
Theorem hasNonEmptyQuery_counts_all_fields (queries : list object) :
  Forall (fun q => NoDup (Object_keys q)) queries ->
  (hasNonEmptyQuery queries = true
   <-> Exists (fun q => 2 < truthy_fields q) queries)
  /\ Forall (fun q =>
       truthy (get q "key") = true -> truthy (get q "refId") = true ->
       (2 < truthy_fields q <-> 0 < truthy_fields (clearQueryKeys q))) queries.
Proof.
  intros Hwf. split.
  - unfold hasNonEmptyQuery. rewrite existsb_exists, Exists_exists. split.
    + intros (q & Hin & Hq). exists q. apply list_elem_of_In in Hin.
      split; [done|]. apply Nat.ltb_lt in Hq.
      rewrite truthy_count in Hq; [done|].
      by apply (proj1 (Forall_forall _ _) Hwf).
    + intros (q & Hin & Hq). exists q. split; [by apply list_elem_of_In|].
      apply Nat.ltb_lt. rewrite truthy_count; [done|].
      by apply (proj1 (Forall_forall _ _) Hwf).
  - eapply Forall_impl; [exact Hwf|]. intros q Hq Hk Hr. simpl in *.
    rewrite (truthy_fields_split q Hq), Hk, Hr. lia.
Qed.

(** A keyed query with the single datasource field [expr]. *)
Lemma hasNonEmptyQuery_witness :
  (hasNonEmptyQuery [q_up] = true <-> Exists (fun q => 2 < truthy_fields q) [q_up])
  /\ Forall (fun q =>
       truthy (get q "key") = true -> truthy (get q "refId") = true ->
       (2 < truthy_fields q <-> 0 < truthy_fields (clearQueryKeys q))) [q_up].
Proof.
  apply (hasNonEmptyQuery_counts_all_fields [q_up]).
  apply Forall_cons. split; [|apply Forall_nil_2].
  apply (bool_decide_unpack _). by vm_compute.
Defined.

(** C5 fails as stated: [q_up] has one truthy field besides [key] and
    [refId], not more than two, and [hasNonEmptyQuery] returns true. *)
Lemma hasNonEmptyQuery_one_field :
  hasNonEmptyQuery [q_up] = true
  /\ ~ Exists (fun q => 2 < truthy_fields (clearQueryKeys q)) [q_up].
Proof.
  split; [reflexivity|]. intros Hex. apply Exists_cons in Hex as [Hq|Hex].
  - vm_compute in Hq. lia.
  - by apply Exists_nil in Hex.
Qed.

(** ** Building a transaction *)

Lemma get_configure (queryOptions q : object) k :
  NoDup (Object_keys queryOptions) -> NoDup (Object_keys q) ->
  get (configure queryOptions q) k
  = if has_field k queryOptions then get queryOptions k else get q k.
Proof.
  intros Ho Hq. unfold configure. rewrite get_spread by done.
  destruct (has_field k queryOptions); [done|].
  rewrite get_spread by done.
  destruct (has_field k q) eqn:E; [done|].
  unfold get at 1. simpl. unfold has_field in E. unfold get.
  by destruct (lookup_field k q).
Qed.

Lemma combinedKey_concat (queries : list object) :
  combinedKey queries = concat_strings (key_strings queries).
Proof.
  unfold combinedKey.
  assert (forall init,
    fold_left (fun combinedKey query => combinedKey +:+ ToString (get query "key"))
      queries init
    = init +:+ concat_strings (key_strings queries)) as Hgen.
  { induction queries as [|q queries IH]; intros init; simpl.
    - by rewrite string_app_empty_r.
    - rewrite IH. unfold concat_strings, key_strings. simpl foldr.
      by rewrite string_app_assoc. }
  by rewrite Hgen.
Qed.

Lemma has_char_app c a b : has_char c (a +:+ b) = has_char c a || has_char c b.
Proof.
  induction a as [|c' a IH]; [done|].
  rewrite ReferenceFacts.app_String. simpl. rewrite IH. by rewrite orb_assoc.
Qed.

(** Two texts without [Q], each followed by nothing or by a [Q]. *)
Lemma Q_split (r r' c c' : string) :
  has_char "Q" r = false -> has_char "Q" r' = false ->
  (c = EmptyString \/ exists t, c = String "Q" t) ->
  (c' = EmptyString \/ exists t, c' = String "Q" t) ->
  r +:+ c = r' +:+ c' -> r = r' /\ c = c'.
Proof.
  revert r'. induction r as [|a r IH]; intros [|a' r'] Hr Hr' Hc Hc' E.
  - by rewrite !ReferenceFacts.app_Empty in E.
  - rewrite ReferenceFacts.app_Empty, ReferenceFacts.app_String in E.
    simpl in Hr'. apply orb_false_elim in Hr' as [Ha' _].
    destruct Hc as [->|[t ->]]; [done|]. injection E as <- _. done.
  - rewrite ReferenceFacts.app_Empty, ReferenceFacts.app_String in E.
    simpl in Hr. apply orb_false_elim in Hr as [Ha _].
    destruct Hc' as [->|[t ->]]; [done|]. injection E as -> _. done.
  - rewrite !ReferenceFacts.app_String in E. injection E as -> E.
    simpl in Hr, Hr'. apply orb_false_elim in Hr as [_ Hr], Hr' as [_ Hr'].
    destruct (IH r' Hr Hr' Hc Hc' E) as [-> ->]. done.
Qed.

Lemma generated_key_string q :
  generated_key q = true ->
  exists r, ToString (get q "key") = String "Q" r /\ has_char "Q" r = false.
Proof.
  unfold generated_key. destruct (get q "key") as [| | | |[|c r]| |]; try done.
  intros [->%Ascii.eqb_eq Hr%negb_true_iff]%andb_prop. by exists r.
Qed.

Lemma concat_generated_head queries :
  forallb generated_key queries = true ->
  concat_strings (key_strings queries) = EmptyString
  \/ exists t, concat_strings (key_strings queries) = String "Q" t.
Proof.
  destruct queries as [|q queries]; [by left|]. simpl.
  intros [Hq _]%andb_prop. right.
  destruct (generated_key_string q Hq) as (r & -> & _).
  rewrite ReferenceFacts.app_String. by eexists.
Qed.

(** The concatenation of generated keys tells the keys apart. *)
Lemma concat_generated_inj queries : forall queries',
  forallb generated_key queries = true ->
  forallb generated_key queries' = true ->
  concat_strings (key_strings queries) = concat_strings (key_strings queries') ->
  key_strings queries = key_strings queries'.
Proof.
  induction queries as [|q queries IH]; intros [|q' queries'] Hg Hg' E.
  - done.
  - simpl in Hg'. apply andb_prop in Hg' as [Hq' _].
    destruct (generated_key_string q' Hq') as (r' & Hk' & _).
    simpl in E. rewrite Hk', ReferenceFacts.app_String in E. done.
  - simpl in Hg. apply andb_prop in Hg as [Hq _].
    destruct (generated_key_string q Hq) as (r & Hk & _).
    simpl in E. rewrite Hk, ReferenceFacts.app_String in E. done.
  - simpl in Hg, Hg'. apply andb_prop in Hg as [Hq Hg], Hg' as [Hq' Hg'].
    destruct (generated_key_string q Hq) as (r & Hk & Hr).
    destruct (generated_key_string q' Hq') as (r' & Hk' & Hr').
    simpl in *. rewrite Hk, Hk' in *.
    rewrite !ReferenceFacts.app_String in E. injection E as E.
    apply Q_split in E as [-> E]; try done;
      try (by apply concat_generated_head).
    by rewrite (IH queries' Hg Hg' E).
Qed.

Lemma has_char_Q_uint d : has_char "Q" (NilEmpty.string_of_uint d) = false.
Proof. induction d; simpl; auto. Qed.

Lemma has_char_Q_number n : has_char "Q" (number_to_string n) = false.
Proof.
  unfold number_to_string. destruct n as [|p|p]; [done| |]; simpl.
  - unfold NilZero.string_of_uint.
    destruct (Pos.to_uint p); try done; apply has_char_Q_uint.
  - unfold NilZero.string_of_uint.
    destruct (Pos.to_uint p); try done; apply has_char_Q_uint.
Qed.

(** [generateKey] gives keys of that shape, as long as the rendering of the
    random number has no [Q] (a number has none). *)
Lemma generateKey_generated index w :
  has_char "Q" (random w (random_draws w)) = false ->
  generated_key [("key", VStr (generateKey index w).1)] = true.
Proof.
  intros Hr. unfold generateKey, eff_bind, Date_now, Math_random, eff_ret.
  simpl. unfold generated_key, get. simpl.
  change ("Q-" +:+ ?s) with (String "Q" (String "-" s)).
  apply negb_true_iff.
  rewrite !has_char_app, Hr, has_char_Q_number. simpl.
  unfold nat_to_string. by rewrite has_char_Q_number.
Qed.

(** C8, as amended.  For option and query objects with distinct property
    names, whose format and keys [ToString] renders as JavaScript does,
    [buildQueryTransaction] returns a transaction whose [options.targets]
    are the queries, in order, each merged with the shared options (a
    property present in the options is read from the options, any other
    from the query); whose [options.panelId] is the format, a dash and the
    concatenation of the queries' keys in batch order; and whose [queries]
    are the batch as given, with [done] false and [latency] 0.  With the
    same options another batch gets the same [panelId] exactly when its keys
    concatenate to the same string; when the keys of both batches have the
    shape that [generateKey] gives them, that is exactly when the two
    batches have the same sequence of keys, so that reordering such a batch
    into another sequence of keys changes the [panelId]. *)
Theorem buildQueryTransaction_spec queries resultType queryOptions range
    queryIntervals scanning w :
  NoDup (Object_keys queryOptions) ->
  Forall (fun q => NoDup (Object_keys q)) queries ->
  prints_plainly (get queryOptions "format") = true ->
  Forall (fun q => prints_plainly (get q "key") = true) queries ->
  let build := fun qs w' =>
    (buildQueryTransaction qs resultType queryOptions range queryIntervals
       scanning w').1 in
  let t := build queries w in
  let targets := Options.targets (Transaction.options t) in
  length targets = length queries
  /\ (forall i q, queries !! i = Some q ->
        exists target, targets !! i = Some target
          /\ forall k, get target k
                       = if has_field k queryOptions then get queryOptions k
                         else get q k)
  /\ Options.panelId (Transaction.options t)
     = ToString (get queryOptions "format") +:+ "-"
       +:+ concat_strings (key_strings queries)
  /\ (forall queries' w',
        Forall (fun q => prints_plainly (get q "key") = true) queries' ->
        (Options.panelId (Transaction.options (build queries' w'))
         = Options.panelId (Transaction.options t)
         <-> concat_strings (key_strings queries')
             = concat_strings (key_strings queries))
        /\ (forallb generated_key queries = true ->
            forallb generated_key queries' = true ->
            (Options.panelId (Transaction.options (build queries' w'))
             = Options.panelId (Transaction.options t)
             <-> key_strings queries' = key_strings queries)))
  /\ Transaction.queries t = queries
  /\ Transaction.done t = false
  /\ Transaction.latency t = 0%Z.
Proof.
  intros Ho Hq _ _ build t targets.
  assert (forall qs w', Options.panelId (Transaction.options (build qs w'))
            = ToString (get queryOptions "format") +:+ "-"
              +:+ concat_strings (key_strings qs)) as Hpanel.
  { intros qs w'. subst build. unfold buildQueryTransaction, eff_bind. simpl.
    destruct (generateKey 0 w'). simpl. by rewrite combinedKey_concat. }
  assert (targets = map (configure queryOptions) queries) as Htargets.
  { subst targets t build. unfold buildQueryTransaction, eff_bind. simpl.
    by destruct (generateKey 0 w). }
  split; [by rewrite Htargets, length_map|].
  split.
  { intros i q Hi. exists (configure queryOptions q). rewrite Htargets.
    split; [by rewrite list_lookup_fmap, Hi|].
    intros k. apply get_configure; [done|].
    eapply (proj1 (Forall_forall _ _) Hq), list_elem_of_lookup_2, Hi. }
  split; [apply Hpanel|].
  split.
  { intros queries' w' _.
    assert (Options.panelId (Transaction.options (build queries' w'))
            = Options.panelId (Transaction.options t)
            <-> concat_strings (key_strings queries')
                = concat_strings (key_strings queries)) as Hiff.
    { subst t. rewrite !Hpanel. split; [|by intros ->].
      intros Heq. by do 2 apply (inj (String.append _)) in Heq. }
    split; [exact Hiff|]. intros Hg Hg'. rewrite Hiff.
    split; [by apply concat_generated_inj|by intros ->]. }
  subst t build. unfold buildQueryTransaction, eff_bind. simpl.
  by destruct (generateKey 0 w).
Qed.

(** Two keyed queries, the first of which has a [format] of its own that
    the shared options override. *)
Lemma buildQueryTransaction_witness :
  let build := fun qs w' =>
    (buildQueryTransaction qs Graph sample_options sample_range
       sample_intervals false w').1 in
  let t := build [q_first; q_second] sample_world in
  let targets := Options.targets (Transaction.options t) in
  length targets = length [q_first; q_second]
  /\ (forall i q, [q_first; q_second] !! i = Some q ->
        exists target, targets !! i = Some target
          /\ forall k, get target k
                       = if has_field k sample_options then get sample_options k
                         else get q k)
  /\ Options.panelId (Transaction.options t)
     = ToString (get sample_options "format") +:+ "-"
       +:+ concat_strings (key_strings [q_first; q_second])
  /\ (forall queries' w',
        Forall (fun q => prints_plainly (get q "key") = true) queries' ->
        (Options.panelId (Transaction.options (build queries' w'))
         = Options.panelId (Transaction.options t)
         <-> concat_strings (key_strings queries')
             = concat_strings (key_strings [q_first; q_second]))
        /\ (forallb generated_key [q_first; q_second] = true ->
            forallb generated_key queries' = true ->
            (Options.panelId (Transaction.options (build queries' w'))
             = Options.panelId (Transaction.options t)
             <-> key_strings queries' = key_strings [q_first; q_second])))
  /\ Transaction.queries t = [q_first; q_second]
  /\ Transaction.done t = false
  /\ Transaction.latency t = 0%Z.
Proof.
  apply (buildQueryTransaction_spec [q_first; q_second] Graph sample_options
           sample_range sample_intervals false sample_world).
  - apply (bool_decide_unpack _). by vm_compute.
  - repeat apply Forall_cons_2; try apply Forall_nil_2;
      apply (bool_decide_unpack _); by vm_compute.
  - reflexivity.
  - repeat apply Forall_cons_2; try apply Forall_nil_2; reflexivity.
Defined.

(** C8 fails as stated: reordering the batch need not change the
    [panelId].  The keys [a] and [aa] concatenate to the same string in
    either order, and so do two equal keys. *)
Lemma buildQueryTransaction_reorder_same_panelId :
  let panelId_of := fun qs =>
    Options.panelId (Transaction.options
      (buildQueryTransaction qs Graph sample_options sample_range
         sample_intervals false sample_world).1) in
  let a := [("refId", VStr "A"); ("key", VStr "a")] in
  let aa := [("refId", VStr "B"); ("key", VStr "aa")] in
  let b := [("refId", VStr "B"); ("key", VStr "a")] in
  panelId_of [a; aa] = panelId_of [aa; a] /\ [a; aa] <> [aa; a]
  /\ panelId_of [a; b] = panelId_of [b; a] /\ [a; b] <> [b; a].
Proof. repeat split; (reflexivity || discriminate). Qed.

(** The generated keys of [q_first] and [q_second]: the other order gives
    another [panelId]. *)
Example buildQueryTransaction_reorder_generated :
  let panelId_of := fun qs =>
    Options.panelId (Transaction.options
      (buildQueryTransaction qs Graph sample_options sample_range
         sample_intervals false sample_world).1) in
  forallb generated_key [q_first; q_second] = true
  /\ panelId_of [q_second; q_first] <> panelId_of [q_first; q_second].
Proof. split; [reflexivity|]. vm_compute. discriminate. Qed.

(** The [panelId] of a batch and of the same batch in the other order, and
    the merged first target. *)
Example buildQueryTransaction_order :
  let panelId_of := fun qs =>
    Options.panelId (Transaction.options
      (buildQueryTransaction qs Graph sample_options sample_range
         sample_intervals false sample_world).1) in
  panelId_of [q_first; q_second] = "time_series-Q-1-0.1-0Q-1-0.2-1"
  /\ panelId_of [q_second; q_first] = "time_series-Q-1-0.2-1Q-1-0.1-0"
  /\ Options.targets (Transaction.options
       (buildQueryTransaction [q_first] Graph sample_options sample_range
          sample_intervals false sample_world).1)
     = [[("refId", VStr "A"); ("key", VStr "Q-1-0.1-0"); ("expr", VStr "up");
         ("format", VStr "time_series"); ("interval", VStr "1s");
         ("maxDataPoints", VNum 500)]].
Proof. repeat split; vm_compute; reflexivity. Qed.

(** ** Colours of time series *)

Lemma colorIndexOffset_loop_spec h transaction others : forall acc,
  colorIndexOffset_loop h transaction others acc
  = match offset_spec h transaction others with
    | Some n => Normal (acc + n)
    | None => Throw TypeError
    end.
Proof.
  unfold offset_spec.
  induction others as [|other rest IH]; intros acc; simpl.
  - by rewrite Nat.add_0_r.
  - destruct (Nat.eqb other transaction); simpl; [by rewrite Nat.add_0_r|].
    fold (done_graph h other). destruct (done_graph h other); simpl; [|apply IH].
    assert (series_count h other = length <$> Transaction.result (h other))
      as -> by done.
    destruct (Transaction.result (h other)) as [series|]; simpl; [|done].
    rewrite IH.
    destruct (mapM (series_count h) _) as [counts|]; simpl; [|done].
    f_equal. unfold id. lia.
Qed.

Lemma first_occurrence_Some transaction allTransactions n :
  first_occurrence transaction allTransactions = Some n
  <-> allTransactions !! n = Some transaction
      /\ transaction ∉ take n allTransactions.
Proof.
  revert n. induction allTransactions as [|other rest IH]; intros n; simpl.
  - split; [done|]. by intros [? _].
  - destruct (Nat.eqb_spec other transaction) as [->|Hne].
    + split.
      * intros [= <-]. split; [done|]. simpl. apply not_elem_of_nil.
      * intros [Hn Hnin]. destruct n as [|n]; [done|].
        exfalso. apply Hnin. simpl. left.
    + destruct (first_occurrence transaction rest) as [m|] eqn:E; simpl.
      * split.
        -- intros [= <-]. simpl. destruct (proj1 (IH m) eq_refl) as [Hm Hnin].
           split; [done|]. intros [?|?]%elem_of_cons; done.
        -- intros [Hn Hnin]. destruct n as [|n]; simpl in *; [congruence|].
           f_equal. assert (Some m = Some n) as [= ->]; [|done].
           apply IH. split; [done|]. intros Hin. apply Hnin. by right.
      * split; [done|]. intros [Hn Hnin].
        destruct n as [|n]; simpl in *; [congruence|].
        assert (None = Some n); [|done].
        apply IH. split; [done|]. intros Hin. apply Hnin. by right.
Qed.

Lemma first_occurrence_None transaction allTransactions :
  first_occurrence transaction allTransactions = None
  <-> transaction ∉ allTransactions.
Proof.
  induction allTransactions as [|other rest IH]; simpl.
  - split; [intros _; apply not_elem_of_nil|done].
  - destruct (Nat.eqb_spec other transaction) as [->|Hne].
    + split; [done|]. intros Hnin. exfalso. apply Hnin. left.
    + destruct (first_occurrence transaction rest) as [m|]; simpl.
      * split; [done|]. intros Hnin. exfalso.
        assert (transaction ∉ rest) as Hr by (intros ?; apply Hnin; by right).
        by apply IH in Hr.
      * split; [|done]. intros _ [?|Hin]%elem_of_cons; [done|].
        by apply (proj1 IH).
Qed.

Lemma strictly_before_first_occurrence transaction allTransactions :
  strictly_before transaction allTransactions
  = match first_occurrence transaction allTransactions with
    | Some n => take n allTransactions
    | None => allTransactions
    end.
Proof.
  induction allTransactions as [|other rest IH]; [done|]. simpl.
  destruct (Nat.eqb other transaction); [done|]. rewrite IH.
  by destruct (first_occurrence transaction rest).
Qed.

Lemma offset_spec_counted h transaction allTransactions :
  offset_spec h transaction allTransactions
  = counted_offset h transaction allTransactions.
Proof.
  unfold offset_spec, counted_offset, counted_transactions.
  by rewrite strictly_before_first_occurrence.
Qed.

Lemma series_counts_total h (l : list ref) :
  Forall (fun other => is_Some (Transaction.result (h other))) l ->
  sum_list <$> mapM (series_count h) l
  = Some (sum_list
            (map (fun other => length (default [] (Transaction.result (h other))))
                 l)).
Proof.
  induction 1 as [|other l [series Hs] _ IH]; [done|].
  change (mapM (series_count h) (other :: l))
    with (y ← series_count h other; k ← mapM (series_count h) l; mret (y :: k)).
  destruct (mapM (series_count h) l) as [counts|]; [|done].
  unfold series_count. rewrite Hs. simpl in *.
  injection IH as IH. by rewrite <- IH, Hs.
Qed.

Section ColorFacts.
Context `{Env}.

(** C7, as amended.  The transactions that count are the done Graph
    transactions listed before the first occurrence of [transaction], or
    all the listed ones when [transaction] does not occur in the list.  When
    each of them carries a result, [makeTimeSeriesList] gives the series at
    local index [i] the colour [colors[(offset + i) mod colors.length]],
    [offset] being their total series count ([undefined] when the palette is
    empty); when one of them carries no result, reading its length throws a
    [TypeError].  In particular, after two done Graph transactions with 2 and
    3 series the first series of the current transaction gets the colour at
    index [5 mod colors.length].  For a transaction that occurs in the list,
    what counts is what the specification names: the done Graph transactions
    before its first occurrence. *)
Theorem makeTimeSeriesList_colors :
  (forall h dataList transaction allTransactions,
     match counted_offset h transaction allTransactions with
     | Some offset =>
         exists out,
           makeTimeSeriesList h dataList transaction allTransactions = Normal out
           /\ length out = length dataList
           /\ forall i s, out !! i = Some s ->
                color s = match colors !! ((offset + i) mod length colors) with
                          | Some c => VStr c
                          | None => VUndef
                          end
     | None =>
         makeTimeSeriesList h dataList transaction allTransactions
         = Throw TypeError
     end)
  /\ (forall (h : heap) t1 t2 current later series1 series2 first more,
        t1 <> current -> t2 <> current ->
        Transaction.resultType (h t1) = Graph -> Transaction.done (h t1) = true ->
        Transaction.result (h t1) = Some series1 -> length series1 = 2 ->
        Transaction.resultType (h t2) = Graph -> Transaction.done (h t2) = true ->
        Transaction.result (h t2) = Some series2 -> length series2 = 3 ->
        exists s out,
          makeTimeSeriesList h (first :: more) current
            (t1 :: t2 :: current :: later) = Normal (s :: out)
          /\ color s = match colors !! (5 mod length colors) with
                       | Some c => VStr c
                       | None => VUndef
                       end)
  /\ (forall h transaction allTransactions,
        transaction ∈ allTransactions ->
        exists n,
          allTransactions !! n = Some transaction
          /\ (transaction ∉ take n allTransactions)
          /\ listed_before transaction allTransactions = take n allTransactions
          /\ counted_transactions h transaction allTransactions
             = List.filter (done_graph h)
                           (listed_before transaction allTransactions)
          /\ (Forall (fun other => is_Some (Transaction.result (h other)))
                     (counted_transactions h transaction allTransactions) ->
              counted_offset h transaction allTransactions
              = Some (specified_offset h transaction allTransactions))).
Proof.
  split; [|split].
  - intros h dataList transaction allTransactions.
    unfold makeTimeSeriesList.
    rewrite colorIndexOffset_loop_spec, offset_spec_counted.
    destruct (counted_offset h transaction allTransactions) as [offset|];
      simpl; [|done].
    eexists. split; [reflexivity|]. split; [apply length_imap|].
    intros i s Hs. rewrite list_lookup_imap in Hs.
    destruct (dataList !! i); simpl in Hs; [|done]. by injection Hs as <-.
  - intros h t1 t2 current later series1 series2 first more
      Hn1 Hn2 Hg1 Hd1 Hr1 Hl1 Hg2 Hd2 Hr2 Hl2.
    unfold makeTimeSeriesList. simpl.
    apply Nat.eqb_neq in Hn1, Hn2.
    rewrite Hn1, Hn2, Hg1, Hd1, Hr1, Hg2, Hd2, Hr2, Nat.eqb_refl, Hl1, Hl2. simpl.
    eexists _, _. split; [reflexivity|]. done.
  - intros h transaction allTransactions Hin.
    destruct (first_occurrence transaction allTransactions) as [n|] eqn:E.
    2:{ by apply first_occurrence_None in E. }
    exists n. destruct (proj1 (first_occurrence_Some _ _ _) E) as [Hn Hnin].
    unfold counted_offset, specified_offset, counted_transactions, listed_before.
    rewrite E. repeat split; try done.
    apply series_counts_total.
Qed.

End ColorFacts.

(** Two done Graph transactions with 2 and 3 series before the current
    one. *)
Lemma makeTimeSeriesList_colors_witness :
  exists s out,
    @makeTimeSeriesList reference_env sample_heap
       [[("target", VStr "up")]] 2 [0; 1; 2] = Normal (s :: out)
    /\ color s = match @colors reference_env !! (5 mod length (@colors reference_env)) with
                 | Some c => VStr c
                 | None => VUndef
                 end.
Proof.
  apply (proj1 (proj2 (makeTimeSeriesList_colors (H := reference_env)))
           sample_heap 0 1 2 [] [VObj []; VObj []] [VObj []; VObj []; VObj []]);
    (reflexivity || lia).
Defined.

(** C7 fails as stated, in two ways.  A done Graph transaction without a
    result before the current one (reference 2 of [sample_heap]) makes the
    call throw instead of assigning colours.  And for a transaction that does
    not occur in the list no entry is strictly before it, so that the offset
    of the specification is 0, yet the code counts the whole list: the first
    series gets the colour at index 5, not the one at index 0. *)
Lemma makeTimeSeriesList_colors_fail :
  @makeTimeSeriesList reference_env sample_heap [[("target", VStr "up")]] 3 [2; 3]
  = Throw TypeError
  /\ exists s,
       @makeTimeSeriesList reference_env sample_heap [[("target", VStr "up")]]
         7 [0; 1] = Normal [s]
       /\ listed_before 7 [0; 1] = []
       /\ specified_offset sample_heap 7 [0; 1] = 0
       /\ color s = @color_at reference_env 5 0
       /\ color s <> @color_at reference_env (specified_offset sample_heap 7 [0; 1]) 0.
Proof.
  split; [reflexivity|]. eexists. split; [reflexivity|].
  repeat split; try reflexivity. vm_compute. discriminate.
Qed.

(** ** History *)

Lemma fold_left_prepend {A B} (f : B -> A) (qs : list B) (h : list A) :
  fold_left (fun acc q => f q :: acc) qs h = rev (map f qs) ++ h.
Proof.
  revert h. induction qs as [|q qs IH]; intros h; simpl; [done|].
  by rewrite IH, <- app_assoc.
Qed.

Lemma truncate_take (l : list value) :
  (if MAX_HISTORY_ITEMS <? length l then take MAX_HISTORY_ITEMS l else l)
  = take MAX_HISTORY_ITEMS l.
Proof.
  destruct (Nat.ltb_spec MAX_HISTORY_ITEMS (length l)); [done|].
  by rewrite take_ge.
Qed.

Lemma updateHistory_eq history datasourceId queries w :
  updateHistory history datasourceId queries w
  = (take 100 (rev (map (fun q => HistoryItem q (clock w (clock_reads w))) queries)
               ++ history),
     {| clock := clock w; clock_reads := S (clock_reads w);
        random := random w; random_draws := random_draws w;
        store := <[historyKey datasourceId :=
                     VArr (take 100
                             (rev (map (fun q => HistoryItem q (clock w (clock_reads w)))
                                       queries) ++ history))]> (store w) |}).
Proof.
  unfold updateHistory, eff_bind, Date_now, store_setObject, eff_ret. simpl.
  by rewrite truncate_take, fold_left_prepend.
Qed.

Lemma updateHistory_length history datasourceId queries w :
  length (updateHistory history datasourceId queries w).1 <= 100.
Proof. rewrite updateHistory_eq. simpl. rewrite length_take. lia. Qed.

Lemma updateHistory_many_cons datasourceId queries calls history w :
  updateHistory_many ((datasourceId, queries) :: calls) history w
  = updateHistory_many calls (updateHistory history datasourceId queries w).1
      (updateHistory history datasourceId queries w).2.
Proof.
  cbn [updateHistory_many]. unfold eff_bind.
  by destruct (updateHistory history datasourceId queries w).
Qed.

Lemma updateHistory_many_bounded calls : forall history w,
  length history <= 100 -> length (updateHistory_many calls history w).1 <= 100.
Proof.
  induction calls as [|[ds qs] calls IH]; intros history w Hlen; [done|].
  rewrite updateHistory_many_cons. apply IH, updateHistory_length.
Qed.

(** C6.  The list returned by [updateHistory] has at most 100 items: it is
    the first 100 items of the new items, in the reverse of their input
    order and all stamped with the one timestamp read at the start of the
    call, followed by the previous items in their order.  The bound holds
    after any number of successive calls. *)
Theorem updateHistory_bounded_newest_first history datasourceId queries w :
  let ts := clock w (clock_reads w) in
  let history' := (updateHistory history datasourceId queries w).1 in
  length history' <= 100
  /\ history' = take 100 (rev (map (fun q => HistoryItem q ts) queries) ++ history)
  /\ forall call calls history0 w0,
       length (updateHistory_many (call :: calls) history0 w0).1 <= 100.
Proof.
  split; [apply updateHistory_length|]. split; [by rewrite updateHistory_eq|].
  intros [ds qs] calls history0 w0. rewrite updateHistory_many_cons.
  apply updateHistory_many_bounded, updateHistory_length.
Qed.

(** C10.  After [updateHistory] the store holds the returned list under the
    key [grafana.explore.history.<datasourceId>].  With an empty batch the
    write still happens, and the list returned and stored is the first 100
    items of the input history. *)
Theorem updateHistory_persists_result history datasourceId queries w :
  let r := updateHistory history datasourceId queries w in
  store r.2 !! ("grafana.explore.history." +:+ datasourceId) = Some (VArr r.1)
  /\ let r0 := updateHistory history datasourceId [] w in
     r0.1 = take 100 history
     /\ store r0.2 !! ("grafana.explore.history." +:+ datasourceId)
        = Some (VArr (take 100 history)).
Proof.
  rewrite !updateHistory_eq. simpl. unfold historyKey.
  by rewrite !lookup_insert_eq.
Qed.

(** * Further properties *)

(** ** Index suffixes *)

Lemma has_dash_app a b : has_dash (a +:+ b) = has_dash a || has_dash b.
Proof.
  induction a as [|c a IH]; [done|].
  rewrite ReferenceFacts.app_String. simpl. rewrite IH. by rewrite orb_assoc.
Qed.

Lemma after_last_dash_suffix p d :
  has_dash d = false -> after_last_dash (p +:+ "-" +:+ d) = d.
Proof.
  intros Hd. induction p as [|c p IH].
  - rewrite ReferenceFacts.app_Empty.
    change ("-" +:+ d) with (String "-" d). simpl. by rewrite Hd.
  - rewrite ReferenceFacts.app_String. simpl.
    rewrite has_dash_app. change ("-" +:+ d) with (String "-" d). simpl.
    by rewrite orb_true_r.
Qed.

Lemma has_dash_uint d : has_dash (NilEmpty.string_of_uint d) = false.
Proof. induction d; simpl; auto. Qed.

Lemma has_dash_nat_to_string i : has_dash (nat_to_string i) = false.
Proof.
  unfold nat_to_string, number_to_string.
  destruct (Z.of_nat i) as [|p|p] eqn:E; [done| |lia].
  simpl. unfold NilZero.string_of_uint.
  destruct (Pos.to_uint p); try done; apply has_dash_uint.
Qed.

Lemma number_to_string_inj n m : number_to_string n = number_to_string m -> n = m.
Proof.
  intros E.
  pose proof (ReferenceFacts.parse_number_to_string n EmptyString I) as Hn.
  pose proof (ReferenceFacts.parse_number_to_string m EmptyString I) as Hm.
  rewrite E in Hn. rewrite Hn in Hm. by injection Hm.
Qed.

Lemma nat_to_string_inj i j : nat_to_string i = nat_to_string j -> i = j.
Proof. intros E. apply number_to_string_inj in E. lia. Qed.

Lemma NoDup_nat_to_string start n : NoDup (map nat_to_string (seq start n)).
Proof.
  apply NoDup_fmap_2; [intros i j; apply nat_to_string_inj|apply NoDup_seq].
Qed.

(** ** Batches made by [ensureQueries] *)

(** X1.  The batch returned by [ensureQueries] is never empty: it has one
    query when the input is absent or empty, and as many queries as the
    input otherwise. *)
Theorem ensureQueries_length queries w :
  length (ensureQueries queries w).1 = Nat.max 1 (length (default [] queries)).
Proof.
  destruct queries as [[|q qs]|]; try reflexivity.
  unfold ensureQueries.
  destruct (ensureQueries_loop_items (q :: qs) 0 [] w) as (tail & -> & Hlen & _).
  simpl in *. lia.
Qed.

Lemma nonempty_app_truthy (p s : string) :
  p <> EmptyString -> truthy (VStr (p +:+ s)) = true.
Proof.
  intros Hp. destruct p as [|c p]; [done|].
  by rewrite ReferenceFacts.app_String.
Qed.

Lemma ensureQueries_loop_keys rest index w :
  let out := (ensureQueries_loop index rest [] w).1 in
  map key_suffix out = map nat_to_string (seq index (length rest))
  /\ Forall (fun q => truthy (get q "key") = true) out.
Proof.
  destruct (ensureQueries_loop_items rest index [] w) as (tail & Hout & Hlen & Hall).
  simpl. rewrite Hout. simpl. split.
  - apply list_eq. intros i. rewrite !list_lookup_fmap.
    destruct (rest !! i) as [q|] eqn:Hq.
    + destruct (Hall i q Hq) as (prefix & _ & ->). simpl.
      rewrite lookup_seq_lt by (by apply lookup_lt_Some in Hq). simpl.
      f_equal. unfold key_suffix. rewrite get_set_field_eq. simpl.
      apply after_last_dash_suffix, has_dash_nat_to_string.
    + apply lookup_ge_None in Hq.
      rewrite (proj2 (lookup_ge_None tail i)) by lia.
      by rewrite lookup_seq_ge by lia.
  - apply Forall_lookup. intros i o Ho.
    destruct (rest !! i) as [q|] eqn:Hq.
    + destruct (Hall i q Hq) as (prefix & Hne & Ho'). rewrite Ho' in Ho.
      injection Ho as <-. rewrite get_set_field_eq.
      by apply nonempty_app_truthy.
    + apply lookup_ge_None in Hq. apply lookup_lt_Some in Ho. lia.
Qed.

(** X2.  The keys that [ensureQueries] assigns are non-empty and pairwise
    distinct, whatever the clock and the random source return (even the same
    instant and the same draw for every query): the index that ends each key
    tells them apart. *)
Theorem ensureQueries_distinct_keys queries w :
  let out := (ensureQueries queries w).1 in
  NoDup (map (fun q => get q "key") out)
  /\ Forall (fun q => truthy (get q "key") = true) out.
Proof.
  assert (forall q0 qs,
    let out := (ensureQueries_loop 0 (q0 :: qs) [] w).1 in
    NoDup (map (fun q => get q "key") out)
    /\ Forall (fun q => truthy (get q "key") = true) out) as Hloop.
  { intros q0 qs out.
    destruct (ensureQueries_loop_keys (q0 :: qs) 0 w) as [Hk Ht]. split; [|done].
    apply (NoDup_fmap_1 (fun k => after_last_dash (ToString k))).
    rewrite <- list_fmap_compose.
    change (NoDup (map key_suffix out)). subst out. rewrite Hk.
    apply NoDup_nat_to_string. }
  assert (let out := (do q <- generateEmptyQuery queries 0; eff_ret [spread q []]) w in
          NoDup (map (fun q => get q "key") out.1)
          /\ Forall (fun q => truthy (get q "key") = true) out.1) as Hempty.
  { unfold generateEmptyQuery, eff_bind, eff_ret.
    destruct (generateKey_suffix 0 w) as (prefix & Hkey & Hne).
    destruct (generateKey 0 w) as [key w']. simpl in *. subst key.
    split; [apply NoDup_singleton|].
    apply Forall_singleton. by apply nonempty_app_truthy. }
  destruct queries as [[|q0 qs]|]; [exact Hempty|apply Hloop|exact Hempty].
Qed.

Lemma Object_keys_set_field k v (o : object) :
  Object_keys (set_field k v o)
  = if has_field k o then Object_keys o else Object_keys o ++ [k].
Proof.
  induction o as [|[k' v'] o IH]; [done|].
  simpl. rewrite has_field_cons. destruct (String.eqb_spec k' k) as [->|Hne].
  - done.
  - simpl. rewrite IH. by destruct (has_field k o).
Qed.

Lemma has_field_elem_of k (o : object) : has_field k o = true <-> k ∈ Object_keys o.
Proof.
  induction o as [|[k' v'] o IH]; simpl.
  - split; [done|]. intros Hin. inversion Hin.
  - rewrite has_field_cons. destruct (String.eqb_spec k' k) as [->|Hne].
    + split; [intros _; left|done].
    + rewrite IH. split; [by right|].
      intros Hin. apply elem_of_cons in Hin as [->|Hin]; done.
Qed.

Lemma NoDup_set_field k v (o : object) :
  NoDup (Object_keys o) -> NoDup (Object_keys (set_field k v o)).
Proof.
  intros Hnd. rewrite Object_keys_set_field.
  destruct (has_field k o) eqn:E; [done|].
  apply NoDup_app. split; [done|]. split; [|apply NoDup_singleton].
  intros x Hx Hk. apply list_elem_of_singleton in Hk as ->.
  apply has_field_elem_of in Hx. congruence.
Qed.

Lemma spread_NoDup (q : object) : NoDup (Object_keys q) -> spread q [] = q.
Proof. intros Hnd. by rewrite ReferenceFacts.spread_fresh. Qed.

Lemma clearQueryKeys_set_field k v (o : object) :
  k = "key" \/ k = "refId" ->
  clearQueryKeys (set_field k v o) = clearQueryKeys o.
Proof.
  intros Hk. unfold clearQueryKeys. induction o as [|[k' v'] o IH].
  - by destruct Hk as [-> | ->].
  - simpl. destruct (String.eqb_spec k' k) as [->|Hne].
    + by destruct Hk as [-> | ->].
    + simpl. by rewrite IH.
Qed.

Lemma get_clearQueryKeys (q : object) k :
  k <> "key" -> k <> "refId" -> get (clearQueryKeys q) k = get q k.
Proof.
  intros H1 H2. unfold clearQueryKeys, get. induction q as [|[k' v'] q IH]; [done|].
  simpl. destruct (String.eqb_spec k' k) as [->|Hne].
  - destruct (String.eqb_spec k "key"); [done|].
    destruct (String.eqb_spec k "refId"); [done|].
    simpl. by rewrite String.eqb_refl.
  - destruct (negb (k' =? "key")%string && negb (k' =? "refId")%string); [|done].
    simpl. by destruct (String.eqb_spec k' k).
Qed.

(** X3.  [ensureQueries] only stamps: the query it returns at a position has
    all the fields of the input query at that position other than [key] and
    [refId], with the same values and in the same order, so that
    [clearQueryKeys] cannot tell the two apart. *)
Theorem ensureQueries_keeps_fields (queries : list object) w :
  Forall (fun q => NoDup (Object_keys q)) queries ->
  let out := (ensureQueries (Some queries) w).1 in
  forall i q, queries !! i = Some q ->
    exists o, out !! i = Some o
      /\ NoDup (Object_keys o)
      /\ clearQueryKeys o = clearQueryKeys q
      /\ forall k, k <> "key" -> k <> "refId" -> get o k = get q k.
Proof.
  intros Hnd out i q Hq. subst out.
  destruct queries as [|q0 qs]; [inversion Hq|].
  unfold ensureQueries.
  destruct (ensureQueries_loop_items (q0 :: qs) 0 [] w) as (tail & -> & _ & Hall).
  destruct (Hall i q Hq) as (prefix & _ & Ho). simpl. rewrite Ho.
  eexists. split; [done|].
  pose proof (proj1 (Forall_lookup _ _) Hnd i q Hq) as Hq_nd. simpl in Hq_nd.
  rewrite spread_NoDup by done.
  split; [by do 2 apply NoDup_set_field|].
  split; [by rewrite !clearQueryKeys_set_field by auto|].
  intros k Hk1 Hk2. by rewrite !get_set_field_ne by done.
Qed.

(** A query with a ref-id and a query with a stale key; the second one. *)
Lemma ensureQueries_keeps_fields_witness :
  let queries := [[("expr", VStr "up"); ("refId", VStr "B")];
                  [("key", VStr "k"); ("expr", VStr "node_load1")]] in
  let out := (ensureQueries (Some queries) sample_world).1 in
  exists o, out !! 1 = Some o
    /\ NoDup (Object_keys o)
    /\ clearQueryKeys o = clearQueryKeys [("key", VStr "k"); ("expr", VStr "node_load1")]
    /\ forall k, k <> "key" -> k <> "refId" ->
         get o k = get [("key", VStr "k"); ("expr", VStr "node_load1")] k.
Proof.
  apply (ensureQueries_keeps_fields
           [[("expr", VStr "up"); ("refId", VStr "B")];
            [("key", VStr "k"); ("expr", VStr "node_load1")]]
           sample_world).
  - apply (bool_decide_unpack _). by vm_compute.
  - reflexivity.
Defined.

Lemma letters_nonempty l : l ∈ letters -> truthy (VStr l) = true.
Proof.
  intros Hl. unfold letters in Hl.
  repeat (apply elem_of_cons in Hl as [->|Hl]; [done|]). inversion Hl.
Qed.

Lemma ensureQueries_loop_truthy rest index allQueries w :
  Forall (fun q => truthy (refId q) = true) allQueries ->
  length allQueries + length rest <= 26 ->
  Forall (fun q => truthy (refId q) = true)
         (ensureQueries_loop index rest allQueries w).1.
Proof.
  intros Hacc Hlen.
  destruct (ensureQueries_loop_items rest index allQueries w)
    as (tail & -> & Htl & Hall).
  apply Forall_app. split; [done|].
  apply Forall_lookup. intros i o Ho.
  destruct (rest !! i) as [q|] eqn:Hq.
  - destruct (Hall i q Hq) as (prefix & _ & Ho'). rewrite Ho' in Ho.
    injection Ho as <-. rewrite refId_ensured.
    destruct (truthy (refId q)) eqn:E; [done|].
    apply lookup_lt_Some in Hq.
    destruct (getNextRefIdChar_fresh (allQueries ++ take i tail))
      as (l & -> & Hl & _).
    { rewrite length_app, length_take. lia. }
    by apply letters_nonempty.
  - apply lookup_ge_None in Hq. apply lookup_lt_Some in Ho. lia.
Qed.

(** X4.  For a batch of at most 26 queries (and for an absent or empty
    batch), every query that [ensureQueries] returns has a truthy [refId]:
    the one it came with, or a letter that [getNextRefIdChar] allocated. *)
Theorem ensureQueries_refIds_nonempty queries w :
  length (default [] queries) <= 26 ->
  Forall (fun q => truthy (refId q) = true) (ensureQueries queries w).1.
Proof.
  intros Hlen.
  assert (length (default [] queries) < 26 ->
          Forall (fun q => truthy (refId q) = true)
            ((do q <- generateEmptyQuery queries 0; eff_ret [spread q []]) w).1)
    as Hempty.
  { intros Hlt. unfold generateEmptyQuery, eff_bind, eff_ret.
    destruct (generateKey 0 w) as [key w']. simpl.
    apply Forall_singleton. unfold refId, get. simpl.
    destruct (getNextRefIdChar_fresh (default [] queries)) as (l & -> & Hl & _);
      [lia|]. by apply letters_nonempty. }
  destruct queries as [[|q0 qs]|];
    [apply Hempty; simpl; lia| |apply Hempty; simpl; lia].
  unfold ensureQueries. apply ensureQueries_loop_truthy; [done|].
  simpl in *. lia.
Qed.

(** Two queries without a ref-id. *)
Lemma ensureQueries_refIds_nonempty_witness :
  Forall (fun q => truthy (refId q) = true)
         (ensureQueries (Some [[("expr", VStr "up")]; []]) sample_world).1.
Proof.
  apply (ensureQueries_refIds_nonempty (Some [[("expr", VStr "up")]; []])
           sample_world).
  simpl. lia.
Defined.

Lemma ensureQueries_loop_kept rest index w :
  Forall (fun q => truthy (refId q) = true) rest ->
  refIds (ensureQueries_loop index rest [] w).1 = refIds rest.
Proof.
  intros Ht.
  destruct (ensureQueries_loop_items rest index [] w) as (tail & -> & Htl & Hall).
  simpl. apply list_eq. intros i. unfold refIds. rewrite !list_lookup_fmap.
  destruct (rest !! i) as [q|] eqn:Hq.
  - destruct (Hall i q Hq) as (prefix & _ & ->). simpl.
    rewrite refId_ensured.
    by rewrite (proj1 (Forall_lookup _ _) Ht i q Hq).
  - apply lookup_ge_None in Hq.
    by rewrite (proj2 (lookup_ge_None tail i)) by lia.
Qed.

(** X5.  Running [ensureQueries] on a batch that it returned changes no
    [refId] (for at most 26 queries): the second run keeps every ref-id of
    the first and only draws new keys. *)
Theorem ensureQueries_again queries w w' :
  length (default [] queries) <= 26 ->
  let out := (ensureQueries queries w).1 in
  let out' := (ensureQueries (Some out) w').1 in
  refIds out' = refIds out /\ length out' = length out.
Proof.
  intros Hlen out out'.
  assert (exists o rest, out = o :: rest
            /\ Forall (fun q => truthy (refId q) = true) out) as (o & rest & Hout & Ht).
  { subst out out'. destruct queries as [[|q0 qs]|].
    - unfold ensureQueries, generateEmptyQuery, eff_bind, eff_ret.
      destruct (generateKey 0 w) as [key w0]. simpl.
      eexists _, _. split; [reflexivity|]. by apply Forall_singleton.
    - unfold ensureQueries.
      pose proof (ensureQueries_loop_truthy (q0 :: qs) 0 [] w (Forall_nil_2 _))
        as Ht.
      destruct (ensureQueries_loop_items (q0 :: qs) 0 [] w)
        as (tail & Hout & Htl & _).
      rewrite Hout in *. destruct tail as [|o rest]; [done|].
      exists o, rest. split; [done|]. apply Ht. simpl in *. lia.
    - unfold ensureQueries, generateEmptyQuery, eff_bind, eff_ret.
      destruct (generateKey 0 w) as [key w0]. simpl.
      eexists _, _. split; [reflexivity|]. by apply Forall_singleton. }
  subst out'. rewrite Hout in *. unfold ensureQueries.
  rewrite ensureQueries_loop_kept by done. split; [done|].
  destruct (ensureQueries_loop_items (o :: rest) 0 [] w') as (tail & -> & Htl & _).
  done.
Qed.

(** The same batch, run twice. *)
Lemma ensureQueries_again_witness :
  let out := (ensureQueries (Some [[("expr", VStr "up")]; []]) sample_world).1 in
  let out' := (ensureQueries (Some out) sample_world).1 in
  refIds out' = refIds out /\ length out' = length out.
Proof.
  apply (ensureQueries_again (Some [[("expr", VStr "up")]; []])
           sample_world sample_world).
  simpl. lia.
Defined.

Lemma lookup_clearQueryKeys (query : object) k :
  lookup_field k (clearQueryKeys query)
  = if String.eqb k "key" || String.eqb k "refId" then None
    else lookup_field k query.
Proof.
  unfold clearQueryKeys. induction query as [|[k' v'] q IH]; simpl.
  - by destruct (_ || _).
  - destruct (negb (k' =? "key")%string && negb (k' =? "refId")%string) eqn:E;
      simpl; rewrite IH;
      (destruct (String.eqb_spec k' k) as [->|Hne]; [|done]).
    + apply andb_prop in E as [E1%negb_true_iff E2%negb_true_iff].
      by rewrite E1, E2.
    + apply andb_false_iff in E as [E%negb_false_iff|E%negb_false_iff];
        rewrite E; by rewrite ?orb_true_r.
Qed.

(** X6.  [clearQueryKeys] strips the two identifiers and nothing else: the
    object it returns has no [key] and no [refId], every other property has
    the value it had, and stripping again changes nothing. *)
Theorem clearQueryKeys_strips (query : object) :
  (forall k,
     lookup_field k (clearQueryKeys query)
     = if String.eqb k "key" || String.eqb k "refId" then None
       else lookup_field k query)
  /\ Object_keys (clearQueryKeys query)
     = List.filter (fun k => negb (String.eqb k "key") && negb (String.eqb k "refId"))
                   (Object_keys query)
  /\ clearQueryKeys (clearQueryKeys query) = clearQueryKeys query.
Proof.
  split; [intros k; apply lookup_clearQueryKeys|]. split.
  - unfold clearQueryKeys, Object_keys.
    induction query as [|[k v] q IH]; [done|]. simpl.
    destruct (negb (k =? "key")%string && negb (k =? "refId")%string); simpl;
      by rewrite IH.
  - unfold clearQueryKeys.
    induction query as [|[k v] q IH]; [done|]. simpl.
    destruct (negb (k =? "key")%string && negb (k =? "refId")%string) eqn:E;
      simpl; [|done]. by rewrite E, IH.
Qed.

Lemma existsb_Forall2 {A B} (P : A -> bool) (Q : B -> bool) l k :
  Forall2 (fun a b => P a = Q b) l k -> existsb P l = existsb Q k.
Proof. induction 1 as [|a b l k Hab _ IH]; simpl; congruence. Qed.

(** X7.  After [ensureQueries] (at most 26 queries, each with pairwise
    distinct property names) the test [hasNonEmptyQuery] answers what its
    comment promises: it holds exactly when some query of the input has a
    field with a non-empty value besides [key] and [refId].  In particular
    the batch made for an empty input is not worth running. *)
Theorem hasNonEmptyQuery_ensureQueries (queries : list object) w :
  Forall (fun q => NoDup (Object_keys q)) queries ->
  length queries <= 26 ->
  hasNonEmptyQuery (ensureQueries (Some queries) w).1
  = existsb has_content queries.
Proof.
  intros Hnd Hlen. destruct queries as [|q0 qs].
  { unfold ensureQueries, generateEmptyQuery, eff_bind, eff_ret.
    destruct (generateKey 0 w) as [key w']. simpl.
    unfold get. simpl.
    by destruct (negb (String.eqb key EmptyString)). }
  unfold ensureQueries.
  pose proof (ensureQueries_loop_truthy (q0 :: qs) 0 [] w (Forall_nil_2 _)) as Ht.
  destruct (ensureQueries_loop_items (q0 :: qs) 0 [] w)
    as (tail & Hout & Htl & Hall).
  rewrite Hout in *. simpl app in *.
  unfold hasNonEmptyQuery. apply existsb_Forall2.
  apply Forall2_same_length_lookup_2; [done|].
  intros i o q Ho Hq.
  destruct (Hall i q Hq) as (prefix & Hne & Ho').
  pose proof (proj1 (Forall_lookup _ _) (Ht ltac:(simpl in *; lia)) i o Ho) as Hr.
  simpl in Hr.
  pose proof (proj1 (Forall_lookup _ _) Hnd i q Hq) as Hq_nd. simpl in Hq_nd.
  rewrite Ho' in Ho. injection Ho as Ho.
  assert (NoDup (Object_keys o)) as Ho_nd.
  { subst o. rewrite spread_NoDup by done. by do 2 apply NoDup_set_field. }
  rewrite truthy_count by done. rewrite (truthy_fields_split o) by done.
  fold (refId o). rewrite Hr.
  assert (truthy (get o "key") = true) as ->.
  { subst o. rewrite get_set_field_eq. by apply nonempty_app_truthy. }
  assert (clearQueryKeys o = clearQueryKeys q) as ->.
  { subst o. rewrite !clearQueryKeys_set_field by auto.
    by rewrite spread_NoDup. }
  unfold has_content.
  generalize (truthy_fields (clearQueryKeys q)). intros n.
  destruct (Nat.ltb_spec 2 (n + 1 + 1)), (Nat.ltb_spec 0 n); (done || lia).
Qed.

(** A query with an expression and a query with a ref-id only. *)
Lemma hasNonEmptyQuery_ensureQueries_witness :
  hasNonEmptyQuery
    (ensureQueries (Some [[("expr", VStr "up")]; [("refId", VStr "B")]])
       sample_world).1
  = existsb has_content [[("expr", VStr "up")]; [("refId", VStr "B")]].
Proof.
  apply (hasNonEmptyQuery_ensureQueries
           [[("expr", VStr "up")]; [("refId", VStr "B")]] sample_world).
  - apply (bool_decide_unpack _). by vm_compute.
  - simpl. lia.
Defined.

(** ** Keys of the query rows *)

Lemma getQueryKeys_reduce_imap datasourceInstance rest : forall index newQueryKeys,
  getQueryKeys_reduce datasourceInstance index rest newQueryKeys
  = newQueryKeys
    ++ imap (fun i query =>
               ToString (primaryKey datasourceInstance query)
               +:+ "-" +:+ nat_to_string (index + i)) rest.
Proof.
  induction rest as [|q rest IH]; intros index acc; simpl.
  - by rewrite app_nil_r.
  - rewrite IH, <- app_assoc, Nat.add_0_r. simpl. do 2 f_equal.
    apply imap_ext. intros i x _. simpl. by rewrite Nat.add_succ_r.
Qed.

Lemma getQueryKeys_lookup queries datasourceInstance i :
  getQueryKeys queries datasourceInstance !! i
  = (fun query =>
       ToString (primaryKey datasourceInstance query)
       +:+ "-" +:+ nat_to_string i) <$> queries !! i.
Proof.
  unfold getQueryKeys. rewrite getQueryKeys_reduce_imap. simpl.
  by rewrite list_lookup_imap.
Qed.

(** X8.  [getQueryKeys] gives one key per query, and the keys are pairwise
    distinct, also when two queries carry the same [key] or none at all:
    the index that ends each key tells them apart. *)
Theorem getQueryKeys_distinct queries datasourceInstance :
  length (getQueryKeys queries datasourceInstance) = length queries
  /\ NoDup (getQueryKeys queries datasourceInstance).
Proof.
  assert (length (getQueryKeys queries datasourceInstance) = length queries)
    as Hlen.
  { unfold getQueryKeys. rewrite getQueryKeys_reduce_imap. simpl.
    apply length_imap. }
  split; [done|].
  apply (NoDup_fmap_1 after_last_dash).
  assert (after_last_dash <$> getQueryKeys queries datasourceInstance
          = map nat_to_string (seq 0 (length queries))) as ->;
    [|apply NoDup_nat_to_string].
  apply list_eq. intros i.
  rewrite !list_lookup_fmap, getQueryKeys_lookup.
  destruct (queries !! i) as [q|] eqn:Hq; simpl.
  - rewrite lookup_seq_lt by (by apply lookup_lt_Some in Hq). simpl. f_equal.
    apply after_last_dash_suffix, has_dash_nat_to_string.
  - apply lookup_ge_None in Hq. by rewrite lookup_seq_ge by lia.
Qed.

(** X9.  With a datasource that has a name, the keys depend on the number of
    queries only: two batches of the same length get the same keys, whatever
    their queries hold. *)
Theorem getQueryKeys_stable queries queries' d :
  DataSource.name d <> EmptyString ->
  length queries = length queries' ->
  getQueryKeys queries (Some d) = getQueryKeys queries' (Some d)
  /\ forall i, i < length queries ->
       getQueryKeys queries (Some d) !! i
       = Some (DataSource.name d +:+ "-" +:+ nat_to_string i).
Proof.
  intros Hname Hlen.
  assert (forall qs i, i < length qs ->
            getQueryKeys qs (Some d) !! i
            = Some (DataSource.name d +:+ "-" +:+ nat_to_string i)) as Hat.
  { intros qs i Hi. rewrite getQueryKeys_lookup.
    destruct (lookup_lt_is_Some_2 qs i Hi) as [q ->]. simpl.
    unfold primaryKey. simpl.
    by destruct (String.eqb_spec (DataSource.name d) EmptyString). }
  split; [|by apply Hat].
  apply list_eq. intros i. destruct (decide (i < length queries)) as [Hi|Hi].
  - rewrite !Hat by lia. done.
  - rewrite !getQueryKeys_lookup.
    rewrite (proj2 (lookup_ge_None queries i)) by lia.
    by rewrite (proj2 (lookup_ge_None queries' i)) by lia.
Qed.

(** Two batches of two queries under a datasource named Prometheus. *)
Lemma getQueryKeys_stable_witness :
  let d := {| DataSource.name := "Prometheus"; DataSource.meta := [];
              DataSource.getExploreState := None |} in
  getQueryKeys [q_first; q_second] (Some d) = getQueryKeys [[]; q_up] (Some d)
  /\ forall i, i < length [q_first; q_second] ->
       getQueryKeys [q_first; q_second] (Some d) !! i
       = Some (DataSource.name d +:+ "-" +:+ nat_to_string i).
Proof.
  apply (getQueryKeys_stable [q_first; q_second] [[]; q_up]
           {| DataSource.name := "Prometheus"; DataSource.meta := [];
              DataSource.getExploreState := None |}).
  - simpl. discriminate.
  - reflexivity.
Defined.

(** ** Keys and panel ids *)

Lemma string_app_inv_tail (a b s : string) : a +:+ s = b +:+ s -> a = b.
Proof.
  revert b. induction a as [|c a IH]; intros [|c' b] E.
  - done.
  - apply (f_equal String.length) in E.
    rewrite ReferenceFacts.app_Empty, ReferenceFacts.length_app_string in E.
    simpl in E. lia.
  - apply (f_equal String.length) in E.
    rewrite ReferenceFacts.app_Empty, ReferenceFacts.length_app_string in E.
    simpl in E. lia.
  - rewrite !ReferenceFacts.app_String in E. injection E as -> E.
    by rewrite (IH b E).
Qed.

Lemma first_dash_split (d1 d2 x y : string) :
  has_dash d1 = false -> has_dash d2 = false ->
  d1 +:+ String "-" x = d2 +:+ String "-" y -> d1 = d2 /\ x = y.
Proof.
  revert d2. induction d1 as [|c d1 IH]; intros [|c' d2] H1 H2 E.
  - rewrite !ReferenceFacts.app_Empty in E. by injection E as ->.
  - rewrite ReferenceFacts.app_Empty, ReferenceFacts.app_String in E.
    injection E as <- _. done.
  - rewrite ReferenceFacts.app_Empty, ReferenceFacts.app_String in E.
    injection E as -> _. done.
  - rewrite !ReferenceFacts.app_String in E. injection E as -> E.
    simpl in H1, H2. apply orb_false_elim in H1 as [_ H1], H2 as [_ H2].
    destruct (IH d2 H1 H2 E) as [-> ->]. done.
Qed.

Lemma has_dash_number_to_string n :
  (0 <= n)%Z -> has_dash (number_to_string n) = false.
Proof.
  intros Hn. rewrite <- (Z2Nat.id n Hn). apply has_dash_nat_to_string.
Qed.

(** X10.  What tells two keys apart.  For clock readings that are not negative,
    two calls of [generateKey] return the same key exactly when they are
    given the same index, read the same instant from the clock and draw the
    same number from the random source: any difference in one of the three
    shows in the key. *)
Theorem generateKey_injective i j w1 w2 :
  (0 <= clock w1 (clock_reads w1))%Z ->
  (0 <= clock w2 (clock_reads w2))%Z ->
  (generateKey i w1).1 = (generateKey j w2).1
  <-> i = j
      /\ clock w1 (clock_reads w1) = clock w2 (clock_reads w2)
      /\ random w1 (random_draws w1) = random w2 (random_draws w2).
Proof.
  intros H1 H2.
  unfold generateKey, eff_bind, Date_now, Math_random, eff_ret. simpl.
  split.
  - intros E.
    change ("Q-" +:+ ?s) with (String "Q" (String "-" s)) in E.
    injection E as E.
    change ("-" +:+ ?s) with (String "-" s) in E.
    apply first_dash_split in E as [En E];
      [|by apply has_dash_number_to_string..].
    apply number_to_string_inj in En.
    assert (nat_to_string i = nat_to_string j) as Eij.
    { apply (f_equal after_last_dash) in E.
      change (String "-" ?s) with ("-" +:+ s) in E.
      by rewrite !after_last_dash_suffix in E by apply has_dash_nat_to_string. }
    apply nat_to_string_inj in Eij as ->.
    change (String "-" ?s) with ("-" +:+ s) in E.
    rewrite <- !string_app_assoc in E. apply string_app_inv_tail in E.
    apply string_app_inv_tail in E. apply string_app_inv_tail in E. done.
  - intros (-> & -> & ->). done.
Qed.

(** Two calls at the same instant with the same draw, for the indices 0
    and 1. *)
Lemma generateKey_injective_witness :
  (generateKey 0 sample_world).1 = (generateKey 1 sample_world).1
  <-> 0 = 1
      /\ clock sample_world (clock_reads sample_world)
         = clock sample_world (clock_reads sample_world)
      /\ random sample_world (random_draws sample_world)
         = random sample_world (random_draws sample_world).
Proof.
  apply (generateKey_injective 0 1 sample_world sample_world);
    vm_compute; discriminate.
Defined.

(** X11.  For one batch of queries, requests for different formats get
    different panel ids: two transactions built from the same queries with
    options that name different [format] strings never share a panel id. *)
Theorem buildQueryTransaction_panelId_format queries
    resultType1 resultType2 (queryOptions1 queryOptions2 : object)
    range1 range2 queryIntervals1 queryIntervals2 scanning1 scanning2 w1 w2
    format1 format2 :
  get queryOptions1 "format" = VStr format1 ->
  get queryOptions2 "format" = VStr format2 ->
  format1 <> format2 ->
  Options.panelId (Transaction.options
    (buildQueryTransaction queries resultType1 queryOptions1 range1
       queryIntervals1 scanning1 w1).1)
  <> Options.panelId (Transaction.options
       (buildQueryTransaction queries resultType2 queryOptions2 range2
          queryIntervals2 scanning2 w2).1).
Proof.
  intros Hf1 Hf2 Hne.
  unfold buildQueryTransaction, eff_bind, eff_ret.
  destruct (generateKey 0 w1), (generateKey 0 w2). simpl.
  rewrite Hf1, Hf2. simpl. intros E.
  by apply string_app_inv_tail in E.
Qed.

(** The same two queries, requested as time series and as a table. *)
Lemma buildQueryTransaction_panelId_format_witness :
  Options.panelId (Transaction.options
    (buildQueryTransaction [q_first; q_second] Graph sample_options sample_range
       sample_intervals false sample_world).1)
  <> Options.panelId (Transaction.options
       (buildQueryTransaction [q_first; q_second] Table
          [("format", VStr "table")] sample_range sample_intervals false
          sample_world).1).
Proof.
  apply (buildQueryTransaction_panelId_format [q_first; q_second] Graph Table
           sample_options [("format", VStr "table")] sample_range sample_range
           sample_intervals sample_intervals false false sample_world
           sample_world "time_series" "table").
  - reflexivity.
  - reflexivity.
  - discriminate.
Defined.

(** ** History per datasource *)

Lemma historyKey_inj a b : historyKey a = historyKey b -> a = b.
Proof. unfold historyKey. apply (inj (String.append _)). Qed.

Lemma take_app_take {A} n (l k : list A) :
  take n (l ++ take n k) = take n (l ++ k).
Proof.
  rewrite !take_app, take_take. do 2 f_equal. lia.
Qed.

(** X12.  Every datasource has a history entry of its own: updating or
    clearing the history of one datasource leaves the stored entry of every
    other datasource as it was. *)
Theorem history_entries_independent history datasourceId other queries w :
  other <> datasourceId ->
  store (updateHistory history datasourceId queries w).2 !! historyKey other
  = store w !! historyKey other
  /\ store (clearHistory datasourceId w).2 !! historyKey other
     = store w !! historyKey other.
Proof.
  intros Hne.
  assert (historyKey datasourceId <> historyKey other) as Hk.
  { intros E. by apply historyKey_inj in E. }
  split.
  - rewrite updateHistory_eq. simpl. by rewrite lookup_insert_ne.
  - unfold clearHistory, store_delete. simpl. by rewrite lookup_delete_ne.
Qed.

(** The history of Loki and the entry of Prometheus. *)
Lemma history_entries_independent_witness :
  store (updateHistory [] "loki" [q_up] sample_world).2 !! historyKey "prometheus"
  = store sample_world !! historyKey "prometheus"
  /\ store (clearHistory "loki" sample_world).2 !! historyKey "prometheus"
     = store sample_world !! historyKey "prometheus".
Proof.
  apply (history_entries_independent [] "loki" "prometheus" [q_up] sample_world).
  discriminate.
Defined.

(** X13.  [clearHistory] removes what [updateHistory] persisted: after an
    update followed by a clear for the same datasource there is no stored
    entry for it, and the store is what clearing alone would have left. *)
Theorem clearHistory_after_updateHistory history datasourceId queries w :
  let updated := updateHistory history datasourceId queries w in
  let cleared := (clearHistory datasourceId updated.2).2 in
  store cleared !! historyKey datasourceId = None
  /\ store cleared = store (clearHistory datasourceId w).2.
Proof.
  cbv zeta. rewrite updateHistory_eq. unfold clearHistory, store_delete. simpl.
  split; [apply lookup_delete_eq|apply delete_insert_eq].
Qed.

(** X14.  Truncating after every call loses nothing that one truncation at the
    end would keep: two successive updates return the first 100 items of
    the second batch reversed, then the first batch reversed, then the
    original history. *)
Theorem updateHistory_twice history datasourceId queries1 queries2 w :
  let r1 := updateHistory history datasourceId queries1 w in
  let r2 := updateHistory r1.1 datasourceId queries2 r1.2 in
  let ts1 := clock w (clock_reads w) in
  let ts2 := clock w (S (clock_reads w)) in
  r2.1 = take 100 (rev (map (fun q => HistoryItem q ts2) queries2)
                   ++ rev (map (fun q => HistoryItem q ts1) queries1)
                   ++ history)
  /\ store r2.2 !! historyKey datasourceId = Some (VArr r2.1).
Proof.
  cbv zeta. rewrite !updateHistory_eq. simpl.
  rewrite take_app_take. split; [done|]. by rewrite lookup_insert_eq.
Qed.

(** ** Colours across transactions *)

Lemma offset_spec_cons h transaction other rest :
  offset_spec h transaction (other :: rest)
  = if Nat.eqb other transaction then Some 0
    else if done_graph h other
         then n ← series_count h other;
              o ← offset_spec h transaction rest; Some (n + o)
         else offset_spec h transaction rest.
Proof.
  unfold offset_spec. simpl.
  destruct (Nat.eqb other transaction); [done|]. simpl.
  destruct (done_graph h other); [|done]. simpl.
  destruct (series_count h other) as [n|]; [|done]. simpl.
  by destruct (mapM (series_count h) _).
Qed.

Lemma offset_spec_before h t1 t2 all o2 :
  t1 ∈ strictly_before t2 all -> done_graph h t1 = true ->
  offset_spec h t2 all = Some o2 ->
  exists o1 n1, offset_spec h t1 all = Some o1
    /\ series_count h t1 = Some n1 /\ o1 + n1 <= o2.
Proof.
  intros Hin Hdg. revert o2.
  induction all as [|x rest IH]; intros o2; [inversion Hin|].
  simpl in Hin. rewrite !offset_spec_cons.
  destruct (Nat.eqb_spec x t2) as [->|Hx2]; [inversion Hin|].
  destruct (Nat.eqb_spec x t1) as [->|Hx1].
  - rewrite Hdg. destruct (series_count h t1) as [n|]; [|done]. simpl.
    destruct (offset_spec h t2 rest) as [o|]; [|done]. simpl.
    intros [= <-]. exists 0, n. split; [done|]. split; [done|]. lia.
  - apply elem_of_cons in Hin as [->|Hin]; [done|].
    destruct (done_graph h x).
    + destruct (series_count h x) as [n|]; [|done]. simpl.
      destruct (offset_spec h t2 rest) as [o|]; [|done]. simpl.
      intros [= <-]. destruct (IH Hin o eq_refl) as (o1 & n1 & -> & Hn1 & Hle).
      exists (n + o1), n1. split; [done|]. split; [done|]. lia.
    + intros Ho2. destruct (IH Hin o2 Ho2) as (o1 & n1 & -> & Hn1 & Hle).
      by exists o1, n1.
Qed.

Lemma colorIndexOffset_loop_after h transaction pre : forall post post' acc,
  colorIndexOffset_loop h transaction (pre ++ transaction :: post) acc
  = colorIndexOffset_loop h transaction (pre ++ transaction :: post') acc.
Proof.
  induction pre as [|x pre IH]; intros post post' acc; simpl.
  - by rewrite Nat.eqb_refl.
  - destruct (Nat.eqb x transaction); [done|].
    destruct (is_Graph _ && _); [|apply IH].
    destruct (Transaction.result (h x)); [apply IH|done].
Qed.

Lemma colorIndexOffset_loop_skip h transaction other pre : forall post acc,
  other <> transaction -> done_graph h other = false ->
  colorIndexOffset_loop h transaction (pre ++ other :: post) acc
  = colorIndexOffset_loop h transaction (pre ++ post) acc.
Proof.
  intros post acc Hne Hdg. revert acc.
  induction pre as [|x pre IH]; intros acc; simpl.
  - apply Nat.eqb_neq in Hne. rewrite Hne.
    fold (done_graph h other). by rewrite Hdg.
  - destruct (Nat.eqb x transaction); [done|].
    destruct (is_Graph _ && _); [|apply IH].
    destruct (Transaction.result (h x)); [apply IH|done].
Qed.

Section ColorFacts2.
Context `{Env}.

Lemma makeTimeSeriesList_offset h dataList transaction allTransactions offset :
  offset_spec h transaction allTransactions = Some offset ->
  offset + length dataList <= length colors ->
  exists out,
    makeTimeSeriesList h dataList transaction allTransactions = Normal out
    /\ length out = length dataList
    /\ forall i s, out !! i = Some s ->
         exists c, colors !! (offset + i) = Some c /\ color s = VStr c.
Proof.
  intros Ho Hle. unfold makeTimeSeriesList.
  rewrite colorIndexOffset_loop_spec, Ho. simpl.
  eexists. split; [reflexivity|]. split; [apply length_imap|].
  intros i s Hs. rewrite list_lookup_imap in Hs.
  destruct (dataList !! i) as [d|] eqn:Hd; simpl in Hs; [|done].
  injection Hs as <-. simpl. apply lookup_lt_Some in Hd.
  unfold color_at. rewrite Nat.mod_small by lia.
  destruct (lookup_lt_is_Some_2 colors (offset + i)) as [c Hc]; [lia|].
  exists c. by rewrite Hc.
Qed.

(** X15.  The purpose its comment states.  When [t1] comes before [t2] in the
    list of transactions, [t1] is a done Graph transaction whose attached
    result has as many series as [data1], and the palette has pairwise
    distinct colours and is long enough for the series of [t2], then all the
    series made for [t1] and for [t2] get pairwise distinct colours. *)
Theorem makeTimeSeriesList_distinct_colors h allTransactions t1 t2
    (data1 data2 : list object) offset2 :
  NoDup colors ->
  t1 ∈ strictly_before t2 allTransactions ->
  done_graph h t1 = true ->
  series_count h t1 = Some (length data1) ->
  offset_spec h t2 allTransactions = Some offset2 ->
  offset2 + length data2 <= length colors ->
  exists out1 out2,
    makeTimeSeriesList h data1 t1 allTransactions = Normal out1
    /\ makeTimeSeriesList h data2 t2 allTransactions = Normal out2
    /\ NoDup (map color (out1 ++ out2)).
Proof.
  intros Hnd Hin Hdg Hn1 Ho2 Hle.
  destruct (offset_spec_before h t1 t2 allTransactions offset2 Hin Hdg Ho2)
    as (o1 & n1 & Ho1 & Hn1' & Hle1).
  rewrite Hn1 in Hn1'. injection Hn1' as <-.
  destruct (makeTimeSeriesList_offset h data1 t1 allTransactions o1 Ho1)
    as (out1 & -> & Hl1 & Hc1); [lia|].
  destruct (makeTimeSeriesList_offset h data2 t2 allTransactions offset2 Ho2 Hle)
    as (out2 & -> & Hl2 & Hc2).
  exists out1, out2. split; [done|]. split; [done|].
  set (idx := fun i => if i <? length out1 then o1 + i
                       else offset2 + (i - length out1)).
  assert (forall i v, map color (out1 ++ out2) !! i = Some v ->
            exists c, colors !! idx i = Some c /\ v = VStr c) as Hidx.
  { intros i v Hv. rewrite list_lookup_fmap in Hv. subst idx. simpl.
    destruct (Nat.ltb_spec i (length out1)) as [Hi|Hi].
    - rewrite lookup_app_l in Hv by done.
      destruct (out1 !! i) as [s|] eqn:Hs; simpl in Hv; [|done].
      injection Hv as <-. destruct (Hc1 i s Hs) as (c & Hc & ->). by exists c.
    - rewrite lookup_app_r in Hv by done.
      destruct (out2 !! (i - length out1)) as [s|] eqn:Hs; simpl in Hv; [|done].
      injection Hv as <-. destruct (Hc2 _ s Hs) as (c & Hc & ->). by exists c. }
  apply NoDup_alt. intros i j v Hi Hj.
  destruct (Hidx i v Hi) as (c & Hci & ->).
  destruct (Hidx j (VStr c) Hj) as (c' & Hcj & [= <-]).
  pose proof (proj1 (NoDup_alt colors) Hnd _ _ _ Hci Hcj) as Hij.
  apply lookup_lt_Some in Hi, Hj. rewrite length_fmap, length_app in Hi, Hj.
  subst idx. simpl in Hij.
  destruct (Nat.ltb_spec i (length out1)), (Nat.ltb_spec j (length out1)); lia.
Qed.

(** X16.  Only what comes before the current transaction counts, and only done
    Graph transactions among it: the transactions listed after the current
    one can be replaced by any others, and a transaction that is not a done
    Graph transaction can be dropped from the list, without any change to
    the series made. *)
Theorem makeTimeSeriesList_irrelevant h dataList transaction :
  (forall pre post post',
     makeTimeSeriesList h dataList transaction (pre ++ transaction :: post)
     = makeTimeSeriesList h dataList transaction (pre ++ transaction :: post'))
  /\ (forall other pre post,
        other <> transaction -> done_graph h other = false ->
        makeTimeSeriesList h dataList transaction (pre ++ other :: post)
        = makeTimeSeriesList h dataList transaction (pre ++ post)).
Proof.
  split.
  - intros pre post post'. unfold makeTimeSeriesList.
    by rewrite (colorIndexOffset_loop_after h transaction pre post post').
  - intros other pre post Hne Hdg. unfold makeTimeSeriesList.
    by rewrite colorIndexOffset_loop_skip.
Qed.

End ColorFacts2.

(** [sample_heap]: three series for the transaction at reference 1, one
    for the transaction at reference 2, after the two series of the
    transaction at reference 0. *)
Lemma makeTimeSeriesList_distinct_colors_witness :
  exists out1 out2,
    @makeTimeSeriesList reference_env sample_heap [[]; []; []] 1 [0; 1; 2]
    = Normal out1
    /\ @makeTimeSeriesList reference_env sample_heap [[("target", VStr "up")]]
         2 [0; 1; 2] = Normal out2
    /\ NoDup (map color (out1 ++ out2)).
Proof.
  apply (@makeTimeSeriesList_distinct_colors reference_env sample_heap
           [0; 1; 2] 1 2 [[]; []; []] [[("target", VStr "up")]] 5).
  - apply (bool_decide_unpack _). by vm_compute.
  - simpl. set_solver.
  - reflexivity.
  - reflexivity.
  - reflexivity.
  - simpl. lia.
Defined.

(** [running_heap]: the transaction at reference 1 is not done, and dropping
    it from the list changes nothing for the transaction at reference 2. *)
Lemma makeTimeSeriesList_irrelevant_witness :
  @makeTimeSeriesList reference_env running_heap [[("target", VStr "up")]] 2
    ([0] ++ 1 :: [2; 3])
  = @makeTimeSeriesList reference_env running_heap [[("target", VStr "up")]] 2
      ([0] ++ [2; 3]).
Proof.
  destruct (@makeTimeSeriesList_irrelevant reference_env running_heap
              [[("target", VStr "up")]] 2) as [_ Hskip].
  apply (Hskip 1 [0] [2; 3]); [discriminate|reflexivity].
Defined.

(** ** The compact array as a pure function of its segments *)

Section CompactFacts.
Context `{Env}.

Lemma call_hasOwnProperty_name e k :
  tame_segment e = true ->
  k ∈ ["expr"; "target"; "datasource"; "ui"] ->
  call_hasOwnProperty e k
  = Normal (match e with VObj fields => has_field k fields | _ => false end).
Proof.
  intros Ht Hk.
  assert (forall n, (String.eqb k "length" || is_index_below n k) = false) as Hidx.
  { intros n. destruct (is_index_below_names n) as (H1 & H2 & H3 & H4).
    repeat (apply elem_of_cons in Hk as [->|Hk]; [by rewrite ?H1, ?H2, ?H3, ?H4|]).
    inversion Hk. }
  destruct e as [| | | | |items|fields]; simpl in *; try done.
  - by rewrite Hidx.
  - by rewrite Hidx.
  - apply andb_prop in Ht as [Hh%negb_true_iff _]. by rewrite Hh.
Qed.

Lemma isMetricSegment_tame e :
  tame_segment e = true -> isMetricSegment e = Normal (metric_segment e).
Proof.
  intros Ht. unfold isMetricSegment, metricProperties. simpl.
  rewrite !call_hasOwnProperty_name by (done || set_solver). simpl.
  destruct e as [| | | | | |fields]; simpl; try done.
  unfold has_metric_field.
  destruct (has_field "expr" fields); [done|].
  destruct (has_field "target" fields); [done|].
  by destruct (has_field "datasource" fields).
Qed.

Lemma isUISegment_tame e :
  tame_segment e = true -> isUISegment e = Normal (ui_segment e).
Proof.
  intros Ht. unfold isUISegment.
  by rewrite call_hasOwnProperty_name by (done || set_solver).
Qed.

Lemma filter_c_pure {A} (p : A -> completion bool) (f : A -> bool) xs :
  Forall (fun x => p x = Normal (f x)) xs ->
  filter_c p xs = Normal (List.filter f xs).
Proof.
  induction 1 as [|x xs Hx _ IH]; [done|].
  simpl. rewrite Hx, IH. simpl. by destruct (f x).
Qed.

Lemma ui_of_segments_tame segs :
  forallb tame_segment segs = true ->
  ui_of_segments segs = Normal (ui_of_first_segment segs).
Proof.
  intros Ht. pose proof (proj1 (forallb_forall _ _) Ht) as Hall.
  unfold ui_of_segments, ui_of_first_segment.
  rewrite (filter_c_pure isUISegment ui_segment).
  2:{ apply Forall_forall. intros e He.
      by apply isUISegment_tame, Hall, list_elem_of_In. }
  simpl.
  destruct (List.filter ui_segment segs) as [|uiState uis] eqn:E; [done|].
  assert (In uiState (List.filter ui_segment segs)) as Hin
    by (rewrite E; by left).
  apply filter_In in Hin as [Hin Hui]. apply Hall in Hin.
  destruct uiState as [| | | | | |fields]; simpl in *; try done.
  unfold ui_of_segment, index_or_undefined, get. unfold has_field in Hui.
  apply andb_prop in Hin as [_ Hflags].
  destruct (lookup_field "ui" fields) as [flags|]; [|done]. simpl.
  by destruct flags.
Qed.

Lemma filter_metric_objects (qs : list object) :
  List.filter metric_segment (map VObj qs)
  = map VObj (List.filter has_metric_field qs).
Proof.
  induction qs as [|q qs IH]; [done|].
  simpl. destruct (has_metric_field q); simpl; by rewrite IH.
Qed.

Lemma filter_ui_objects (qs : list object) :
  forallb plain_query qs = true ->
  List.filter ui_segment (map VObj qs) = [].
Proof.
  induction qs as [|q qs IH]; [done|]. simpl.
  intros [[Hu%negb_true_iff _]%andb_prop Hqs]%andb_prop.
  rewrite Hu. by apply IH.
Qed.

Lemma parseUrlState_tame initial h0 h1 h2 segs :
  safeParseJson initial = VArr (h0 :: h1 :: h2 :: segs) ->
  segs <> [] ->
  forallb tame_segment segs = true ->
  parseUrlState initial
  = Normal (VObj [("datasource", h2);
                  ("queries", VArr (List.filter metric_segment segs));
                  ("range", VObj [("from", h0); ("to", h1)]);
                  ("ui", ui_of_first_segment segs)]).
Proof.
  intros Hp Hne Ht. unfold parseUrlState. rewrite Hp.
  destruct segs as [|e segs]; [done|].
  cbn [truthy negb length Nat.leb ParseUrlStateIndex.SegmentsStart].
  unfold ParseUrlStateIndex.SegmentsStart, ParseUrlStateIndex.RangeFrom,
    ParseUrlStateIndex.RangeTo, ParseUrlStateIndex.Datasource.
  cbn [drop nth].
  pose proof (proj1 (forallb_forall _ _) Ht) as Hall.
  rewrite (filter_c_pure isMetricSegment metric_segment).
  2:{ apply Forall_forall. intros x Hx.
      by apply isMetricSegment_tame, Hall, list_elem_of_In. }
  rewrite ui_of_segments_tame by done. reflexivity.
Qed.

(** X17.  On a compact array whose trailing segments are tame (none is [null],
    none has an own [hasOwnProperty], none has a [ui] that is [null])
    [parseUrlState] is a pure function of the array: the queries are the
    segments with one of the fields [expr], [target], [datasource], in array
    order; the UI state is read from the first segment with a [ui] field,
    later ones being ignored, and is the default when there is none. *)
Theorem parseUrlState_compact_array initial h0 h1 h2 segs :
  parses_to initial (VArr (h0 :: h1 :: h2 :: segs)) ->
  segs <> [] ->
  forallb tame_segment segs = true ->
  parseUrlState initial
  = Normal (VObj [("datasource", h2);
                  ("queries", VArr (List.filter metric_segment segs));
                  ("range", VObj [("from", h0); ("to", h1)]);
                  ("ui", ui_of_first_segment segs)]).
Proof.
  intros Hp Hne Ht. apply parseUrlState_tame; [|done..].
  by apply safeParseJson_parses_to.
Qed.

(** X18.  What comes back from the compact form in general.  For a state whose
    queries have neither a [ui] nor a [hasOwnProperty] field and whose
    compact text URI-decodes and parses back to the serialized array,
    [parseUrlState] returns the datasource, the range and the UI state of
    the state, and of its queries exactly those with one of the fields
    [expr], [target], [datasource], in their order: the other queries are
    dropped without notice. *)
Theorem parseUrlState_serialize_compact s :
  forallb plain_query (queries s) = true ->
  safeParseJson (Some (serializeStateToUrlParam s true)) = compact_array s ->
  parseUrlState (Some (serializeStateToUrlParam s true))
  = Normal (VObj [("datasource", datasource_value (datasource s));
                  ("queries",
                   VArr (map VObj (List.filter has_metric_field (queries s))));
                  ("range", range_value (range s));
                  ("ui", ui_value (ui s))]).
Proof.
  intros Hq Hwire. unfold parseUrlState. rewrite Hwire.
  unfold compact_array. simpl.
  rewrite length_app, Nat.add_comm. simpl.
  pose proof (proj1 (forallb_forall _ _) Hq) as Hall.
  assert (forallb tame_segment
            (map VObj (queries s)
             ++ [VObj [("ui",
                   VArr [VBool (negb (negb (showingGraph (ui s))));
                         VBool (negb (negb (showingLogs (ui s))));
                         VBool (negb (negb (showingTable (ui s))));
                         dedupStrategy (ui s)])]]) = true) as Ht.
  { rewrite forallb_app. apply andb_true_intro. split; [|done].
    apply forallb_forall. intros e He. apply in_map_iff in He as (q & <- & Hin).
    apply Hall in Hin. unfold plain_query in Hin. simpl.
    apply andb_prop in Hin as [Hu%negb_true_iff Hh%negb_true_iff].
    rewrite Hh. simpl. unfold has_field in Hu.
    by destruct (lookup_field "ui" q). }
  pose proof (proj1 (forallb_forall _ _) Ht) as Hall'.
  rewrite !drop_0, (filter_c_pure isMetricSegment metric_segment).
  2:{ apply Forall_forall. intros x Hx.
      by apply isMetricSegment_tame, Hall', list_elem_of_In. }
  rewrite ui_of_segments_tame by done. simpl.
  rewrite List.filter_app, filter_metric_objects.
  unfold ui_of_first_segment.
  rewrite List.filter_app, filter_ui_objects by done. simpl.
  by rewrite app_nil_r, !negb_involutive.
Qed.

End CompactFacts.

(** A compact array with a query, a number, and two UI segments, the second
    of which is a query as well. *)
Lemma parseUrlState_compact_array_witness :
  let segs := [VObj [("expr", VStr "up")]; VNum 7;
               VObj [("ui", VArr [VBool false])];
               VObj [("ui", VArr [VBool true; VBool true; VBool true; VStr "none"]);
                     ("target", VStr "x")]] in
  @parseUrlState reference_env
    (Some (Reference.js
       "['now-1h','now','Prometheus',{'expr':'up'},7,{'ui':[false]},{'ui':[true,true,true,'none'],'target':'x'}]"))
  = Normal (VObj [("datasource", VStr "Prometheus");
                  ("queries", VArr (List.filter metric_segment segs));
                  ("range", VObj [("from", VStr "now-1h"); ("to", VStr "now")]);
                  ("ui", @ui_of_first_segment reference_env segs)]).
Proof.
  apply (@parseUrlState_compact_array reference_env).
  - eexists. split; [reflexivity|]. split; [done|]. vm_compute. reflexivity.
  - done.
  - reflexivity.
Defined.

(** [two_query_state]: its second query has no datasource field. *)
Lemma parseUrlState_serialize_compact_witness :
  @parseUrlState reference_env
    (Some (@serializeStateToUrlParam reference_env two_query_state true))
  = Normal (VObj [("datasource", datasource_value (datasource two_query_state));
                  ("queries",
                   VArr (map VObj (List.filter has_metric_field
                                     (queries two_query_state))));
                  ("range", range_value (range two_query_state));
                  ("ui", ui_value (ui two_query_state))]).
Proof.
  apply (@parseUrlState_serialize_compact reference_env two_query_state).
  - reflexivity.
  - vm_compute. reflexivity.
Defined.

(** X19.  The full (non-compact) form loses nothing.  With the reference
    built-ins, for every state that is free of [undefined] and of repeated
    property names and whose text has no percent sign, [parseUrlState] of
    the full text returns the state, whatever fields its queries have. *)
Theorem parseUrlState_serialize_full s :
  json_clean (state_value s) = true ->
  percent_free (@serializeStateToUrlParam reference_env s false) = true ->
  @parseUrlState reference_env
    (Some (@serializeStateToUrlParam reference_env s false))
  = Normal (state_value s).
Proof.
  intros Hc Hp. unfold parseUrlState, serializeStateToUrlParam in *.
  by rewrite ReferenceFacts.safeParseJson_stringify.
Qed.

(** The same state in the full form. *)
Lemma parseUrlState_serialize_full_witness :
  @parseUrlState reference_env
    (Some (@serializeStateToUrlParam reference_env two_query_state false))
  = Normal (state_value two_query_state).
Proof.
  apply (parseUrlState_serialize_full two_query_state).
  - vm_compute. reflexivity.
  - vm_compute. reflexivity.
Defined.

(** X20.  [safeStringifyValue] and [safeParseJson] are inverse on truthy values
    only.  With the reference built-ins, a truthy value free of [undefined]
    and of repeated property names, whose text has no percent sign, is read
    back from its text; a falsy value ([null], [false], [0], the empty
    string) is written as the empty text and read back as [undefined]. *)
Theorem safeParseJson_safeStringifyValue indented v :
  json_clean v = true ->
  percent_free (@JSON_stringify reference_env v) = true ->
  @safeParseJson reference_env
    (Some (@safeStringifyValue reference_env indented v None))
  = if truthy v then v else VUndef.
Proof.
  intros Hc Hp. unfold safeStringifyValue.
  destruct (truthy v); simpl; [|done].
  by apply ReferenceFacts.safeParseJson_stringify.
Qed.

(** A query and the number 0.  No [space] is given, so that the indenting
    printer plays no part. *)
Lemma safeParseJson_safeStringifyValue_witness :
  @safeParseJson reference_env
    (Some (@safeStringifyValue reference_env (fun v _ => Reference.stringify v)
             (VObj q_up) None))
  = (if truthy (VObj q_up) then VObj q_up else VUndef)
  /\ @safeParseJson reference_env
       (Some (@safeStringifyValue reference_env (fun v _ => Reference.stringify v)
                (VNum 0) None))
     = (if truthy (VNum 0) then VNum 0 else VUndef).
Proof.
  split.
  - apply (safeParseJson_safeStringifyValue _ (VObj q_up));
      vm_compute; reflexivity.
  - apply (safeParseJson_safeStringifyValue _ (VNum 0));
      vm_compute; reflexivity.
Defined.

(** ** The Explore URL of a panel *)

Section ExploreUrlFacts.
Context `{Env}.
Variable renderUrl : string -> object -> string.
Variable datasourceSrv_get : value -> completion (option DataSource.t).

Lemma mixedExploreDatasource_skip pre rest :
  Forall (fun p => no_explore (datasourceSrv_get (get p "datasource")) = true) pre ->
  mixedExploreDatasource datasourceSrv_get (pre ++ rest)
  = mixedExploreDatasource datasourceSrv_get rest.
Proof.
  induction 1 as [|p pre Hp _ IH]; [done|]. simpl.
  destruct (datasourceSrv_get (get p "datasource")) as [[d|]|e]; simpl in *;
    [|done|done].
  apply negb_true_iff in Hp. by rewrite Hp.
Qed.


(** X22.  A resolution that rejects before any target has resolved to a
    datasource that supports Explore makes the whole call reject, with the
    same error; what comes after that target plays no part. *)
Theorem getExploreUrl_rejects pre t post targets panelDatasource e range :
  get (DataSource.meta panelDatasource) "id" = VStr "mixed" ->
  Forall (fun p => no_explore (datasourceSrv_get (get p "datasource")) = true) pre ->
  datasourceSrv_get (get t "datasource") = Throw e ->
  getExploreUrl renderUrl datasourceSrv_get
    (Some (pre ++ t :: post)) (Some targets) (Some panelDatasource) range
  = Throw e.
Proof.
  intros Hid Hpre Ht. unfold getExploreUrl.
  rewrite Hid. simpl. rewrite mixedExploreDatasource_skip by done.
  simpl. by rewrite Ht.
Qed.

End ExploreUrlFacts.


(** The same panel with the unresolvable target first. *)
Lemma getExploreUrl_rejects_witness :
  @getExploreUrl reference_env sample_renderUrl sample_resolver
    (Some ([("datasource", VStr "broken")] :: mixed_targets))
    (Some mixed_targets) (Some mixed) sample_range_value
  = Throw TypeError.
Proof.
  apply (@getExploreUrl_rejects reference_env sample_renderUrl sample_resolver
           [] [("datasource", VStr "broken")] mixed_targets mixed_targets mixed
           TypeError sample_range_value).
  - reflexivity.
  - constructor.
  - reflexivity.
Defined.

(** ** Raw times: the reference global functions on sample strings *)

Example is_nan_examples :
  map ReferenceTime.is_nan
    [EmptyString; "  "; "12"; " 12 "; "-12"; "+1.5e3"; ".5"; "5."; "."; "1e";
     "0x1F"; "0x"; "-0x1F"; "Infinity"; "-Infinity"; "infinity"; "12px";
     "now"; "1 2"; "0b101"; "0o17"; "0b2"; "1e+5"; "1e+"; "+"]
  = [false; false; false; false; false; false; false; false; true; true;
     false; true; true; false; false; true; true;
     true; true; false; false; true; false; true; true].
Proof. vm_compute. reflexivity. Qed.

Example parse_int_examples :
  map ReferenceTime.parse_int
    [EmptyString; "12"; " 12 "; "-12"; "+7"; "1.5e3"; "007"; "0x1F"; "12px";
     "px"; "Infinity"; "-"; "1e3"]
  = [None; Some 12%Z; Some 12%Z; Some (-12)%Z; Some 7%Z; Some 1%Z; Some 7%Z;
     Some 0%Z; Some 12%Z; None; None; None; Some 1%Z].
Proof. vm_compute. reflexivity. Qed.

(** ** Raw times *)

(** The decimal rendering of a number has no [now] in it, is numeric, and
    [parseInt] reads the number back. *)
Lemma uint_string_facts :
  forall d, d <> Decimal.Nil ->
    let s := NilEmpty.string_of_uint d in
    String.index 0 "now" s = None
    /\ ReferenceTime.is_nan s = false
    /\ ReferenceTime.parse_int s = Some (Z.of_uint d).
Proof.
  intros d Hd s.
  assert (forall d', String.index 0 "now" (NilEmpty.string_of_uint d') = None)
    as Hidx.
  { induction d' as [|d' IH|d' IH|d' IH|d' IH|d' IH|d' IH|d' IH|d' IH|d' IH|d' IH];
      [done|..]; simpl; by rewrite IH. }
  pose proof (ReferenceFacts.span_digits_uint d EmptyString I) as Hspan.
  rewrite string_app_empty_r in Hspan. fold s in Hspan.
  assert (exists c r, s = String c r /\ Reference.is_digit c = true) as (c & r & Hs & Hc).
  { subst s. destruct d; try done; simpl; eauto. }
  assert (ReferenceTime.is_space c = false /\ ReferenceTime.is_sign c = false
          /\ Ascii.eqb "I" c = false) as (Hsp & Hsg & HI).
  { clear -Hc. unfold Reference.is_digit in Hc.
    apply andb_prop in Hc as [H1%Nat.leb_le H2%Nat.leb_le].
    unfold ReferenceTime.is_space, ReferenceTime.is_sign.
    rewrite <- (ascii_nat_embedding c).
    set (n := nat_of_ascii c) in *.
    do 48 (destruct n as [|n]; [lia|]).
    do 10 (destruct n as [|n]; [by vm_compute|]). simpl in H2. lia. }
  split; [apply Hidx|].
  assert (ReferenceTime.trim_start s = s) as Htrim
    by (rewrite Hs; simpl; by rewrite Hsp).
  assert (ReferenceTime.strip_sign s = s) as Hsign
    by (rewrite Hs; simpl; by rewrite Hsg).
  split.
  - assert (ReferenceTime.decimal_literal s = true) as Hdec.
    { unfold ReferenceTime.decimal_literal. rewrite Hspan.
      assert (Reference.strip_prefix "Infinity" s = None) as ->
        by (rewrite Hs;
            change (Reference.strip_prefix "Infinity" (String c r))
              with (if Ascii.eqb "I" c
                    then Reference.strip_prefix "nfinity" r else None);
            by rewrite HI).
      rewrite Hs. reflexivity. }
    unfold ReferenceTime.is_nan. rewrite Htrim.
    rewrite Hs in Hsign, Hdec |- *. by rewrite Hsign, Hdec, orb_true_r.
  - unfold ReferenceTime.parse_int. rewrite Htrim, Hsign, Hspan.
    assert (ReferenceTime.nonempty s = true) as -> by (by rewrite Hs).
    assert (match s with String c0 _ => Ascii.eqb c0 "-" | EmptyString => false end
            = false) as ->.
    { rewrite Hs. unfold ReferenceTime.is_sign in Hsg.
      by apply orb_false_elim in Hsg as [_ ->]. }
    assert (NilZero.string_of_uint d = s) as Heq by (by destruct d).
    rewrite <- Heq, NilZero.usu by done. done.
Qed.

Lemma number_to_string_uint n :
  (0 <= n)%Z ->
  exists d, d <> Decimal.Nil /\ number_to_string n = NilEmpty.string_of_uint d
            /\ Z.of_uint d = n.
Proof.
  intros Hn. unfold number_to_string.
  destruct n as [|p|p]; [| |lia].
  - exists (Decimal.D0 Decimal.Nil). done.
  - exists (Pos.to_uint p). simpl.
    pose proof (DecimalPos.Unsigned.to_uint_nonnil p) as Hnil.
    split; [done|]. split; [by destruct (Pos.to_uint p)|].
    unfold Z.of_uint. by rewrite DecimalPos.Unsigned.of_to.
Qed.

(** X23.  With the reference global functions, a string of decimal digits (the
    rendering of a number from 0 to 2^53, the range in which a JavaScript
    number is exact) is never rejected and never taken for a relative
    expression.  It is read as that number of epoch milliseconds, unless it
    has exactly 8 or 15 digits (or 19, which lies beyond that range): then it
    is read as a date in the format of that length. *)
Theorem parseRawTime_digits (n : Z) :
  (0 <= n <= 2 ^ 53)%Z ->
  let s := number_to_string n in
  @parseRawTime reference_time (VStr s)
  = Normal
      (RawMoment
         (if String.length s =? 8 then moment_utc_format (VStr s) "YYYYMMDD"
          else if String.length s =? 15
               then moment_utc_format (VStr s) "YYYYMMDDTHHmmss"
          else if String.length s =? 19
               then moment_utc_format (VStr s) "YYYY-MM-DD HH:mm:ss"
          else moment_utc_epoch (Some n))).
Proof.
  intros [Hn _] s. subst s.
  destruct (number_to_string_uint n Hn) as (d & Hd & -> & <-).
  destruct (uint_string_facts d Hd) as (Hidx & Hnan & Hint).
  unfold parseRawTime. rewrite Hidx. simpl ToString. simpl isNaN. simpl parseInt.
  rewrite Hnan, Hint. simpl.
  destruct (_ =? 8); [done|]. destruct (_ =? 15); [done|].
  by destruct (_ =? 19).
Qed.

(** An epoch of 13 digits, and a number of 8 digits that is taken for a
    date. *)
Lemma parseRawTime_digits_witness :
  @parseRawTime reference_time (VStr "1560000000000")
  = Normal (RawMoment (moment_utc_epoch (Some 1560000000000%Z)))
  /\ @parseRawTime reference_time (VStr "15600000")
     = Normal (RawMoment (moment_utc_format (VStr "15600000") "YYYYMMDD")).
Proof.
  split.
  - apply (parseRawTime_digits 1560000000000%Z). vm_compute. by split.
  - apply (parseRawTime_digits 15600000%Z). vm_compute. by split.
Defined.

Section RawTimeFacts.
Context `{Env} `{TimeEnv}.

Lemma parseRawTime_throws v :
  not_a_time v = true -> parseRawTime v = Throw TypeError.
Proof. by destruct v. Qed.

Lemma parseRawTime_returns v :
  not_a_time v = false -> exists r, parseRawTime v = Normal r.
Proof.
  destruct v as [| | | |s|items|fields]; try done; intros _.
  - by eexists.
  - unfold parseRawTime.
    repeat match goal with |- context [if ?b then _ else _] => destruct b end;
      by eexists.
  - unfold parseRawTime.
    repeat match goal with |- context [if ?b then _ else _] => destruct b end;
      by eexists.
Qed.

(** X24.  A compact URL array whose range is not made of strings makes the time
    range throw.  When the array parses and its segments are tame,
    [parseUrlState] returns a state whose range holds the first two elements
    as they are; if one of them is a number, a boolean or an object,
    [getTimeRangeFromUrl] on that range throws a [TypeError], whatever the
    time zone. *)
Theorem getTimeRangeFromUrl_throws initial h0 h1 h2 segs timeZone :
  parses_to initial (VArr (h0 :: h1 :: h2 :: segs)) ->
  segs <> [] ->
  forallb tame_segment segs = true ->
  not_a_time h0 || not_a_time h1 = true ->
  exists state,
    parseUrlState initial = Normal (VObj state)
    /\ get state "range" = VObj [("from", h0); ("to", h1)]
    /\ getTimeRangeFromUrl (get state "range") timeZone = Throw TypeError.
Proof.
  intros Hp Hne Ht Hbad.
  rewrite (parseUrlState_tame initial h0 h1 h2 segs
             (safeParseJson_parses_to _ _ Hp) Hne Ht).
  eexists. split; [reflexivity|]. split; [reflexivity|].
  unfold getTimeRangeFromUrl. simpl.
  change (get [("from", h0); ("to", h1)] "from") with h0.
  change (get [("from", h0); ("to", h1)] "to") with h1.
  destruct (not_a_time h0) eqn:E0.
  - by rewrite (parseRawTime_throws h0 E0).
  - destruct (parseRawTime_returns h0 E0) as [r ->]. simpl in *.
    by rewrite (parseRawTime_throws h1 Hbad).
Qed.

End RawTimeFacts.

(** A compact array whose range starts at an epoch given as a number. *)
Lemma getTimeRangeFromUrl_throws_witness :
  exists state,
    @parseUrlState reference_env
      (Some (Reference.js "[1560000000000,'now','Prometheus',{'expr':'up'}]"))
    = Normal (VObj state)
    /\ get state "range" = VObj [("from", VNum 1560000000000); ("to", VStr "now")]
    /\ @getTimeRangeFromUrl reference_time (get state "range") (VObj [])
       = Throw TypeError.
Proof.
  apply (@getTimeRangeFromUrl_throws reference_env reference_time
           (Some (Reference.js "[1560000000000,'now','Prometheus',{'expr':'up'}]"))
           (VNum 1560000000000) (VStr "now") (VStr "Prometheus")
           [VObj [("expr", VStr "up")]] (VObj [])).
  - eexists. split; [reflexivity|]. split; [done|]. vm_compute. reflexivity.
  - done.
  - reflexivity.
  - reflexivity.
Defined.

